(** * pyqstrat evaluator: a shallow embedding of [evaluator.ipynb]

    The notebook computes return metrics of a periodic return series.  This
    development embeds

    - [handle_non_finite_returns], the sanitizer of the (timestamps, returns)
      pair, over a store of numpy buffers (it writes into its argument);
    - the metric functions on drawdowns and their maximum, the trailing
      three-year window, the Sharpe, Sortino, MAR and Calmar ratios and the
      returns by year, over IEEE binary64 numbers;
    - the class [Evaluator], a registry of recipes resolved recursively and
      cached in a dictionary, over a store of dictionaries;
    - the entry of [compute_return_metrics] and the recipes it registers.

    Floats are Rocq's primitive binary64 numbers, so every arithmetic step
    rounds as numpy's does; facts about them go through the specification
    [SpecFloat] of the primitive operations.  Timestamps are [datetime64[D]]
    values: the day count since 1970-01-01, with no NaT among them.
    Exceptions are values, and the state a raising call leaves behind is
    kept.  The functions of the recipes of an [Evaluator] return in the
    first model of the class and may raise in the second, [raising]. *)

From Stdlib Require Import ZArith Uint63 Floats Bool Lia.
From stdpp Require Import gmap strings list fin_maps sorting.

Open Scope Z_scope.

(** ** Floats as numpy sees them *)

Module np.

(** [np.isnan], [np.isfinite] on one element. *)
Definition isnan (x : float) : bool := PrimFloat.is_nan x.
Definition isfinite (x : float) : bool := PrimFloat.is_finite x.

(** The largest finite binary64 number, [np.finfo(np.float64).max]. *)
Definition float_max : float := 0x1.fffffffffffffp+1023%float.

(** [np.nan_to_num] with its default arguments, on one element: NaN
    becomes 0.0 and the infinities the largest finite numbers. *)
Definition nan_to_num (x : float) : float :=
  if isnan x then 0%float
  else if PrimFloat.eqb x infinity then float_max
  else if PrimFloat.eqb x neg_infinity then PrimFloat.opp float_max
  else x.

(** [np.nonzero] on a boolean vector: the positions holding [True]. *)
Fixpoint nonzero_from (i : nat) (mask : list bool) : list nat :=
  match mask with
  | [] => []
  | b :: mask' => if b then i :: nonzero_from (S i) mask'
                  else nonzero_from (S i) mask'
  end.
Definition nonzero (mask : list bool) : list nat := nonzero_from 0 mask.

(** [a[mask]] for a boolean mask of the length of [a]. *)
Fixpoint compress {A} (mask : list bool) (a : list A) : list A :=
  match mask, a with
  | b :: mask', x :: a' => if b then x :: compress mask' a' else compress mask' a'
  | _, _ => []
  end.

(** [np.mean] and [np.std] of a float64 vector: the sums run from left
    to right (numpy's pairwise grouping of long vectors is not modelled). *)
Definition sum (xs : list float) : float := fold_left PrimFloat.add xs 0%float.
Definition len (xs : list float) : float :=
  PrimFloat.of_uint63 (Uint63.of_Z (Z.of_nat (length xs))).
Definition mean (xs : list float) : float := PrimFloat.div (sum xs) (len xs).
Definition std (xs : list float) : float :=
  let arrmean := mean xs in
  let x := map (λ a, PrimFloat.sub a arrmean) xs in
  PrimFloat.sqrt (mean (map (λ a, PrimFloat.mul a a) x)).

(** [np.fmax] on two elements, and [np.nanmax] on a vector that is not
    empty: [np.fmax.reduce], the maximum that passes over NaN, taken from
    left to right. *)
Definition fmax (in1 in2 : float) : float :=
  if PrimFloat.leb in2 in1 || isnan in2 then in1 else in2.
Definition nanmax (a : list float) : float :=
  match a with
  | [] => nan
  | x :: a' => fold_left fmax a' x
  end.

(** [np.argmax] on a float64 vector: the first index of the maximum, where
    a NaN is maximal and ends the search. *)
Fixpoint argmax_from (mp : float) (max_ind i : nat) (ip : list float) : nat :=
  match ip with
  | [] => max_ind
  | x :: ip' =>
      if isnan mp then max_ind
      else if negb (PrimFloat.leb x mp) then argmax_from x i (S i) ip'
      else argmax_from mp max_ind (S i) ip'
  end.
Definition argmax (a : list float) : nat :=
  match a with
  | [] => 0%nat
  | x :: a' => argmax_from x 0 1 a'
  end.

End np.

(** ** Exceptions and the interpreter monad *)

Inductive exn :=
| AssertionError
| IndexError
| ValueError
| KeyError (k : string)
| RecursionError
| TypeError
| Exception (class_name : string).   (* any other exception, by its class *)

(** A Python computation over a mutable state [S]: it returns a value or
    raises, and the state it leaves behind survives the exception. *)
Definition Py (S A : Type) : Type := S → (exn + A) * S.

Definition py_ret {S A} (a : A) : Py S A := λ σ, (inr a, σ).
Definition py_raise {S A} (e : exn) : Py S A := λ σ, (inl e, σ).
Definition py_bind {S A B} (m : Py S A) (k : A → Py S B) : Py S B :=
  λ σ, match m σ with
       | (inr a, σ') => k a σ'
       | (inl e, σ') => (inl e, σ')
       end.
Definition py_get {S} : Py S S := λ σ, (inr σ, σ).
Definition py_modify {S} (f : S → S) : Py S () := λ σ, (inr (), f σ).
Definition py_assert {S} (b : bool) : Py S () :=
  if b then py_ret () else py_raise AssertionError.

Declare Scope py_scope.
Delimit Scope py_scope with py.
Notation "'let*' x := m 'in' k" := (py_bind m (λ x, k))
  (at level 10, x name, m at level 100, k at level 200) : py_scope.
Notation "'let*' ' p := m 'in' k" := (py_bind m (λ p, k))
  (at level 10, p pattern, m at level 100, k at level 200) : py_scope.
Notation "m ;;; k" := (py_bind m (λ _, k))
  (at level 100, k at level 200, right associativity) : py_scope.

(** [for x in xs: body x] *)
Fixpoint py_for {S A} (xs : list A) (body : A → Py S ()) : Py S () :=
  match xs with
  | [] => py_ret ()
  | x :: xs' => (body x ;;; py_for xs' body)%py
  end.

(** ** numpy arrays in a store

    An [ndarray] is a one-dimensional view: a window on a buffer that other
    arrays may share.  Basic slicing makes a view of the same buffer; a
    boolean mask and [np.nan_to_num] make a new buffer. *)

Definition loc := nat.

Record ndarray := { data : loc; offset : nat; size : nat }.

Record Store := {
  f64 : gmap loc (list float);   (* buffers of dtype float64 *)
  M8  : gmap loc (list Z)        (* buffers of dtype datetime64[D] *)
}.

Definition view {A} (bufs : gmap loc (list A)) (a : ndarray) : list A :=
  take (size a) (drop (offset a) (default [] (bufs !! data a))).

(** [a[i:]] for [0 <= i] *)
Definition slice_from (a : ndarray) (i : nat) : ndarray :=
  {| data := data a; offset := offset a + i `min` size a; size := size a - i |}.

(** the buffer after [a[:n] = vals], where [vals] has length [n <= len(a)] *)
Definition blit {A} (buf : list A) (at_ : nat) (vals : list A) : list A :=
  take at_ buf ++ vals ++ drop (at_ + length vals) buf.

Definition setslice_f64 (a : ndarray) (vals : list float) : Py Store () :=
  py_modify (λ σ, {| f64 := <[data a := blit (default [] (f64 σ !! data a)) (offset a) vals]> (f64 σ);
                     M8 := M8 σ |}).

Definition new_f64 (vals : list float) : Py Store ndarray :=
  λ σ, let l := fresh (dom (f64 σ)) in
       (inr {| data := l; offset := 0; size := length vals |},
        {| f64 := <[l := vals]> (f64 σ); M8 := M8 σ |}).

Definition new_M8 (vals : list Z) : Py Store ndarray :=
  λ σ, let l := fresh (dom (M8 σ)) in
       (inr {| data := l; offset := 0; size := length vals |},
        {| f64 := f64 σ; M8 := <[l := vals]> (M8 σ) |}).

(** [a[mask]]: a copy of the selected entries; numpy raises IndexError when
    the mask and the array differ in length. *)
Definition mask_M8 (a : ndarray) (mask : list bool) : Py Store ndarray :=
  (let* σ := py_get in
   if decide (length mask = size a) then new_M8 (np.compress mask (view (M8 σ) a))
   else py_raise IndexError)%py.

Definition mask_f64 (a : ndarray) (mask : list bool) : Py Store ndarray :=
  (let* σ := py_get in
   if decide (length mask = size a) then new_f64 (np.compress mask (view (f64 σ) a))
   else py_raise IndexError)%py.

(** ** The sanitizer *)

(** [np.ravel(np.nonzero(~np.isnan(rets)))[0]], or -1 when every entry is NaN *)
Definition first_non_nan (rets : list float) : Z :=
  match np.nonzero (map (λ x, negb (np.isnan x)) rets) with
  | i :: _ => Z.of_nat i
  | [] => -1
  end.

Definition handle_non_finite_returns (timestamps rets : ndarray)
    (leading_non_finite_to_zeros subsequent_non_finite_to_zeros : bool)
    : Py Store (ndarray * ndarray) :=
  (let* σ := py_get in
   let first_non_nan_index : Z := first_non_nan (view (f64 σ) rets) in
   let* '(timestamps, rets) :=
     if (0 <? first_non_nan_index) && (first_non_nan_index <? Z.of_nat (size rets)) then
       let n := Z.to_nat first_non_nan_index in
       if leading_non_finite_to_zeros then
         setslice_f64 rets (map np.nan_to_num (take n (view (f64 σ) rets))) ;;;
         py_ret (timestamps, rets)
       else
         py_ret (slice_from timestamps n, slice_from rets n)
     else py_ret (timestamps, rets) in
   let* σ := py_get in
   if subsequent_non_finite_to_zeros then
     let* rets := new_f64 (map np.nan_to_num (view (f64 σ) rets)) in
     py_ret (timestamps, rets)
   else
     let* timestamps := mask_M8 timestamps (map np.isfinite (view (f64 σ) rets)) in
     let* rets := mask_f64 rets (map np.isfinite (view (f64 σ) rets)) in
     py_ret (timestamps, rets))%py.

(** The two halves of [handle_non_finite_returns], named for the proofs. *)
Definition leading_step (timestamps rets : ndarray) (leading_non_finite_to_zeros : bool)
    : Py Store (ndarray * ndarray) :=
  (let* σ := py_get in
   let first_non_nan_index : Z := first_non_nan (view (f64 σ) rets) in
   if (0 <? first_non_nan_index) && (first_non_nan_index <? Z.of_nat (size rets)) then
     let n := Z.to_nat first_non_nan_index in
     if leading_non_finite_to_zeros then
       setslice_f64 rets (map np.nan_to_num (take n (view (f64 σ) rets))) ;;;
       py_ret (timestamps, rets)
     else
       py_ret (slice_from timestamps n, slice_from rets n)
   else py_ret (timestamps, rets))%py.

Definition subsequent_step (timestamps rets : ndarray) (subsequent_non_finite_to_zeros : bool)
    : Py Store (ndarray * ndarray) :=
  (let* σ := py_get in
   if subsequent_non_finite_to_zeros then
     let* rets := new_f64 (map np.nan_to_num (view (f64 σ) rets)) in
     py_ret (timestamps, rets)
   else
     let* timestamps := mask_M8 timestamps (map np.isfinite (view (f64 σ) rets)) in
     let* rets := mask_f64 rets (map np.isfinite (view (f64 σ) rets)) in
     py_ret (timestamps, rets))%py.

(** What a caller reads in the two arrays a call returns. *)
Definition sanitized (r : (exn + ndarray * ndarray) * Store)
    : exn + list Z * list float :=
  match r with
  | (inr (t, x), σ) => inr (view (M8 σ) t, view (f64 σ) x)
  | (inl e, _) => inl e
  end.

(** ** The proleptic Gregorian calendar

    [pd.to_datetime] turns a day count into a calendar date and
    [np.datetime64] turns the date back; [datetime.replace] refuses a date
    that does not exist, and pandas refuses a date outside the range of its
    nanosecond clock. *)

Module calendar.

Record date := { year : Z; month : Z; day : Z }.

Definition days_from_civil (dt : date) : Z :=
  let y := if month dt <=? 2 then year dt - 1 else year dt in
  let era := y / 400 in
  let yoe := y - era * 400 in
  let mp := if 2 <? month dt then month dt - 3 else month dt + 9 in
  let doy := (153 * mp + 2) / 5 + day dt - 1 in
  let doe := yoe * 365 + yoe / 4 - yoe / 100 + doy in
  era * 146097 + doe - 719468.

Definition civil_from_days (z : Z) : date :=
  let z := z + 719468 in
  let era := z / 146097 in
  let doe := z - era * 146097 in
  let yoe := (doe - doe / 1460 + doe / 36524 - doe / 146096) / 365 in
  let doy := doe - (365 * yoe + yoe / 4 - yoe / 100) in
  let mp := (5 * doy + 2) / 153 in
  let d := doy - (153 * mp + 2) / 5 + 1 in
  let m := if mp <? 10 then mp + 3 else mp - 9 in
  {| year := if m <=? 2 then yoe + era * 400 + 1 else yoe + era * 400;
     month := m; day := d |}.

Definition is_leap (y : Z) : bool :=
  (y mod 4 =? 0) && (negb (y mod 100 =? 0) || (y mod 400 =? 0)).

Definition days_in_month (y m : Z) : Z :=
  if m =? 2 then (if is_leap y then 29 else 28)
  else if (m =? 4) || (m =? 6) || (m =? 9) || (m =? 11) then 30 else 31.

(** [pd.Timestamp.min] is 1677-09-21 00:12:43 and [pd.Timestamp.max] is
    2262-04-11 23:47:16: the midnights pandas can hold. *)
Definition in_bounds (z : Z) : bool := (-106751 <=? z) && (z <=? 106751).

(** [pd.to_datetime(t)] for a [datetime64[D]] value *)
Definition to_datetime (z : Z) : exn + date :=
  if in_bounds z then inr (civil_from_days z) else inl ValueError.

(** [d.replace(year=y)] *)
Definition replace_year (d : date) (y : Z) : exn + date :=
  if (day d <=? days_in_month y (month d))
     && in_bounds (days_from_civil {| year := y; month := month d; day := day d |})
  then inr {| year := y; month := month d; day := day d |}
  else inl ValueError.

(** [np.datetime64(d)], compared with day counts *)
Definition datetime64 (d : date) : Z := days_from_civil d.

End calendar.

(** ** Python values of the metric functions *)

Inductive pyval :=
| Float (x : float)
| ArrayF (a : list float)      (* ndarray of dtype float64 *)
| ArrayM8 (a : list Z)         (* ndarray of dtype datetime64 *)
| Tuple (a b : pyval).

(** The shape of a rolling drawdown: a pair (dates, magnitudes) of two
    arrays of one length. *)
Definition is_dd_pair (v : pyval) : bool :=
  match v with
  | Tuple (ArrayM8 dates) (ArrayF dd) => bool_decide (length dates = length dd)
  | _ => false
  end.

(** A pure computation that may raise. *)
Definition exn_bind {A B} (m : exn + A) (k : A → exn + B) : exn + B :=
  match m with inl e => inl e | inr a => k a end.
Notation "'try' x := m 'in' k" := (exn_bind m (λ x, k))
  (at level 10, x name, m at level 100, k at level 200).

(** ** Metric functions *)

(** [starting_equity * np.cumprod(1. + returns)] *)
Fixpoint cumprod_from (acc : float) (xs : list float) : list float :=
  match xs with
  | [] => []
  | x :: xs' => let acc' := PrimFloat.mul acc x in acc' :: cumprod_from acc' xs'
  end.
Definition cumprod (xs : list float) : list float :=
  match xs with
  | [] => []
  | x :: xs' => x :: cumprod_from x xs'
  end.

Definition compute_equity (timestamps : list Z) (starting_equity : float)
    (returns : list float) : list float :=
  map (PrimFloat.mul starting_equity) (cumprod (map (PrimFloat.add 1) returns)).

(** [pd.Series(data, index=timestamps)]: the index becomes a
    [DatetimeIndex], which counts nanoseconds, and a timestamp outside the
    range of that clock raises OutOfBoundsDatetime, a ValueError.  The
    series is used for its values. *)
Definition Series {A} (data : list A) (index : list Z) : exn + list A :=
  if forallb calendar.in_bounds index then inr data else inl ValueError.

(** [s.expanding(min_periods=1).max()]: the largest value observed so far.
    The window functions of pandas turn the infinities into NaN before they
    aggregate, and NaN is no observation: only a finite entry is one.  The
    result is NaN until the first observation. *)
Definition expanding_step (acc x : float) : float :=
  if negb (np.isfinite x) then acc
  else if np.isnan acc then x
  else if PrimFloat.ltb acc x then x else acc.

Fixpoint expanding_max_from (acc : float) (s : list float) : list float :=
  match s with
  | [] => []
  | x :: s' => let acc' := expanding_step acc x in acc' :: expanding_max_from acc' s'
  end.
Definition expanding_max (s : list float) : list float := expanding_max_from nan s.

(** One entry of [np.where(s >= rolling_max, 0.0, -(s - rolling_max) / rolling_max)] *)
Definition dd_entry (s rolling_max : float) : float :=
  if PrimFloat.leb rolling_max s then 0%float
  else PrimFloat.div (PrimFloat.opp (PrimFloat.sub s rolling_max)) rolling_max.

Fixpoint zip_with_dd (s rolling_max : list float) : list float :=
  match s, rolling_max with
  | x :: s', m :: rolling_max' => dd_entry x m :: zip_with_dd s' rolling_max'
  | _, _ => []
  end.

Definition compute_rolling_dd (timestamps : list Z) (equity : list float)
    : exn + pyval :=
  if negb (bool_decide (length timestamps = length equity)) then inl AssertionError
  else if bool_decide (length timestamps = 0%nat) then inr (Tuple (ArrayM8 []) (ArrayF []))
  else
    try s := Series equity timestamps in
    let rolling_max := expanding_max s in
    let dd := zip_with_dd s rolling_max in
    inr (Tuple (ArrayM8 timestamps) (ArrayF dd)).

(** [start_3yr] of [compute_dates_3yr] and of [compute_rolling_dd_3yr]: the
    last date with its year lowered by three. *)
Definition start_3yr (timestamps : list Z) : exn + Z :=
  let last_date := List.last timestamps 0 in
  try d := calendar.to_datetime last_date in
  try d' := calendar.replace_year d (calendar.year d - 3) in
  inr (calendar.datetime64 d').

Definition compute_dates_3yr (timestamps : list Z) : exn + list Z :=
  if bool_decide (length timestamps = 0%nat) then inr []
  else
    try start_3yr := start_3yr timestamps in
    inr (np.compress (map (λ t, start_3yr <? t) timestamps) timestamps).

Definition compute_returns_3yr (timestamps : list Z) (returns : list float)
    : exn + list float :=
  if bool_decide (length timestamps = 0%nat) then inr []
  else if negb (bool_decide (length timestamps = length returns)) then inl AssertionError
  else
    try timestamps_3yr := compute_dates_3yr timestamps in
    match timestamps_3yr with
    | [] => inl IndexError
    | t0 :: _ => inr (np.compress (map (λ t, t0 <=? t) timestamps) returns)
    end.

Definition compute_rolling_dd_3yr (timestamps : list Z) (equity : list float)
    : exn + pyval :=
  if bool_decide (length timestamps = 0%nat) then inr (ArrayM8 [])
  else
    try start_3yr := start_3yr timestamps in
    let mask := map (λ t, start_3yr <=? t) timestamps in
    if negb (bool_decide (length mask = length equity)) then inl IndexError
    else
      let equity := np.compress mask equity in
      let timestamps := np.compress mask timestamps in
      compute_rolling_dd timestamps equity.

Definition compute_sortino (returns : list float) (amean periods_per_year : float)
    : float :=
  if bool_decide (length returns = 0%nat) || negb (np.isfinite amean)
     || PrimFloat.leb periods_per_year 0
  then nan
  else
    let returns := map (λ x, if negb (np.isfinite x) then 0%float else x) returns in
    let normalized_rets := map (λ x, if PrimFloat.ltb 0 x then 0%float else x) returns in
    let sortino_denom := np.std normalized_rets in
    if PrimFloat.eqb sortino_denom 0 then nan
    else PrimFloat.div amean (PrimFloat.mul sortino_denom (PrimFloat.sqrt periods_per_year)).

Definition compute_sharpe (returns : list float) (amean periods_per_year : float)
    : float :=
  if bool_decide (length returns = 0%nat) || negb (np.isfinite amean)
     || PrimFloat.leb periods_per_year 0
  then nan
  else
    let returns := map (λ x, if negb (np.isfinite x) then 0%float else x) returns in
    let s := np.std returns in
    if PrimFloat.eqb s 0 then nan
    else PrimFloat.div amean (PrimFloat.mul s (PrimFloat.sqrt periods_per_year)).

(** The drawdown functions take the two halves of the pair that
    [compute_rolling_dd] returns.  The [pd.NaT] that they return is [None];
    the dates they are given are day counts, none of them NaT. *)
Definition compute_maxdd_pct (rolling_dd : list float) : float :=
  if bool_decide (length rolling_dd = 0%nat) then nan else np.nanmax rolling_dd.

Definition compute_maxdd_date (rolling_dd_dates : list Z) (rolling_dd : list float)
    : exn + option Z :=
  if bool_decide (length rolling_dd_dates = 0%nat) then inr None
  else if negb (bool_decide (length rolling_dd_dates = length rolling_dd))
  then inl AssertionError
  else
    match rolling_dd_dates !! np.argmax rolling_dd with
    | Some t => inr (Some t)
    | None => inl IndexError
    end.

Definition compute_maxdd_start (rolling_dd_dates : list Z) (rolling_dd : list float)
    (mdd_date : option Z) : exn + option Z :=
  match mdd_date with
  | None => inr None
  | Some mdd_date =>
      if bool_decide (length rolling_dd_dates = 0%nat) then inr None
      else if negb (bool_decide (length rolling_dd_dates = length rolling_dd))
      then inl AssertionError
      else
        let mask := zip_with andb (map (λ d, PrimFloat.leb d 0) rolling_dd)
                                  (map (λ t, t <? mdd_date) rolling_dd_dates) in
        let maxdd_dates := np.compress mask rolling_dd_dates in
        inr (List.last (map Some maxdd_dates) None)
  end.

Definition compute_mar (returns : list float) (periods_per_year mdd_pct : float)
    : float :=
  if bool_decide (length returns = 0%nat) || np.isnan mdd_pct
     || PrimFloat.eqb mdd_pct 0
  then nan
  else PrimFloat.div (PrimFloat.mul (np.mean returns) periods_per_year) mdd_pct.

Definition compute_maxdd_pct_3yr (rolling_dd_3yr : list float) : float :=
  compute_maxdd_pct rolling_dd_3yr.

Definition compute_maxdd_date_3yr (rolling_dd_3yr_timestamps : list Z)
    (rolling_dd_3yr : list float) : exn + option Z :=
  compute_maxdd_date rolling_dd_3yr_timestamps rolling_dd_3yr.

Definition compute_maxdd_start_3yr (rolling_dd_3yr_timestamps : list Z)
    (rolling_dd_3yr : list float) (mdd_date_3yr : option Z) : exn + option Z :=
  compute_maxdd_start rolling_dd_3yr_timestamps rolling_dd_3yr mdd_date_3yr.

Definition compute_calmar (returns_3yr : list float)
    (periods_per_year mdd_pct_3yr : float) : float :=
  compute_mar returns_3yr periods_per_year mdd_pct_3yr.

(** [s.groupby(keys)] of pandas: one group per key, the keys in ascending
    order, the entries of a group in their order in [s]. *)
Fixpoint insert_key (k : Z) (keys : list Z) : list Z :=
  match keys with
  | [] => [k]
  | k' :: keys' =>
      if k <? k' then k :: keys
      else if k =? k' then keys
      else k' :: insert_key k keys'
  end.

Definition group_keys (keys : list Z) : list Z := fold_right insert_key [] keys.

Definition groupby {A} (keys : list Z) (s : list A) : list (Z * list A) :=
  map (λ k, (k, np.compress (map (Z.eqb k) keys) s)) (group_keys keys).

(** [x.year] of every timestamp of the [DatetimeIndex] of
    [pd.Series(returns, index=timestamps)]: a timestamp outside the range
    of pandas raises when the index is built.  The timestamps are day
    counts, none of them NaT. *)
Fixpoint years_of (timestamps : list Z) : exn + list Z :=
  match timestamps with
  | [] => inr []
  | t :: timestamps' =>
      try d := calendar.to_datetime t in
      try ys := years_of timestamps' in
      inr (calendar.year d :: ys)
  end.

(** The result is the pair (years, arrays of returns), each a list. *)
Definition compute_bucketed_returns (timestamps : list Z) (returns : list float)
    : exn + list Z * list (list float) :=
  if negb (bool_decide (length timestamps = length returns)) then inl AssertionError
  else if bool_decide (length timestamps = 0%nat) then inr ([], [])
  else
    try years := years_of timestamps in
    let groups := groupby years returns in
    inr (map fst groups, map snd groups).

(** ** The evaluator

    [metric_values] is a reference to a dictionary in the store: the caller
    of [__init__] holds another dictionary, and [metrics] hands the
    evaluator's own one out.  [_metrics] keeps the order of registration,
    which [compute] follows.  A recipe is the function of its keyword
    arguments, here a function that returns; the module [raising] below
    takes the functions that raise.  [calls] records, latest first, the
    names whose function was called: the counter a mocked recipe keeps. *)

Section evaluator.
Context {V : Type}.

Record World := {
  dicts : gmap loc (gmap string V);
  calls : list string
}.

Definition recipe : Type := (gmap string V → V) * list string.

Record Evaluator := {
  metric_values : loc;
  _metrics : list (string * recipe)
}.

(** [d[k]] and [d[k] = v] on a dictionary that remembers insertion order *)
Fixpoint dict_get {A} (d : list (string * A)) (k : string) : option A :=
  match d with
  | [] => None
  | (k', v) :: d' => if decide (k' = k) then Some v else dict_get d' k
  end.

Fixpoint dict_set {A} (d : list (string * A)) (k : string) (v : A)
    : list (string * A) :=
  match d with
  | [] => [(k, v)]
  | (k', v') :: d' => if decide (k' = k) then (k, v) :: d'
                      else (k', v') :: dict_set d' k v
  end.

(** the dictionary behind [self.metric_values] *)
Definition values_of (self : Evaluator) (w : World) : gmap string V :=
  default ∅ (dicts w !! metric_values self).

Definition store_value (self : Evaluator) (k : string) (v : V) : Py World () :=
  py_modify (λ w, {| dicts := <[metric_values self := <[k := v]> (values_of self w)]> (dicts w);
                     calls := calls w |}).

(** the call of [func] on its keyword arguments, counted *)
Definition call (name : string) (func : gmap string V → V)
    (kwargs : gmap string V) : Py World V :=
  λ w, (inr (func kwargs), {| dicts := dicts w; calls := name :: calls w |}).

(** [{k: d[k] for k in ks}] *)
Fixpoint dict_comprehension (d : gmap string V) (ks : list string)
    : exn + gmap string V :=
  match ks with
  | [] => inr ∅
  | k :: ks' =>
      match d !! k with
      | None => inl (KeyError k)
      | Some v => try kwargs := dict_comprehension d ks' in inr (<[k := v]> kwargs)
      end
  end.

Definition py_lift {S A} (r : exn + A) : Py S A :=
  match r with inl e => py_raise e | inr a => py_ret a end.

Definition __init__ (initial_metrics : loc) : Py World Evaluator :=
  (let* w := py_get in
   match dicts w !! initial_metrics with
   | None => py_raise AssertionError
   | Some d =>
       let l := fresh (dom (dicts w)) in
       py_modify (λ w, {| dicts := <[l := d]> (dicts w); calls := calls w |}) ;;;
       py_ret {| metric_values := l; _metrics := [] |}
   end)%py.

Definition add_metric (self : Evaluator) (name : string)
    (func : gmap string V → V) (dependencies : list string) : Evaluator :=
  {| metric_values := metric_values self;
     _metrics := dict_set (_metrics self) name (func, dependencies) |}.

(** [if dependency not in self.metric_values: self.compute_metric(dependency)],
    with the recursive call as [rec] *)
Definition ensure (rec : string → Py World ()) (self : Evaluator)
    (dependency : string) : Py World () :=
  (let* w := py_get in
   if bool_decide (dependency ∈ dom (values_of self w)) then py_ret ()
   else rec dependency)%py.

(** [fuel] is the depth of recursion the interpreter still allows. *)
Fixpoint compute_metric (fuel : nat) (self : Evaluator) (metric_name : string)
    : Py World () :=
  match fuel with
  | O => py_raise RecursionError
  | S fuel' =>
      match dict_get (_metrics self) metric_name with
      | None => py_raise (KeyError metric_name)
      | Some (func, dependencies) =>
          (py_for dependencies (ensure (compute_metric fuel' self) self) ;;;
           let* w := py_get in
           let* dependency_values :=
             py_lift (dict_comprehension (values_of self w) dependencies) in
           let* values := call metric_name func dependency_values in
           store_value self metric_name values)%py
      end
  end.

Definition compute (fuel : nat) (self : Evaluator)
    (metric_names : option (list string)) : Py World () :=
  let metric_names := default (map fst (_metrics self)) metric_names in
  py_for metric_names (compute_metric fuel self).

Definition metric (self : Evaluator) (metric_name : string) : Py World V :=
  (let* w := py_get in
   match values_of self w !! metric_name with
   | None => py_raise (KeyError metric_name)
   | Some v => py_ret v
   end)%py.

Definition metrics (self : Evaluator) : loc := metric_values self.

(** What a client does with an evaluator, one operation at a time; an
    exception is caught and the next operation runs on the state left. *)
Inductive op :=
| AddMetric (name : string) (func : gmap string V → V) (dependencies : list string)
| Compute (metric_names : option (list string))
| ComputeMetric (metric_name : string)
| Metric (metric_name : string).

Definition run_op (fuel : nat) (o : op) (st : Evaluator * World)
    : Evaluator * World :=
  let '(self, w) := st in
  match o with
  | AddMetric name func dependencies => (add_metric self name func dependencies, w)
  | Compute metric_names => (self, snd (compute fuel self metric_names w))
  | ComputeMetric metric_name => (self, snd (compute_metric fuel self metric_name w))
  | Metric metric_name => (self, snd (metric self metric_name w))
  end.

Definition run_ops (fuel : nat) (ops : list op) (st : Evaluator * World)
    : Evaluator * World :=
  fold_left (λ st o, run_op fuel o st) ops st.

End evaluator.

Arguments World : clear implicits.
Arguments Evaluator : clear implicits.
Arguments recipe : clear implicits.
Arguments op : clear implicits.

(** ** The entry of [compute_return_metrics]

    The arguments are Python objects: an array carries its dtype, anything
    else is not an array. *)

Inductive dtype := float64 | datetime64 | other_dtype.

Inductive pyobj :=
| Ndarray (dt : dtype) (a : ndarray)
| NotNdarray.

(** Modelled from the spec: [pyqstrat.pq_utils.monotonically_increasing] is
    imported by the notebook and is not under src/; the spec has it as the
    check that the timestamps are strictly increasing, without duplicates. *)
Fixpoint monotonically_increasing (timestamps : list Z) : bool :=
  match timestamps with
  | t :: (t' :: _) as rest => (t <? t') && monotonically_increasing rest
  | _ => true
  end.

(** The three assertions and the call of the sanitizer; the function then
    seeds an [Evaluator] with the two arrays returned here. *)
Definition compute_return_metrics_entry (timestamps rets : pyobj)
    (starting_equity : float)
    (leading_non_finite_to_zeros subsequent_non_finite_to_zeros : bool)
    : Py Store (ndarray * ndarray) :=
  (py_assert (PrimFloat.ltb 0 starting_equity) ;;;
   let* rets :=
     match rets with
     | Ndarray float64 a => py_ret a
     | _ => py_raise AssertionError
     end in
   let* σ := py_get in
   let* timestamps :=
     match timestamps with
     | Ndarray datetime64 a =>
         py_assert (monotonically_increasing (view (M8 σ) a)) ;;; py_ret a
     | _ => py_raise AssertionError
     end in
   handle_non_finite_returns timestamps rets
     leading_non_finite_to_zeros subsequent_non_finite_to_zeros)%py.

(** ** The recipes of [compute_return_metrics]

    The names and dependencies that [compute_return_metrics] registers, in
    its order; the functions are a family [funcs] indexed by the name. *)

(** The function registered inline under "up_periods":
    [len(returns[returns > 0])]. *)
Definition up_periods (returns : list float) : nat :=
  length (np.compress (map (λ x, PrimFloat.ltb 0 x) returns) returns).

Definition return_metrics_recipes : list (string * list string) :=
  [ ("periods_per_year", ["timestamps"]);
    ("amean", ["returns"; "periods_per_year"]);
    ("std", ["returns"]);
    ("up_periods", ["returns"]);
    ("down_periods", ["returns"]);
    ("up_pct", ["up_periods"; "down_periods"]);
    ("gmean", ["timestamps"; "returns"; "periods_per_year"]);
    ("sharpe", ["returns"; "periods_per_year"; "amean"]);
    ("sortino", ["returns"; "periods_per_year"; "amean"]);
    ("equity", ["timestamps"; "starting_equity"; "returns"]);
    ("k_ratio", ["equity"; "periods_per_year"]);
    ("k_ratio_weighted", ["equity"; "periods_per_year"]);
    ("rolling_dd", ["timestamps"; "equity"]);
    ("mdd_pct", ["rolling_dd"]);
    ("mdd_date", ["rolling_dd"]);
    ("mdd_start", ["rolling_dd"; "mdd_date"]);
    ("mar", ["returns"; "periods_per_year"; "mdd_pct"]);
    ("timestamps_3yr", ["timestamps"]);
    ("returns_3yr", ["timestamps"; "returns"]);
    ("rolling_dd_3yr", ["timestamps"; "equity"]);
    ("mdd_pct_3yr", ["rolling_dd_3yr"]);
    ("mdd_date_3yr", ["rolling_dd_3yr"]);
    ("mdd_start_3yr", ["rolling_dd_3yr"; "mdd_date_3yr"]);
    ("calmar", ["returns_3yr"; "periods_per_year"; "mdd_pct_3yr"]);
    ("annual_returns", ["timestamps"; "returns"; "periods_per_year"]);
    ("bucketed_returns", ["timestamps"; "returns"]) ].

(** The keys of the seeding dictionary. *)
Definition return_metrics_seeds : list string :=
  ["timestamps"; "returns"; "starting_equity"].

(** The keys that [display_return_metrics] and [plot_return_metrics] read
    from the dictionary of metrics. *)
Definition display_keys : list string :=
  ["gmean"; "amean"; "std"; "sharpe"; "sortino"; "k_ratio"; "calmar"; "mar";
   "mdd_pct"; "mdd_start"; "mdd_date"; "mdd_pct_3yr"; "up_periods";
   "down_periods"; "up_pct"; "mdd_start_3yr"; "mdd_date_3yr"; "annual_returns"].

Definition plot_keys : list string :=
  ["timestamps"; "equity"; "mdd_start"; "mdd_date"; "mdd_start_3yr";
   "mdd_date_3yr"; "starting_equity"; "rolling_dd"; "bucketed_returns"].

(** ** The evaluator, with functions that raise

    The function of a recipe is Python code: it returns a value or it
    raises, and what it raises leaves [compute_metric] and [compute] as it
    is.  The module [raising] is the class [Evaluator] once more, over such
    functions: the definitions above are its case of functions that return
    (see [raising_of]).  A function called with keyword arguments that it
    does not take raises TypeError.  The call of a function is counted
    whether it returns or raises. *)

Module raising.

Section evaluator.
Context {V : Type}.

Definition recipe : Type := (gmap string V → exn + V) * list string.

Record Evaluator := {
  metric_values : loc;
  _metrics : list (string * recipe)
}.

Definition values_of (self : Evaluator) (w : World V) : gmap string V :=
  default ∅ (dicts w !! metric_values self).

Definition store_value (self : Evaluator) (k : string) (v : V) : Py (World V) () :=
  py_modify (λ w, {| dicts := <[metric_values self := <[k := v]> (values_of self w)]> (dicts w);
                     calls := calls w |}).

(** the call of [func] on its keyword arguments, counted; it raises what
    [func] raises *)
Definition call (name : string) (func : gmap string V → exn + V)
    (kwargs : gmap string V) : Py (World V) V :=
  λ w, (func kwargs, {| dicts := dicts w; calls := name :: calls w |}).

Definition __init__ (initial_metrics : loc) : Py (World V) Evaluator :=
  (let* w := py_get in
   match dicts w !! initial_metrics with
   | None => py_raise AssertionError
   | Some d =>
       let l := fresh (dom (dicts w)) in
       py_modify (λ w, {| dicts := <[l := d]> (dicts w); calls := calls w |}) ;;;
       py_ret {| metric_values := l; _metrics := [] |}
   end)%py.

Definition add_metric (self : Evaluator) (name : string)
    (func : gmap string V → exn + V) (dependencies : list string) : Evaluator :=
  {| metric_values := metric_values self;
     _metrics := dict_set (_metrics self) name (func, dependencies) |}.

Definition ensure (rec : string → Py (World V) ()) (self : Evaluator)
    (dependency : string) : Py (World V) () :=
  (let* w := py_get in
   if bool_decide (dependency ∈ dom (values_of self w)) then py_ret ()
   else rec dependency)%py.

Fixpoint compute_metric (fuel : nat) (self : Evaluator) (metric_name : string)
    : Py (World V) () :=
  match fuel with
  | O => py_raise RecursionError
  | S fuel' =>
      match dict_get (_metrics self) metric_name with
      | None => py_raise (KeyError metric_name)
      | Some (func, dependencies) =>
          (py_for dependencies (ensure (compute_metric fuel' self) self) ;;;
           let* w := py_get in
           let* dependency_values :=
             py_lift (dict_comprehension (values_of self w) dependencies) in
           let* values := call metric_name func dependency_values in
           store_value self metric_name values)%py
      end
  end.

Definition compute (fuel : nat) (self : Evaluator)
    (metric_names : option (list string)) : Py (World V) () :=
  let metric_names := default (map fst (_metrics self)) metric_names in
  py_for metric_names (compute_metric fuel self).

Definition metric (self : Evaluator) (metric_name : string) : Py (World V) V :=
  (let* w := py_get in
   match values_of self w !! metric_name with
   | None => py_raise (KeyError metric_name)
   | Some v => py_ret v
   end)%py.

(** The recipes of [compute_return_metrics], registered and computed. *)
Definition add_metrics (funcs : string → gmap string V → exn + V)
    (recipes : list (string * list string)) (self : Evaluator) : Evaluator :=
  fold_left (λ ev r, add_metric ev r.1 (funcs r.1) r.2) recipes self.

Definition evaluate_return_metrics (fuel : nat)
    (funcs : string → gmap string V → exn + V) (seeds : loc)
    : Py (World V) Evaluator :=
  (let* ev := __init__ seeds in
   let ev := add_metrics funcs return_metrics_recipes ev in
   compute fuel ev None ;;;
   py_ret ev)%py.

End evaluator.

Arguments Evaluator : clear implicits.
Arguments recipe : clear implicits.

Section vocabulary.
Context {V : Type}.

(** [d] is not cached and its recipes lead, through names that are not
    cached, to a name that is neither cached nor registered. *)
Inductive unresolved (self : Evaluator V) (w : World V) : string → Prop :=
| unresolved_missing d :
    d ∉ dom (values_of self w) →
    dict_get (_metrics self) d = None →
    unresolved self w d
| unresolved_step d func dependencies d' :
    d ∉ dom (values_of self w) →
    dict_get (_metrics self) d = Some (func, dependencies) →
    d' ∈ dependencies →
    unresolved self w d' →
    unresolved self w d.

(** From [w] to [w'] the evaluator wrote into its own dictionary only, and
    removed no key of it. *)
Definition grows (self : Evaluator V) (w w' : World V) : Prop :=
  (∀ l, l ≠ metric_values self → dicts w' !! l = dicts w !! l)
  ∧ dom (values_of self w) ⊆ dom (values_of self w').

(** No name that is unresolved in [w0] is cached in [w]. *)
Definition blocked (self : Evaluator V) (w0 w : World V) : Prop :=
  ∀ x, unresolved self w0 x → x ∉ dom (values_of self w).

(** No cycle among the names that are not cached: [rank] falls along
    every dependency edge into such a name. *)
Definition acyclic (self : Evaluator V) (w : World V) (rank : string → nat) : Prop :=
  ∀ n func dependencies d,
    dict_get (_metrics self) n = Some (func, dependencies) →
    d ∈ dependencies →
    d ∉ dom (values_of self w) →
    (rank d < rank n)%nat.

(** [e] is an exception of the recipes, not of the evaluator: the function
    of a registered recipe raises it on some keyword arguments. *)
Definition raised_by_recipe (self : Evaluator V) (e : exn) : Prop :=
  ∃ n func dependencies kwargs,
    dict_get (_metrics self) n = Some (func, dependencies) ∧ func kwargs = inl e.

(** The name and the dependencies of a registered recipe. *)
Definition recipe_signature (r : string * recipe V) : string * list string :=
  (r.1, r.2.2).

(** Every name of [P] is registered, is not cached, and depends on a name
    of [P]: from each of them the dependencies lead for ever through names
    that are not cached, round a cycle. *)
Definition stuck (self : Evaluator V) (w : World V) (P : string → Prop) : Prop :=
  ∀ d, P d →
    (d ∉ dom (values_of self w))
    ∧ ∃ func ds d', dict_get (_metrics self) d = Some (func, ds) ∧ d' ∈ ds ∧ P d'.

(** Every dependency of a registered name is registered. *)
Definition registry_closed (self : Evaluator V) : Prop :=
  ∀ n func ds d, dict_get (_metrics self) n = Some (func, ds) → d ∈ ds →
    is_Some (dict_get (_metrics self) d).

End vocabulary.

End raising.

(** The evaluator of [raising] for an evaluator of functions that return. *)
Definition raising_of {V} (self : Evaluator V) : raising.Evaluator V :=
  {| raising.metric_values := metric_values self;
     raising._metrics :=
       map (λ r : string * recipe V, (r.1, ((λ kwargs, inr (r.2.1 kwargs)), r.2.2)))
           (_metrics self) |}.

(** ** Vocabulary of the statements *)

(** Every buffer of [σ] is a buffer of [σ'], with its contents. *)
Definition store_extends (σ σ' : Store) : Prop :=
  (∀ k buf, M8 σ !! k = Some buf → M8 σ' !! k = Some buf)
  ∧ (∀ k buf, f64 σ !! k = Some buf → f64 σ' !! k = Some buf).

(** An array is well formed when its window lies inside its buffer. *)
Definition wf_array {A} (bufs : gmap loc (list A)) (a : ndarray) : Prop :=
  ∃ buf, bufs !! data a = Some buf ∧ (offset a + size a ≤ length buf)%nat.

(** The sign of a binary64 number that is not NaN. *)
Definition sf_sign_is (s : bool) (x : spec_float) : Prop :=
  match x with
  | S754_zero s' | S754_infinity s' | S754_finite s' _ _ => s' = s
  | S754_nan => False
  end.

(** A binary64 number that is zero or finite and not zero. *)
Definition sf_finite (x : spec_float) : Prop :=
  match x with
  | S754_zero _ | S754_finite _ _ _ => True
  | _ => False
  end.

(** An equity that is finite and above zero. *)
Definition positive_finite (x : float) : Prop :=
  np.isfinite x = true ∧ PrimFloat.ltb 0 x = true.

(** The series of which the Sortino ratio takes the deviation: non-finite
    entries replaced by 0, then positive entries zeroed. *)
Definition downside (returns : list float) : list float :=
  map (λ x, if PrimFloat.ltb 0 x then 0%float else x)
      (map (λ x, if np.isfinite x then x else 0%float) returns).

(** The contract violations that the entry of [compute_return_metrics]
    asserts against. *)
Definition entry_violation (σ : Store) (timestamps rets : pyobj)
    (starting_equity : float) : Prop :=
  PrimFloat.ltb 0 starting_equity = false
  ∨ (∀ a, rets ≠ Ndarray float64 a)
  ∨ (∀ a, timestamps ≠ Ndarray datetime64 a)
  ∨ (∃ a, timestamps = Ndarray datetime64 a
          ∧ monotonically_increasing (view (M8 σ) a) = false).

(** The contents that the sanitizer hands back, from the contents it is
    given: the leading pass on the entries before the first one that is not
    NaN, then the pass on every entry. *)
Definition sanitized_contents (timestamps : list Z) (rets : list float)
    (leading_non_finite_to_zeros subsequent_non_finite_to_zeros : bool)
    : list Z * list float :=
  let n := Z.to_nat (first_non_nan rets) in
  let '(timestamps, rets) :=
    if leading_non_finite_to_zeros then (timestamps, replicate n 0%float ++ drop n rets)
    else (drop n timestamps, drop n rets) in
  if subsequent_non_finite_to_zeros then (timestamps, map np.nan_to_num rets)
  else (np.compress (map np.isfinite rets) timestamps,
        np.compress (map np.isfinite rets) rets).

(** The day count of 1 January of the year [y]. *)
Definition new_year (y : Z) : Z :=
  calendar.days_from_civil {| calendar.year := y; calendar.month := 1; calendar.day := 1 |}.

(** The recipes come in an order in which every name is new and every
    dependency is known before it is used: it is in [known], or it is the
    name of an earlier recipe. *)
Fixpoint in_order (known : list string) (recipes : list (string * list string)) : bool :=
  match recipes with
  | [] => true
  | (name, dependencies) :: recipes' =>
      negb (bool_decide (name ∈ known))
      && forallb (λ d, bool_decide (d ∈ known)) dependencies
      && in_order (name :: known) recipes'
  end.

Section evaluator_vocabulary.
Context {V : Type}.

(** From [w] to [w'] the evaluator wrote into its own dictionary only, and
    removed no key of it. *)
Definition grows (self : Evaluator V) (w w' : World V) : Prop :=
  (∀ l, l ≠ metric_values self → dicts w' !! l = dicts w !! l)
  ∧ dom (values_of self w) ⊆ dom (values_of self w').

(** What a call leaves of the cache it found, and whose functions it
    called: the values cached under names other than [name] stay, and a
    function called is that of [name] or of a name that was not cached. *)
Definition cache_kept (self : Evaluator V) (name : option string) (w w' : World V) : Prop :=
  (∀ k v, values_of self w !! k = Some v → Some k ≠ name →
     values_of self w' !! k = Some v)
  ∧ ∃ new, calls w' = new ++ calls w
      ∧ ∀ n, n ∈ new → Some n = name ∨ n ∉ dom (values_of self w).

(** The name and the dependencies of a registered recipe. *)
Definition recipe_signature (r : string * recipe V) : string * list string :=
  (r.1, r.2.2).

End evaluator_vocabulary.

(** * Properties *)

(** ** Binary64 facts, through the specification of the primitive floats *)

Lemma SFcompare_refl_finite s m e :
  SFcompare (S754_finite s m e) (S754_finite s m e) = Some Eq.
Proof.
  simpl. destruct s; rewrite Z.compare_refl, Pos.compare_cont_refl; reflexivity.
Qed.

Lemma is_nan_spec x :
  PrimFloat.is_nan x = match Prim2SF x with S754_nan => true | _ => false end.
Proof.
  unfold PrimFloat.is_nan. rewrite FloatAxioms.eqb_spec. unfold SFeqb.
  destruct (Prim2SF x) as [s|s| |s m e].
  - reflexivity.
  - destruct s; reflexivity.
  - reflexivity.
  - rewrite SFcompare_refl_finite. reflexivity.
Qed.

Lemma is_infinity_spec x :
  PrimFloat.is_infinity x = match Prim2SF x with S754_infinity _ => true | _ => false end.
Proof.
  unfold PrimFloat.is_infinity. rewrite FloatAxioms.eqb_spec, FloatAxioms.abs_spec.
  change (Prim2SF infinity) with (S754_infinity false).
  destruct (Prim2SF x) as [s|s| |s m e]; reflexivity.
Qed.

Lemma is_finite_spec x :
  PrimFloat.is_finite x =
  match Prim2SF x with S754_zero _ | S754_finite _ _ _ => true | _ => false end.
Proof.
  unfold PrimFloat.is_finite. rewrite is_nan_spec, is_infinity_spec.
  destruct (Prim2SF x); reflexivity.
Qed.

Lemma nan_to_num_nan x : np.isnan x = true → np.nan_to_num x = 0%float.
Proof. unfold np.nan_to_num. intros ->. reflexivity. Qed.

Lemma nan_to_num_finite x : np.isfinite (np.nan_to_num x) = true.
Proof.
  unfold np.nan_to_num, np.isnan.
  destruct (PrimFloat.is_nan x) eqn:Hnan; [reflexivity|].
  destruct (PrimFloat.eqb x infinity) eqn:Hp; [reflexivity|].
  destruct (PrimFloat.eqb x neg_infinity) eqn:Hn; [reflexivity|].
  unfold np.isfinite. rewrite is_finite_spec.
  rewrite is_nan_spec in Hnan. rewrite FloatAxioms.eqb_spec in Hp, Hn.
  change (Prim2SF infinity) with (S754_infinity false) in Hp.
  change (Prim2SF neg_infinity) with (S754_infinity true) in Hn.
  destruct (Prim2SF x) as [s|s| |s m e]; try reflexivity; try discriminate.
  destruct s; discriminate.
Qed.

(** ** Buffers and views *)

Lemma fresh_unused {A} (bufs : gmap loc A) : bufs !! fresh (dom bufs) = None.
Proof. apply not_elem_of_dom, is_fresh. Qed.

Lemma lookup_alloc {A} (bufs : gmap loc A) (v : A) k x :
  bufs !! k = Some x → <[fresh (dom bufs) := v]> bufs !! k = Some x.
Proof.
  intros Hk. rewrite lookup_insert_ne; [done|].
  intros <-. rewrite fresh_unused in Hk. discriminate.
Qed.

Lemma view_new {A} (bufs : gmap loc (list A)) l (vals : list A) :
  view (<[l := vals]> bufs) {| data := l; offset := 0; size := length vals |} = vals.
Proof.
  unfold view. simpl. rewrite lookup_insert_eq. simpl.
  rewrite drop_0. apply firstn_all.
Qed.

Lemma wf_view_length {A} (bufs : gmap loc (list A)) a :
  wf_array bufs a → length (view bufs a) = size a.
Proof.
  intros (buf & Hbuf & Hle). unfold view. rewrite Hbuf. simpl.
  rewrite length_take, length_drop. lia.
Qed.

Lemma view_length_le {A} (bufs : gmap loc (list A)) a :
  (length (view bufs a) ≤ size a)%nat.
Proof. unfold view. rewrite length_take. lia. Qed.

(** ** The first entry that is not NaN *)

Lemma nonzero_from_head i mask j rest :
  np.nonzero_from i mask = j :: rest →
  (i ≤ j)%nat ∧ (j - i < length mask)%nat
  ∧ Forall (λ b, b = false) (take (j - i) mask).
Proof.
  revert i. induction mask as [|b mask IH]; intros i; simpl; [discriminate|].
  destruct b.
  - intros [= <- _]. rewrite Nat.sub_diag. simpl. split; [lia|split; [lia|constructor]].
  - intros H. destruct (IH _ H) as (Hle & Hlt & Hall).
    replace (j - i)%nat with (S (j - S i)) by lia. simpl.
    split; [lia|split; [lia|]]. constructor; [reflexivity|assumption].
Qed.

Lemma nonzero_from_none i mask :
  Forall (λ b, b = false) mask → np.nonzero_from i mask = [].
Proof.
  intros H. revert i. induction H as [|b mask -> _ IH]; intros i; simpl; auto.
Qed.

Lemma first_non_nan_all_nan rets :
  Forall (λ x, np.isnan x = true) rets → first_non_nan rets = -1.
Proof.
  intros H. unfold first_non_nan, np.nonzero.
  rewrite nonzero_from_none; [reflexivity|].
  apply Forall_map. eapply Forall_impl; [exact H|].
  simpl. intros x ->. reflexivity.
Qed.

Lemma first_non_nan_pos rets :
  0 < first_non_nan rets →
  first_non_nan rets < Z.of_nat (length rets)
  ∧ Forall (λ x, np.isnan x = true) (take (Z.to_nat (first_non_nan rets)) rets).
Proof.
  unfold first_non_nan, np.nonzero.
  destruct (np.nonzero_from 0 _) as [|j rest] eqn:E; [lia|].
  intros _. destruct (nonzero_from_head _ _ _ _ E) as (_ & Hlt & Hall).
  rewrite length_map, Nat.sub_0_r in Hlt. rewrite Nat.sub_0_r in Hall.
  rewrite Nat2Z.id. split; [lia|].
  rewrite List.firstn_map in Hall. rewrite Forall_map in Hall.
  eapply Forall_impl; [exact Hall|]. simpl. intros x Hx.
  destruct (np.isnan x); [reflexivity|discriminate].
Qed.

(** ** The sanitizer, step by step *)

Lemma handle_non_finite_returns_steps timestamps rets l s :
  handle_non_finite_returns timestamps rets l s =
  (let* '(timestamps, rets) := leading_step timestamps rets l in
   subsequent_step timestamps rets s)%py.
Proof. reflexivity. Qed.

Lemma compress_isfinite (r : list float) :
  Forall (λ x, np.isfinite x = true) (np.compress (map np.isfinite r) r).
Proof.
  induction r as [|x r IH]; simpl; [constructor|].
  destruct (np.isfinite x) eqn:E; [constructor|]; assumption.
Qed.

Lemma compress_none {A} (mask : list bool) (a : list A) :
  Forall (λ b, b = false) mask → np.compress mask a = [].
Proof.
  intros H. revert a. induction H as [|b mask -> _ IH]; intros [|x a]; simpl; auto.
Qed.

(** What [subsequent_step] returns, as contents. *)
Lemma subsequent_step_true t r σ :
  sanitized (subsequent_step t r true σ)
  = inr (view (M8 σ) t, map np.nan_to_num (view (f64 σ) r)).
Proof.
  unfold subsequent_step, sanitized, py_bind, py_get, py_ret, new_f64. simpl.
  rewrite view_new. reflexivity.
Qed.

Lemma subsequent_step_false t r σ :
  length (view (f64 σ) r) = size t → length (view (f64 σ) r) = size r →
  sanitized (subsequent_step t r false σ)
  = inr (np.compress (map np.isfinite (view (f64 σ) r)) (view (M8 σ) t),
         np.compress (map np.isfinite (view (f64 σ) r)) (view (f64 σ) r)).
Proof.
  intros Ht Hr.
  unfold subsequent_step, sanitized, py_bind, py_get, py_ret, mask_M8, mask_f64, new_M8, new_f64.
  rewrite !length_map. simpl.
  destruct (decide _) as [_|Hn]; [|contradiction]. simpl.
  destruct (decide _) as [_|Hn]; [|contradiction]. simpl.
  rewrite !view_new. reflexivity.
Qed.

Lemma subsequent_step_finite t r s σ t' r' :
  sanitized (subsequent_step t r s σ) = inr (t', r') →
  Forall (λ x, np.isfinite x = true) r'.
Proof.
  destruct s.
  - rewrite subsequent_step_true. intros [= _ <-].
    apply Forall_map, Forall_forall. intros x _. apply nan_to_num_finite.
  - unfold subsequent_step, sanitized, py_bind, py_get, py_ret, mask_M8, mask_f64, new_M8, new_f64, py_raise.
    simpl. destruct (decide _); simpl; [|discriminate].
    destruct (decide _); simpl; [|discriminate].
    rewrite !view_new. intros [= _ <-]. apply compress_isfinite.
Qed.

Lemma nan_to_num_all_nan (r : list float) :
  Forall (λ x, np.isnan x = true) r →
  map np.nan_to_num r = replicate (length r) 0%float.
Proof.
  induction 1 as [|x r Hx _ IH]; simpl; [reflexivity|].
  rewrite (nan_to_num_nan _ Hx), IH. reflexivity.
Qed.

(** What [leading_step] does, case by case. *)
Lemma leading_step_skip t r l σ :
  first_non_nan (view (f64 σ) r) <= 0 →
  leading_step t r l σ = (inr (t, r), σ).
Proof.
  intros H. unfold leading_step, py_bind, py_get. simpl.
  destruct (0 <? _) eqn:E; [apply Z.ltb_lt in E; lia|]. reflexivity.
Qed.

Lemma leading_step_drop t r σ :
  0 < first_non_nan (view (f64 σ) r) →
  leading_step t r false σ =
  (inr (slice_from t (Z.to_nat (first_non_nan (view (f64 σ) r))),
        slice_from r (Z.to_nat (first_non_nan (view (f64 σ) r)))), σ).
Proof.
  intros H. unfold leading_step, py_bind, py_get. simpl.
  destruct (first_non_nan_pos _ H) as [Hlt _].
  pose proof (view_length_le (f64 σ) r).
  destruct (0 <? _) eqn:E; [|apply Z.ltb_ge in E; lia].
  destruct (_ <? Z.of_nat _) eqn:E'; [|apply Z.ltb_ge in E'; lia].
  reflexivity.
Qed.

Lemma leading_step_zero t r σ :
  0 < first_non_nan (view (f64 σ) r) →
  leading_step t r true σ =
  (inr (t, r),
   {| f64 := <[data r := blit (default [] (f64 σ !! data r)) (offset r)
                 (replicate (Z.to_nat (first_non_nan (view (f64 σ) r))) 0%float)]> (f64 σ);
      M8 := M8 σ |}).
Proof.
  intros H. unfold leading_step, py_bind, py_get. simpl.
  destruct (first_non_nan_pos _ H) as [Hlt Hnan].
  pose proof (view_length_le (f64 σ) r).
  destruct (0 <? _) eqn:E; [|apply Z.ltb_ge in E; lia].
  destruct (_ <? Z.of_nat _) eqn:E'; [|apply Z.ltb_ge in E'; lia].
  simpl. unfold setslice_f64, py_modify, py_ret. simpl.
  do 4 f_equal.
  rewrite (nan_to_num_all_nan _ Hnan), length_take. f_equal. lia.
Qed.

Lemma leading_step_cases t r l σ :
  (first_non_nan (view (f64 σ) r) <= 0 ∧ leading_step t r l σ = (inr (t, r), σ))
  ∨ (0 < first_non_nan (view (f64 σ) r) ∧ l = false
     ∧ leading_step t r l σ =
       (inr (slice_from t (Z.to_nat (first_non_nan (view (f64 σ) r))),
             slice_from r (Z.to_nat (first_non_nan (view (f64 σ) r)))), σ))
  ∨ (0 < first_non_nan (view (f64 σ) r) ∧ l = true
     ∧ leading_step t r l σ =
       (inr (t, r),
        {| f64 := <[data r := blit (default [] (f64 σ !! data r)) (offset r)
                      (replicate (Z.to_nat (first_non_nan (view (f64 σ) r))) 0%float)]> (f64 σ);
           M8 := M8 σ |})).
Proof.
  destruct (Z_lt_le_dec 0 (first_non_nan (view (f64 σ) r))) as [Hpos|Hle].
  - destruct l.
    + right; right. auto using leading_step_zero.
    + right; left. auto using leading_step_drop.
  - left. split; [assumption|apply leading_step_skip; assumption].
Qed.

Lemma subsequent_step_extends t r s σ :
  store_extends σ (snd (subsequent_step t r s σ)).
Proof.
  unfold subsequent_step, py_bind, py_get, py_ret, mask_M8, mask_f64, new_M8, new_f64, py_raise.
  destruct s; simpl.
  - split; simpl; [auto|]. intros k buf. apply lookup_alloc.
  - destruct (decide _); simpl; [|split; auto].
    destruct (decide _); simpl.
    + split; simpl; intros k buf; apply lookup_alloc.
    + split; simpl; [|auto]. intros k buf; apply lookup_alloc.
Qed.

Lemma view_extends {A} (bufs bufs' : gmap loc (list A)) a :
  (∀ k buf, bufs !! k = Some buf → bufs' !! k = Some buf) →
  wf_array bufs a → view bufs' a = view bufs a.
Proof.
  intros Hext (buf & Hbuf & _). unfold view. rewrite (Hext _ _ Hbuf), Hbuf. reflexivity.
Qed.

Lemma view_insert_same {A} (bufs : gmap loc (list A)) a (buf : list A) :
  view (<[data a := buf]> bufs) a = take (size a) (drop (offset a) buf).
Proof. unfold view. rewrite lookup_insert_eq. reflexivity. Qed.

Lemma view_blit {A} (buf : list A) off n sz (vals : list A) :
  length vals = n → (n ≤ sz)%nat → (off + sz ≤ length buf)%nat →
  take sz (drop off (blit buf off vals)) = vals ++ drop n (take sz (drop off buf)).
Proof.
  intros Hn Hsz Hlen. unfold blit.
  rewrite drop_app_length' by (rewrite length_take; lia).
  rewrite take_app, Hn.
  rewrite firstn_all2 by lia. f_equal.
  rewrite skipn_firstn_comm, drop_drop. reflexivity.
Qed.

Lemma sanitized_steps t r l s σ :
  ∃ t1 r1 σ1, leading_step t r l σ = (inr (t1, r1), σ1)
    ∧ handle_non_finite_returns t r l s σ = subsequent_step t1 r1 s σ1.
Proof.
  rewrite handle_non_finite_returns_steps. unfold py_bind at 1.
  destruct (leading_step_cases t r l σ) as [[_ E]|[(_ & _ & E)|(_ & _ & E)]];
    rewrite E; eauto.
Qed.

(** After the leading step the returns fill their window, and the two
    arrays have one size if they had. *)
Lemma leading_step_wf t r l σ t1 r1 σ1 :
  wf_array (f64 σ) r → size t = size r →
  leading_step t r l σ = (inr (t1, r1), σ1) →
  length (view (f64 σ1) r1) = size r1 ∧ size t1 = size r1.
Proof.
  intros Hwf Hsz E.
  pose proof (wf_view_length _ _ Hwf) as Hlen.
  destruct (leading_step_cases t r l σ) as [[Hn E']|[(Hn & Hl & E')|(Hn & Hl & E')]];
    rewrite E' in E; injection E as <- <- <-.
  - auto.
  - destruct (first_non_nan_pos _ Hn) as [Hlt _].
    destruct Hwf as (buf & Hbuf & Hle).
    split; [|simpl; lia].
    unfold view. simpl. rewrite Hbuf. simpl.
    rewrite length_take, length_drop. lia.
  - destruct (first_non_nan_pos _ Hn) as [Hlt _].
    destruct Hwf as (buf & Hbuf & Hle).
    split; [|assumption].
    simpl. rewrite view_insert_same, Hbuf. simpl.
    rewrite length_take, length_drop. unfold blit.
    rewrite !length_app, length_take, length_replicate, length_drop. lia.
Qed.

(** On two well-formed arrays of one size the sanitizer returns. *)
Lemma handle_non_finite_returns_returns t r l s σ :
  wf_array (f64 σ) r → size t = size r →
  ∃ t' r', sanitized (handle_non_finite_returns t r l s σ) = inr (t', r').
Proof.
  intros Hwf Hsz.
  destruct (sanitized_steps t r l s σ) as (t1 & r1 & σ1 & E1 & ->).
  destruct (leading_step_wf _ _ _ _ _ _ _ Hwf Hsz E1) as [Hlen Hsz1].
  destruct s.
  - rewrite subsequent_step_true. eauto.
  - rewrite subsequent_step_false by congruence. eauto.
Qed.

(** ** C3: a series without a finite return *)

(** C3, as stated, fails: on the one-entry series [NaN] the entry is
    replaced by 0.0 when [subsequent_non_finite_to_zeros] is set and dropped
    when it is not, whatever [leading_non_finite_to_zeros] is. *)
Lemma C3_counterexample :
  let σ := {| f64 := {[ 0%nat := [nan] ]}; M8 := {[ 1%nat := [17897] ]} |} in
  let rets := {| data := 0%nat; offset := 0; size := 1 |} in
  let timestamps := {| data := 1%nat; offset := 0; size := 1 |} in
  view (f64 σ) rets = [nan] ∧ np.isfinite nan = false
  ∧ (∀ l, sanitized (handle_non_finite_returns timestamps rets l true σ)
          = inr ([17897], [0%float]))
  ∧ (∀ l, sanitized (handle_non_finite_returns timestamps rets l false σ)
          = inr ([], [])).
Proof.
  repeat split; intros []; vm_compute; reflexivity.
Qed.

(** C3, amended: when no return is finite the sanitizer returns and its
    final pass still runs, so every entry handed back is finite and only
    the empty series comes back as it was; when all returns are NaN the leading entries are neither
    trimmed nor zeroed whatever [leading_non_finite_to_zeros] is, and the
    result is the timestamps with every return 0.0 if
    [subsequent_non_finite_to_zeros] is set, two empty sequences if not. *)
Theorem C3_sanitize_no_finite σ timestamps rets l s :
  wf_array (M8 σ) timestamps → wf_array (f64 σ) rets →
  size timestamps = size rets →
  Forall (λ x, np.isfinite x = false) (view (f64 σ) rets) →
  (∃ t' r', sanitized (handle_non_finite_returns timestamps rets l s σ) = inr (t', r')
     ∧ Forall (λ x, np.isfinite x = true) r'
     ∧ (r' = view (f64 σ) rets → size rets = 0%nat))
  ∧ (Forall (λ x, np.isnan x = true) (view (f64 σ) rets) →
     sanitized (handle_non_finite_returns timestamps rets l s σ)
     = inr (if s then (view (M8 σ) timestamps, replicate (size rets) 0%float)
            else ([], []))).
Proof.
  intros Hwt Hwr Hsz Hnf. split.
  - destruct (handle_non_finite_returns_returns timestamps rets l s σ Hwr Hsz)
      as (t' & r' & Hres).
    exists t', r'. split; [exact Hres|].
    destruct (sanitized_steps timestamps rets l s σ) as (t1 & r1 & σ1 & _ & E).
    rewrite E in Hres. apply subsequent_step_finite in Hres.
    split; [assumption|]. intros ->.
    rewrite <- (wf_view_length _ _ Hwr).
    destruct (view (f64 σ) rets) as [|x xs]; [reflexivity|].
    inversion Hnf; inversion Hres; congruence.
  - intros Hnan.
    rewrite handle_non_finite_returns_steps. unfold py_bind at 1.
    rewrite leading_step_skip by (rewrite first_non_nan_all_nan; [lia|assumption]).
    pose proof (wf_view_length _ _ Hwr) as Hlen.
    destruct s.
    + rewrite subsequent_step_true, (nan_to_num_all_nan _ Hnan), Hlen. reflexivity.
    + rewrite subsequent_step_false by congruence.
      rewrite !compress_none; [reflexivity| |];
        apply Forall_map; (eapply Forall_impl; [exact Hnf|]); simpl; auto.
Qed.

Lemma C3_sanitize_no_finite_witness :
  let σ := {| f64 := {[ 0%nat := [nan; nan] ]}; M8 := {[ 1%nat := [17897; 17898] ]} |} in
  let rets := {| data := 0%nat; offset := 0; size := 2 |} in
  let timestamps := {| data := 1%nat; offset := 0; size := 2 |} in
  sanitized (handle_non_finite_returns timestamps rets true true σ)
  = inr ([17897; 17898], [0%float; 0%float]).
Proof.
  intros σ rets timestamps.
  refine (proj2 (C3_sanitize_no_finite σ timestamps rets true true _ _ _ _) _).
  - exists [17897; 17898]. split; [reflexivity|simpl; lia].
  - exists [nan; nan]. split; [reflexivity|simpl; lia].
  - reflexivity.
  - repeat constructor.
  - repeat constructor.
Defined.

(** ** C4: what the sanitizer does to its arguments *)

(** C4, the failing input: with [leading_non_finite_to_zeros] set, the
    caller's returns [NaN, 1.0] hold [0.0, 1.0] after the call. *)
Lemma C4_counterexample :
  let σ := {| f64 := {[ 0%nat := [nan; 1%float] ]}; M8 := {[ 1%nat := [17897; 17898] ]} |} in
  let rets := {| data := 0%nat; offset := 0; size := 2 |} in
  let timestamps := {| data := 1%nat; offset := 0; size := 2 |} in
  let σ' := snd (handle_non_finite_returns timestamps rets true true σ) in
  view (f64 σ) rets = [nan; 1%float] ∧ view (f64 σ') rets = [0%float; 1%float].
Proof. split; vm_compute; reflexivity. Qed.

(** C4: what the code does, against the claim that the arguments are left
    as they were.  The sanitizer never writes into a timestamp buffer, nor
    into a returns buffer other than its argument's, and every branch but
    one leaves the caller's returns as they were: the slices and the final
    pass build new arrays.  The branch of [leading_non_finite_to_zeros] with
    the first entry that is not NaN at an index [n > 0] assigns to
    [rets[:n]] in place, and the caller's array holds 0.0 in its first [n]
    entries after the call. *)
Theorem C4_sanitize_frame σ timestamps rets l s :
  let σ' := snd (handle_non_finite_returns timestamps rets l s σ) in
  let n := first_non_nan (view (f64 σ) rets) in
  (∀ k buf, M8 σ !! k = Some buf → M8 σ' !! k = Some buf)
  ∧ (∀ k buf, f64 σ !! k = Some buf → k ≠ data rets → f64 σ' !! k = Some buf)
  ∧ (l = false ∨ n <= 0 →
     ∀ buf, f64 σ !! data rets = Some buf → f64 σ' !! data rets = Some buf)
  ∧ (l = true → 0 < n → wf_array (f64 σ) rets →
     view (f64 σ') rets
     = replicate (Z.to_nat n) 0%float ++ drop (Z.to_nat n) (view (f64 σ) rets)).
Proof.
  intros σ' n. subst σ'.
  destruct (sanitized_steps timestamps rets l s σ) as (t1 & r1 & σ1 & E1 & ->).
  destruct (subsequent_step_extends t1 r1 s σ1) as [HM HF].
  destruct (leading_step_cases timestamps rets l σ) as [[Hn E]|[(Hn & Hl & E)|(Hn & Hl & E)]];
    rewrite E in E1; injection E1 as <- <- <-.
  - repeat split; auto. subst n. intros _ ?. lia.
  - repeat split; auto. intros ->. discriminate.
  - split; [|split; [|split]].
    + intros k buf Hk. apply HM. exact Hk.
    + intros k buf Hk Hne. apply HF. simpl. rewrite lookup_insert_ne by congruence. exact Hk.
    + intros [->|Hle]; [discriminate|]. subst n. lia.
    + intros _ _ Hwf. subst n. set (n := Z.to_nat _).
      destruct (first_non_nan_pos _ Hn) as [Hlt _].
      pose proof (wf_view_length _ _ Hwf) as Hlen.
      destruct Hwf as (buf & Hbuf & Hle).
      rewrite (view_extends _ _ _ HF).
      * assert (Hv : view (f64 σ) rets = take (size rets) (drop (offset rets) buf))
          by (unfold view; rewrite Hbuf; reflexivity).
        simpl. rewrite view_insert_same, Hbuf. simpl.
        rewrite (view_blit _ _ n); [|apply length_replicate|lia|lia].
        rewrite <- Hv. reflexivity.
      * exists (blit buf (offset rets) (replicate n 0%float)). simpl.
        rewrite lookup_insert_eq, Hbuf. split; [reflexivity|].
        unfold blit. rewrite !length_app, length_take, length_replicate, length_drop.
        fold n in Hlt. lia.
Qed.

Lemma C4_sanitize_frame_witness :
  let σ := {| f64 := {[ 0%nat := [nan; nan; 3%float] ]};
              M8 := {[ 1%nat := [17897; 17898; 17899] ]} |} in
  let rets := {| data := 0%nat; offset := 0; size := 3 |} in
  let timestamps := {| data := 1%nat; offset := 0; size := 3 |} in
  view (f64 (snd (handle_non_finite_returns timestamps rets true false σ))) rets
  = [0%float; 0%float; 3%float].
Proof.
  intros σ rets timestamps.
  refine (proj2 (proj2 (proj2 (C4_sanitize_frame σ timestamps rets true false))) _ _ _).
  - reflexivity.
  - vm_compute. reflexivity.
  - exists [nan; nan; 3%float]. split; [reflexivity|simpl; lia].
Defined.

(** The doctests of the function, run in their order on the one array
    [rets] they share: the first leaves it as it was, the second writes 0.0
    over its two leading NaN, and the value that the third expects (two
    leading zeros, with both flags off) is what it returns on the array so
    written; on the array as it was created it drops the two leading
    entries. *)
Lemma handle_non_finite_returns_doctests :
  let σ := {| f64 := {[ 0%nat := [nan; nan; 3; 4; nan; 5]%float ]};
              M8 := {[ 1%nat := [17897; 17898; 17899; 17900; 17901; 17902] ]} |} in
  let rets := {| data := 0%nat; offset := 0; size := 6 |} in
  let timestamps := {| data := 1%nat; offset := 0; size := 6 |} in
  let r1 := handle_non_finite_returns timestamps rets false true σ in
  let r2 := handle_non_finite_returns timestamps rets true false (snd r1) in
  let r3 := handle_non_finite_returns timestamps rets false false (snd r2) in
  (sanitized r1 = inr ([17899; 17900; 17901; 17902], [3; 4; 0; 5]%float)
   ∧ view (f64 (snd r1)) rets = [nan; nan; 3; 4; nan; 5]%float)
  ∧ (sanitized r2 = inr ([17897; 17898; 17899; 17900; 17902], [0; 0; 3; 4; 5]%float)
     ∧ view (f64 (snd r2)) rets = [0; 0; 3; 4; nan; 5]%float)
  ∧ sanitized r3 = inr ([17897; 17898; 17899; 17900; 17902], [0; 0; 3; 4; 5]%float)
  ∧ sanitized (handle_non_finite_returns timestamps rets false false σ)
    = inr ([17899; 17900; 17902], [3; 4; 5]%float).
Proof. repeat split; vm_compute; reflexivity. Qed.

(** ** The shape of the rolling drawdowns *)

Lemma zip_with_dd_length s m :
  length m = length s → length (zip_with_dd s m) = length s.
Proof.
  revert m. induction s as [|x s IH]; intros [|y m]; simpl; try discriminate; auto.
Qed.

Lemma expanding_max_from_length acc s :
  length (expanding_max_from acc s) = length s.
Proof. revert acc. induction s as [|x s IH]; intros acc; simpl; auto. Qed.

(** [pd.Series] raises on an index that leaves the range of pandas, and
    on no other. *)
Lemma Series_inr {A} (data : list A) index :
  Forall (λ t, calendar.in_bounds t = true) index → Series data index = inr data.
Proof.
  intros H. unfold Series.
  rewrite (proj2 (forallb_forall _ _)); [reflexivity|].
  intros t Ht. apply (proj1 (Forall_forall _ _) H), list_elem_of_In, Ht.
Qed.

Lemma Series_inr_inv {A} (data : list A) index s :
  Series data index = inr s →
  s = data ∧ Forall (λ t, calendar.in_bounds t = true) index.
Proof.
  unfold Series. destruct (forallb _ index) eqn:E; [|discriminate].
  intros [= <-]. split; [reflexivity|].
  apply Forall_forall. intros t Ht.
  apply (proj1 (forallb_forall _ _) E), list_elem_of_In, Ht.
Qed.

Lemma Series_inl_inv {A} (data : list A) index e :
  Series data index = inl e →
  e = ValueError ∧ Exists (λ t, calendar.in_bounds t = false) index.
Proof.
  unfold Series. destruct (forallb _ index) eqn:E; [discriminate|].
  intros [= <-]. split; [reflexivity|].
  induction index as [|t index IH]; simpl in E; [discriminate|].
  destruct (calendar.in_bounds t) eqn:Ht; [right; auto|left; exact Ht].
Qed.

(** On a pair of one length inside the range of pandas [compute_rolling_dd]
    returns the timestamps and the drawdowns of the equity. *)
Lemma compute_rolling_dd_eq timestamps equity :
  length timestamps = length equity →
  Forall (λ t, calendar.in_bounds t = true) timestamps →
  compute_rolling_dd timestamps equity
  = inr (Tuple (ArrayM8 timestamps) (ArrayF (zip_with_dd equity (expanding_max equity)))).
Proof.
  intros Hlen Hb. unfold compute_rolling_dd.
  rewrite bool_decide_eq_true_2 by assumption. simpl.
  destruct (bool_decide (length timestamps = 0%nat)) eqn:E.
  - apply bool_decide_eq_true in E.
    destruct timestamps; [|discriminate]. destruct equity; [|discriminate].
    reflexivity.
  - rewrite Series_inr by assumption. reflexivity.
Qed.

(** With a timestamp outside that range it raises, after its assertion. *)
Lemma compute_rolling_dd_out_of_bounds timestamps equity :
  length timestamps = length equity →
  Exists (λ t, calendar.in_bounds t = false) timestamps →
  compute_rolling_dd timestamps equity = inl ValueError.
Proof.
  intros Hlen Hout. unfold compute_rolling_dd.
  rewrite bool_decide_eq_true_2 by assumption. simpl.
  destruct (bool_decide (length timestamps = 0%nat)) eqn:E.
  { apply bool_decide_eq_true in E. destruct timestamps; [|discriminate].
    inversion Hout. }
  destruct (Series equity timestamps) as [e|s0] eqn:Hs; simpl.
  - apply Series_inl_inv in Hs as [-> _]. reflexivity.
  - apply Series_inr_inv in Hs as [_ Hb]. exfalso.
    apply Exists_exists in Hout as (t & Ht & Hf).
    rewrite (proj1 (Forall_forall _ _) Hb t Ht) in Hf. discriminate.
Qed.

(** [compute_rolling_dd] returns a pair of aligned arrays whenever it
    returns. *)
Lemma compute_rolling_dd_shape timestamps equity v :
  compute_rolling_dd timestamps equity = inr v → is_dd_pair v = true.
Proof.
  unfold compute_rolling_dd.
  destruct (bool_decide (length timestamps = length equity)) eqn:Hlen; simpl;
    [|discriminate].
  apply bool_decide_eq_true in Hlen.
  destruct (bool_decide (length timestamps = 0%nat)); [intros [= <-]; reflexivity|].
  destruct (Series equity timestamps) as [e|s] eqn:Hs; simpl; [discriminate|].
  apply Series_inr_inv in Hs as [-> _]. intros [= <-]. simpl.
  apply bool_decide_eq_true.
  rewrite zip_with_dd_length; [assumption|apply expanding_max_from_length].
Qed.

(** [compute_rolling_dd_3yr] does so on a series that is not empty. *)
Lemma compute_rolling_dd_3yr_shape timestamps equity v :
  timestamps ≠ [] →
  compute_rolling_dd_3yr timestamps equity = inr v → is_dd_pair v = true.
Proof.
  intros Hne. unfold compute_rolling_dd_3yr.
  destruct (bool_decide (length timestamps = 0%nat)) eqn:E.
  - apply bool_decide_eq_true in E. destruct timestamps; [contradiction|discriminate].
  - destruct (start_3yr timestamps); simpl; [discriminate|].
    destruct (negb _); [discriminate|]. apply compute_rolling_dd_shape.
Qed.

(** ** C5: the sign of the drawdowns

    The sign of a rounded difference and quotient, from the specification
    of binary64 arithmetic. *)

Lemma shr_1_nonneg mrs : 0 <= shr_m mrs → 0 <= shr_m (shr_1 mrs).
Proof.
  destruct mrs as [m r s]. simpl.
  destruct m as [|[p|p|]|[p|p|]]; simpl; lia.
Qed.

Lemma iter_pos_shr_1_nonneg p mrs :
  0 <= shr_m mrs → 0 <= shr_m (SpecFloat.iter_pos shr_1 p mrs).
Proof.
  revert mrs. induction p as [p IH|p IH|]; intros mrs H; simpl.
  - apply IH, IH, shr_1_nonneg, H.
  - apply IH, IH, H.
  - apply shr_1_nonneg, H.
Qed.

Lemma shr_fexp_nonneg m e l :
  0 <= m → 0 <= shr_m (fst (shr_fexp prec emax m e l)).
Proof.
  intros H. unfold shr_fexp, shr.
  assert (H0 : 0 <= shr_m (shr_record_of_loc m l)).
  { destruct l as [|[]]; exact H. }
  destruct (_ - e) as [|p|p]; simpl; [exact H0| |exact H0].
  apply iter_pos_shr_1_nonneg, H0.
Qed.

Lemma round_nearest_even_nonneg m l : 0 <= m → 0 <= round_nearest_even m l.
Proof.
  intros H. unfold round_nearest_even.
  destruct l as [|[]]; try lia. destruct (Z.even m); lia.
Qed.

Lemma binary_round_aux_sign s m e l :
  0 <= m → sf_sign_is s (binary_round_aux prec emax s m e l).
Proof.
  intros H. unfold binary_round_aux.
  pose proof (shr_fexp_nonneg m e l H) as H1.
  destruct (shr_fexp prec emax m e l) as [mrs' e']. simpl in H1.
  pose proof (shr_fexp_nonneg _ e' loc_Exact
                (round_nearest_even_nonneg _ (loc_of_shr_record mrs') H1)) as H2.
  destruct (shr_fexp prec emax _ e' loc_Exact) as [mrs'' e'']. simpl in H2.
  destruct (shr_m mrs'') as [|p|p]; simpl; [reflexivity| |lia].
  destruct (e'' <=? _); reflexivity.
Qed.

Lemma binary_round_sign s m e : sf_sign_is s (binary_round prec emax s m e).
Proof.
  unfold binary_round. destruct (shl_align _ _ _) as [mz ez].
  apply binary_round_aux_sign. lia.
Qed.

Lemma digits2_pos_bounds m :
  2 ^ (Zpos (digits2_pos m) - 1) <= Zpos m < 2 ^ Zpos (digits2_pos m).
Proof.
  induction m as [p IH|p IH|]; simpl digits2_pos.
  - rewrite Pos2Z.inj_succ.
    replace (Z.succ (Zpos (digits2_pos p)) - 1) with (Z.succ (Zpos (digits2_pos p) - 1)) by lia.
    rewrite !Z.pow_succ_r by lia. lia.
  - rewrite Pos2Z.inj_succ.
    replace (Z.succ (Zpos (digits2_pos p)) - 1) with (Z.succ (Zpos (digits2_pos p) - 1)) by lia.
    rewrite !Z.pow_succ_r by lia. lia.
  - simpl. lia.
Qed.

Lemma pos_iter_xO m d : Zpos (Pos.iter xO m d) = Zpos m * 2 ^ Zpos d.
Proof.
  induction d as [|d IH] using Pos.peano_ind.
  - simpl. lia.
  - rewrite Pos.iter_succ, Pos2Z.inj_succ, Z.pow_succ_r by lia.
    rewrite Pos2Z.inj_xO, IH. lia.
Qed.

Lemma shl_align_value mx ex ez :
  ez <= ex → Zpos (fst (shl_align mx ex ez)) = Zpos mx * 2 ^ (ex - ez).
Proof.
  intros H. unfold shl_align.
  destruct (ez - ex) as [|d|d] eqn:E; simpl.
  - replace (ex - ez) with 0 by lia. simpl. lia.
  - lia.
  - rewrite pos_iter_xO. f_equal. f_equal. lia.
Qed.

(** A canonical mantissa has at most [prec] digits, and exactly [prec]
    above the least exponent. *)
Lemma bounded_inv m e :
  bounded prec emax m e = true →
  -1074 <= e ∧ Zpos m < 2 ^ 53 ∧ (-1074 < e → 2 ^ 52 <= Zpos m).
Proof.
  unfold bounded, canonical_mantissa, fexp, SpecFloat.emin, prec, emax.
  intros H. apply andb_true_iff in H as [H _]. apply Z.eqb_eq in H.
  pose proof (digits2_pos_bounds m) as [Hlo Hhi].
  set (d := Zpos (digits2_pos m)) in *.
  assert (0 < d) by (subst d; lia).
  split; [lia|split].
  - assert (d <= 53) by lia.
    eapply Z.lt_le_trans; [exact Hhi|]. apply Z.pow_le_mono_r; lia.
  - intros He. assert (d = 53) by lia.
    replace 52 with (d - 1) by lia. exact Hlo.
Qed.

Lemma SFsub_sign x mm em :
  sf_finite x → valid_binary x = true → bounded prec emax mm em = true →
  SFleb (S754_finite false mm em) x = false →
  sf_sign_is true (SFsub prec emax x (S754_finite false mm em)).
Proof.
  destruct x as [s|s| |[] mx ex]; simpl sf_finite; try tauto; intros _ Hx Hm Hle.
  - unfold SFsub. simpl cond_Zopp.
    destruct (_ - _) as [|p|p] eqn:E; try lia.
    simpl. apply binary_round_sign.
  - simpl in Hx.
    destruct (bounded_inv _ _ Hx) as (Hex & Hmx & _).
    destruct (bounded_inv _ _ Hm) as (Hem & _ & Hmm).
    assert (Hlt : Zpos (fst (shl_align mx ex (Z.min ex em)))
                  - Zpos (fst (shl_align mm em (Z.min ex em))) < 0).
    { rewrite !shl_align_value by lia.
      unfold SFleb, SFcompare in Hle.
      destruct (Z.compare_spec em ex) as [->|Hlt|Hgt]; [| discriminate |].
      - rewrite Z.min_id, Z.sub_diag. simpl (2 ^ 0).
        destruct (Pos.compare_cont Eq mm mx) eqn:Hc; try discriminate.
        change (Pos.compare_cont Eq mm mx) with (Pos.compare mm mx) in Hc.
        apply Pos.compare_gt_iff in Hc. lia.
      - rewrite Z.min_l by lia. rewrite Z.sub_diag. simpl (2 ^ 0).
        assert (2 * 1 <= 2 ^ (em - ex)).
        { replace 2 with (2 ^ 1) at 1 by reflexivity. rewrite Z.mul_1_r.
          apply Z.pow_le_mono_r; lia. }
        specialize (Hmm ltac:(lia)). nia. }
    unfold SFsub. simpl cond_Zopp.
    destruct (_ - _) as [|p|p] eqn:E; try lia.
    simpl. apply binary_round_sign.
Qed.

Lemma SFdiv_sign x mm em :
  sf_sign_is false x →
  sf_sign_is false (SFdiv prec emax x (S754_finite false mm em)).
Proof.
  destruct x as [s|s| |s m e]; simpl; try (intros ->; reflexivity); [tauto|].
  intros ->. simpl.
  unfold SFdiv_core_binary.
  set (m' := match _ with Z0 => _ | Zpos _ => _ | Zneg _ => _ end).
  assert (Hm' : 0 <= m').
  { subst m'. destruct (_ - _ - _) as [|p|p]; try lia. apply Z.shiftl_nonneg. lia. }
  pose proof (Z_div_mod m' (Zpos mm) ltac:(lia)) as Hdiv.
  destruct (Z.div_eucl m' (Zpos mm)) as [q r]. destruct Hdiv as [Hq Hr].
  apply binary_round_aux_sign. nia.
Qed.

(** Below a positive finite [m], [-(x - m) / m] is not negative. *)
Lemma SF_dd_nonneg x mm em :
  sf_finite x → valid_binary x = true → bounded prec emax mm em = true →
  SFleb (S754_finite false mm em) x = false →
  SFleb (S754_zero false)
    (SFdiv prec emax (SFopp (SFsub prec emax x (S754_finite false mm em)))
       (S754_finite false mm em)) = true.
Proof.
  intros Hf Hx Hm Hle.
  pose proof (SFsub_sign _ _ _ Hf Hx Hm Hle) as Hs.
  assert (Ho : sf_sign_is false
                 (SFopp (SFsub prec emax x (S754_finite false mm em)))).
  { destruct (SFsub _ _ _ _) as [s|s| |s m e]; simpl in *; subst; tauto. }
  pose proof (SFdiv_sign _ mm em Ho) as Hd.
  destruct (SFdiv _ _ _ _) as [s|s| |s m e]; simpl in Hd; subst; try tauto; reflexivity.
Qed.

Lemma isfinite_spec x : np.isfinite x = true → sf_finite (Prim2SF x).
Proof.
  unfold np.isfinite. rewrite is_finite_spec.
  destruct (Prim2SF x); simpl; intros; try discriminate; exact I.
Qed.

Lemma isfinite_not_nan x : np.isfinite x = true → np.isnan x = false.
Proof.
  intros H. apply isfinite_spec in H. unfold np.isnan. rewrite is_nan_spec.
  destruct (Prim2SF x); simpl in *; tauto.
Qed.

Lemma positive_finite_spec x :
  positive_finite x → ∃ m e, Prim2SF x = S754_finite false m e.
Proof.
  unfold positive_finite, np.isfinite. rewrite is_finite_spec, FloatAxioms.ltb_spec.
  change (Prim2SF 0) with (S754_zero false).
  destruct (Prim2SF x) as [s|s| |s m e]; intros [Hf Hp]; try discriminate.
  destruct s; [discriminate|]. eauto.
Qed.

Lemma dd_entry_nonneg x m :
  np.isfinite x = true → positive_finite m →
  PrimFloat.leb 0 (dd_entry x m) = true.
Proof.
  intros Hx Hm. unfold dd_entry.
  destruct (PrimFloat.leb m x) eqn:Hle; [reflexivity|].
  destruct (positive_finite_spec m Hm) as (mm & em & Em).
  pose proof (Prim2SF_valid x) as Vx. pose proof (Prim2SF_valid m) as Vm.
  rewrite Em in Vm. simpl in Vm.
  rewrite FloatAxioms.leb_spec, Em in Hle.
  rewrite FloatAxioms.leb_spec, div_spec, opp_spec, sub_spec, Em.
  change (Prim2SF 0) with (S754_zero false).
  apply SF_dd_nonneg; auto using isfinite_spec.
Qed.

(** The running maximum stays positive once it is. *)
Lemma expanding_step_positive acc x :
  positive_finite acc → np.isfinite x = true →
  positive_finite (expanding_step acc x).
Proof.
  intros Hacc Hx. unfold expanding_step.
  rewrite Hx, (isfinite_not_nan acc (proj1 Hacc)). simpl.
  destruct (PrimFloat.ltb acc x) eqn:Hlt; [|assumption].
  split; [assumption|].
  destruct (positive_finite_spec acc Hacc) as (ma & ea & Ea).
  apply isfinite_spec in Hx.
  rewrite FloatAxioms.ltb_spec, Ea in Hlt. rewrite FloatAxioms.ltb_spec.
  change (Prim2SF 0) with (S754_zero false).
  destruct (Prim2SF x) as [s|s| |[] mx ex]; simpl in *; try tauto; discriminate.
Qed.

Lemma zip_with_dd_nonneg acc s :
  positive_finite acc → Forall (λ x, np.isfinite x = true) s →
  Forall (λ d, PrimFloat.leb 0 d = true) (zip_with_dd s (expanding_max_from acc s)).
Proof.
  intros Hacc Hs. revert acc Hacc.
  induction Hs as [|x s Hx _ IH]; intros acc Hacc; simpl; constructor.
  - apply dd_entry_nonneg; [assumption|]. apply expanding_step_positive; assumption.
  - apply IH. apply expanding_step_positive; assumption.
Qed.

Lemma zip_with_dd_lookup s ms i x m :
  s !! i = Some x → ms !! i = Some m →
  zip_with_dd s ms !! i = Some (dd_entry x m).
Proof.
  revert ms i. induction s as [|y s IH]; intros [|m' ms] [|i]; simpl;
    try discriminate.
  - intros [= ->] [= ->]. reflexivity.
  - apply IH.
Qed.

(** C5, as stated, fails: the returns [-2, 1] give the equity [-1, -2],
    whose second drawdown is -1. *)
Lemma C5_counterexample :
  compute_equity [1; 2] 1 [-2; 1]%float = [-1; -2]%float
  ∧ compute_rolling_dd [1; 2] [-1; -2]%float
    = inr (Tuple (ArrayM8 [1; 2]) (ArrayF [0; -1]%float))
  ∧ PrimFloat.leb 0 (-1) = false.
Proof. repeat split; vm_compute; reflexivity. Qed.

(** A finite number is at most itself. *)
Lemma leb_finite_refl x : np.isfinite x = true → PrimFloat.leb x x = true.
Proof.
  unfold np.isfinite. rewrite is_finite_spec, FloatAxioms.leb_spec. unfold SFleb.
  destruct (Prim2SF x) as [s|s| |s m e]; try discriminate; intros _.
  - reflexivity.
  - rewrite SFcompare_refl_finite. reflexivity.
Qed.

(** The running maximum at a finite entry is that entry, or it is a number
    that is not NaN: the initial one, or a finite entry before it. *)
Lemma expanding_max_from_at acc s i x m :
  s !! i = Some x → np.isfinite x = true →
  expanding_max_from acc s !! i = Some m →
  m = x
  ∨ (np.isnan m = false
     ∧ (m = acc ∨ ∃ j y, (j < i)%nat ∧ s !! j = Some y ∧ np.isfinite y = true ∧ m = y)).
Proof.
  revert acc i. induction s as [|x0 s IH]; intros acc [|i]; simpl; try discriminate.
  - intros [= ->] Hx [= <-]. unfold expanding_step. rewrite Hx. simpl.
    destruct (np.isnan acc) eqn:Hn; [left; reflexivity|].
    destruct (PrimFloat.ltb acc x); [left; reflexivity|right; auto].
  - intros Hi Hx Hm.
    destruct (IH _ _ Hi Hx Hm) as [->|[Hn [->|(j & y & Hj & Hy & Hfin & ->)]]];
      [left; reflexivity| |].
    + right. split; [exact Hn|]. revert Hn. unfold expanding_step.
      destruct (np.isfinite x0) eqn:Hx0; simpl; [|auto].
      destruct (np.isnan acc) eqn:Hacc.
      * intros _. right. exists 0%nat, x0. split; [lia|auto].
      * destruct (PrimFloat.ltb acc x0); [|auto].
        intros _. right. exists 0%nat, x0. split; [lia|auto].
    + right. split; [exact Hn|]. right. exists (S j), y. split; [lia|auto].
Qed.

(** C5, amended: for every (timestamps, equity) pair of one length whose
    timestamps lie in the range of pandas, [compute_rolling_dd] returns the
    timestamps with one drawdown for each equity; the drawdown is exactly 0
    at each index where the equity is finite and at least every finite
    equity up to that index, and at each index where the equity is at least
    the running maximum (of the finite entries so far); and every drawdown
    is [>= 0] when all equity values are finite and the first one is
    positive.  On timestamps of which one lies outside the range of pandas
    the function raises ValueError. *)
Theorem C5_rolling_dd timestamps equity :
  length timestamps = length equity →
  (Forall (λ t, calendar.in_bounds t = true) timestamps →
   ∃ dd,
     compute_rolling_dd timestamps equity = inr (Tuple (ArrayM8 timestamps) (ArrayF dd))
     ∧ length dd = length equity
     ∧ (∀ i x, equity !! i = Some x → np.isfinite x = true →
          (∀ j y, (j < i)%nat → equity !! j = Some y → np.isfinite y = true →
             PrimFloat.leb y x = true) →
          dd !! i = Some 0%float)
     ∧ (∀ i x m, equity !! i = Some x → expanding_max equity !! i = Some m →
          PrimFloat.leb m x = true → dd !! i = Some 0%float)
     ∧ (Forall (λ x, np.isfinite x = true) equity →
        (∀ x, head equity = Some x → PrimFloat.ltb 0 x = true) →
        Forall (λ d, PrimFloat.leb 0 d = true) dd))
  ∧ (Exists (λ t, calendar.in_bounds t = false) timestamps →
     compute_rolling_dd timestamps equity = inl ValueError).
Proof.
  intros Hlen. split.
  - intros Hb. exists (zip_with_dd equity (expanding_max equity)).
    split; [|split; [|split; [|split]]].
    + apply compute_rolling_dd_eq; assumption.
    + apply zip_with_dd_length, expanding_max_from_length.
    + intros i x Hx Hfin Hmax.
      destruct (expanding_max equity !! i) as [m|] eqn:Hm.
      2:{ apply lookup_ge_None in Hm. apply lookup_lt_Some in Hx.
          unfold expanding_max in Hm. rewrite expanding_max_from_length in Hm. lia. }
      rewrite (zip_with_dd_lookup _ _ _ _ _ Hx Hm). unfold dd_entry.
      destruct (expanding_max_from_at _ _ _ _ _ Hx Hfin Hm)
        as [->|[Hn [->|(j & y & Hj & Hy & Hyfin & ->)]]].
      * rewrite leb_finite_refl by assumption. reflexivity.
      * discriminate.
      * rewrite (Hmax j y Hj Hy Hyfin). reflexivity.
    + intros i x m Hx Hm Hle.
      rewrite (zip_with_dd_lookup _ _ _ _ _ Hx Hm). unfold dd_entry.
      rewrite Hle. reflexivity.
    + intros Hfin Hhead. destruct equity as [|x0 rest]; [constructor|].
      inversion Hfin as [|? ? Hx0 Hrest]; subst.
      assert (Hp : positive_finite x0) by (split; [assumption|apply Hhead; reflexivity]).
      unfold expanding_max. simpl.
      assert (Hstep : expanding_step nan x0 = x0).
      { unfold expanding_step. rewrite Hx0. reflexivity. }
      rewrite Hstep. constructor.
      * apply dd_entry_nonneg; assumption.
      * apply zip_with_dd_nonneg; assumption.
  - apply compute_rolling_dd_out_of_bounds. exact Hlen.
Qed.

Lemma C5_rolling_dd_witness :
  ∃ dd,
    compute_rolling_dd [1; 2; 3] [2; -1; 3]%float
      = inr (Tuple (ArrayM8 [1; 2; 3]) (ArrayF dd))
    ∧ Forall (λ d, PrimFloat.leb 0 d = true) dd.
Proof.
  destruct (proj1 (C5_rolling_dd [1; 2; 3] [2; -1; 3]%float eq_refl))
    as (dd & Hdd & _ & _ & _ & Hpos).
  - repeat constructor.
  - exists dd. split; [exact Hdd|].
    apply Hpos; [repeat constructor|]. intros x [= <-]. reflexivity.
Defined.

(** ** C6: the value on the empty series *)

(** C6: on the empty series [compute_rolling_dd] returns the pair of two
    empty arrays, and [compute_rolling_dd_3yr] returns one empty array of
    dates, which is not a pair. *)
Theorem C6_rolling_dd_3yr_empty :
  compute_rolling_dd [] [] = inr (Tuple (ArrayM8 []) (ArrayF []))
  ∧ compute_rolling_dd_3yr [] [] = inr (ArrayM8 [])
  ∧ is_dd_pair (ArrayM8 []) = false.
Proof. repeat split. Qed.

(** ** C7: the trailing three years *)

(** Three calendar years earlier is an earlier day, and the day count of
    the date of a day is that day. *)
Lemma days_from_civil_year_mono y m d :
  calendar.days_from_civil {| calendar.year := y - 3; calendar.month := m; calendar.day := d |}
  < calendar.days_from_civil {| calendar.year := y; calendar.month := m; calendar.day := d |}.
Proof.
  unfold calendar.days_from_civil. simpl.
  destruct (Z.leb_spec m 2); destruct (Z.ltb_spec 2 m); Z.div_mod_to_equations; lia.
Qed.

Lemma days_from_civil_from_days z :
  calendar.days_from_civil (calendar.civil_from_days z) = z.
Proof.
  unfold calendar.days_from_civil, calendar.civil_from_days. simpl.
  repeat match goal with
  | |- context [if ?a <? ?b then _ else _] => destruct (Z.ltb_spec a b)
  | |- context [if ?a <=? ?b then _ else _] => destruct (Z.leb_spec a b)
  end; Z.div_mod_to_equations; lia.
Qed.

Lemma start_3yr_before_last timestamps c :
  start_3yr timestamps = inr c → c < List.last timestamps 0.
Proof.
  unfold start_3yr, calendar.to_datetime.
  generalize (List.last timestamps 0). intros z.
  destruct (calendar.in_bounds z); [|discriminate].
  pose proof (days_from_civil_from_days z) as Hz.
  remember (calendar.civil_from_days z) as dt eqn:Hdt. clear Hdt.
  destruct dt as [y m d]. unfold exn_bind, calendar.replace_year, calendar.datetime64.
  cbn [calendar.year calendar.month calendar.day].
  destruct (_ && _); [|discriminate].
  intros [= <-]. rewrite <- Hz. apply days_from_civil_year_mono.
Qed.

Lemma monotonically_increasing_cons t timestamps :
  monotonically_increasing (t :: timestamps) = true →
  Forall (λ t', t < t') timestamps ∧ monotonically_increasing timestamps = true.
Proof.
  revert t. induction timestamps as [|t' ts IH]; intros t; simpl.
  - intros _. split; [constructor|reflexivity].
  - intros H. apply andb_true_iff in H as [Hlt Hrest]. apply Z.ltb_lt in Hlt.
    split; [|exact Hrest]. constructor; [exact Hlt|].
    destruct (IH _ Hrest) as [Hall _].
    eapply Forall_impl; [exact Hall|]. simpl. intros; lia.
Qed.

Lemma compress_head {A} (f : A → bool) (l : list A) x rest :
  np.compress (map f l) l = x :: rest → f x = true.
Proof.
  induction l as [|y l IH]; simpl; [discriminate|].
  destruct (f y) eqn:E; [intros [= <- _]; exact E|exact IH].
Qed.

(** On strictly increasing timestamps the entries at or after the first
    one past the cutoff are the entries past the cutoff. *)
Lemma window_from_first timestamps c :
  monotonically_increasing timestamps = true → timestamps ≠ [] →
  c < List.last timestamps 0 →
  ∃ t0 rest,
    np.compress (map (λ t, c <? t) timestamps) timestamps = t0 :: rest
    ∧ map (λ t, t0 <=? t) timestamps = map (λ t, c <? t) timestamps.
Proof.
  induction timestamps as [|t ts IH]; intros Hmono Hne Hlast; [contradiction|].
  destruct (monotonically_increasing_cons _ _ Hmono) as [Hmin Hmono'].
  simpl map. simpl np.compress.
  destruct (Z.ltb_spec c t) as [Hc|Hc].
  - exists t, (np.compress (map (λ t, c <? t) ts) ts). split; [reflexivity|].
    rewrite (proj2 (Z.leb_le t t)) by lia. f_equal.
    clear -Hmin Hc. induction Hmin as [|x l Hx _ IHl]; simpl; [reflexivity|].
    rewrite IHl. f_equal.
    rewrite (proj2 (Z.leb_le t x)), (proj2 (Z.ltb_lt c x)) by lia. reflexivity.
  - destruct ts as [|t' ts']; [simpl in Hlast; lia|].
    destruct (IH Hmono' ltac:(discriminate) Hlast) as (t0 & rest & Hw & Hmap).
    exists t0, rest. split; [exact Hw|]. rewrite Hmap. f_equal.
    pose proof (compress_head _ _ _ _ Hw) as Ht0. simpl in Ht0.
    apply Z.ltb_lt in Ht0. apply Z.leb_gt. lia.
Qed.

(** [compute_dates_3yr] keeps the timestamps after the cutoff, and on
    strictly increasing timestamps [compute_returns_3yr] keeps the returns
    at the same positions. *)
Lemma compute_dates_3yr_window timestamps c :
  timestamps ≠ [] → start_3yr timestamps = inr c →
  compute_dates_3yr timestamps
  = inr (np.compress (map (λ t, c <? t) timestamps) timestamps).
Proof.
  intros Hne Hc. unfold compute_dates_3yr.
  rewrite bool_decide_eq_false_2 by (destruct timestamps; [contradiction|discriminate]).
  rewrite Hc. reflexivity.
Qed.

Lemma compute_returns_3yr_window timestamps returns c :
  timestamps ≠ [] → length timestamps = length returns →
  monotonically_increasing timestamps = true →
  start_3yr timestamps = inr c →
  compute_returns_3yr timestamps returns
  = inr (np.compress (map (λ t, c <? t) timestamps) returns).
Proof.
  intros Hne Hlen Hmono Hc. unfold compute_returns_3yr.
  rewrite bool_decide_eq_false_2 by (destruct timestamps; [contradiction|discriminate]).
  rewrite bool_decide_eq_true_2 by assumption. simpl.
  rewrite (compute_dates_3yr_window _ _ Hne Hc). simpl.
  destruct (window_from_first timestamps c Hmono Hne (start_3yr_before_last _ _ Hc))
    as (t0 & rest & -> & ->).
  reflexivity.
Qed.

(** [compute_rolling_dd_3yr] computes the drawdowns of the entries at or
    after the cutoff. *)
Lemma compute_rolling_dd_3yr_window timestamps equity c :
  timestamps ≠ [] → length timestamps = length equity →
  start_3yr timestamps = inr c →
  compute_rolling_dd_3yr timestamps equity
  = compute_rolling_dd
      (np.compress (map (λ t, c <=? t) timestamps) timestamps)
      (np.compress (map (λ t, c <=? t) timestamps) equity).
Proof.
  intros Hne Hlen Hc. unfold compute_rolling_dd_3yr.
  rewrite bool_decide_eq_false_2 by (destruct timestamps; [contradiction|discriminate]).
  rewrite Hc. simpl. rewrite length_map.
  rewrite bool_decide_eq_true_2 by assumption. reflexivity.
Qed.

(** C7: on the timestamps 2015-01-01, 2018-01-01 the cutoff is 2015-01-01;
    [compute_dates_3yr] and [compute_returns_3yr] keep the entries after the
    cutoff, and [compute_rolling_dd_3yr] computes its drawdowns on the
    entries at or after it. *)
Theorem C7_window_differs :
  let timestamps := [16436; 17532] in
  start_3yr timestamps = inr 16436
  ∧ compute_dates_3yr timestamps = inr [17532]
  ∧ compute_returns_3yr timestamps [0.5; -0.5]%float = inr [(-0.5)%float]
  ∧ compute_rolling_dd_3yr timestamps [2; 1]%float
    = inr (Tuple (ArrayM8 [16436; 17532]) (ArrayF [0; 0.5]%float))
  ∧ compute_rolling_dd [17532] [1%float]
    = inr (Tuple (ArrayM8 [17532]) (ArrayF [0%float])).
Proof. repeat split; vm_compute; reflexivity. Qed.

(** A last date on 29 February whose year minus three is not a leap year
    has no cutoff: 2020-02-29. *)
Lemma start_3yr_leap_day :
  calendar.civil_from_days 18321
  = {| calendar.year := 2020; calendar.month := 2; calendar.day := 29 |}
  ∧ compute_dates_3yr [18321] = inl ValueError.
Proof. split; vm_compute; reflexivity. Qed.

(** ** C8: the Sortino ratio *)

Lemma is_nan_eq x : PrimFloat.is_nan x = true → x = nan.
Proof.
  rewrite is_nan_spec. intros H. apply Prim2SF_inj.
  change (Prim2SF nan) with S754_nan.
  destruct (Prim2SF x); try discriminate. reflexivity.
Qed.

Lemma div_mul_sqrt_nan a d :
  PrimFloat.div a (PrimFloat.mul d (PrimFloat.sqrt nan)) = nan.
Proof.
  apply is_nan_eq. rewrite is_nan_spec, div_spec, mul_spec.
  change (Prim2SF (PrimFloat.sqrt nan)) with S754_nan.
  destruct (Prim2SF d), (Prim2SF a); reflexivity.
Qed.

Lemma compute_sortino_unfold returns amean periods_per_year :
  compute_sortino returns amean periods_per_year =
  if bool_decide (length returns = 0%nat) || negb (np.isfinite amean)
     || PrimFloat.leb periods_per_year 0
  then nan
  else if PrimFloat.eqb (np.std (downside returns)) 0 then nan
  else PrimFloat.div amean
         (PrimFloat.mul (np.std (downside returns)) (PrimFloat.sqrt periods_per_year)).
Proof.
  unfold compute_sortino, downside.
  replace (map (λ x, if negb (np.isfinite x) then 0%float else x) returns)
    with (map (λ x, if np.isfinite x then x else 0%float) returns); [reflexivity|].
  apply map_ext. intros x. destruct (np.isfinite x); reflexivity.
Qed.

(** C8, as stated, fails: on the returns [-1, 0] with amean 0.5 and
    periods per year NaN none of the four conditions holds (NaN is not
    [<= 0], the deviation of the downside series is 0.5), and the ratio is
    NaN. *)
Lemma C8_counterexample :
  let returns := [-1; 0]%float in
  compute_sortino returns 0.5 nan = nan
  ∧ length returns ≠ 0%nat
  ∧ np.isfinite 0.5 = true
  ∧ PrimFloat.leb nan 0 = false
  ∧ np.std (downside returns) = 0.5%float
  ∧ PrimFloat.eqb (np.std (downside returns)) 0 = false.
Proof. repeat split; try (vm_compute; reflexivity). discriminate. Qed.

(** C8, amended: the ratio is NaN when the returns are empty, amean is not
    finite, periods per year is [<= 0] or the deviation of the downside
    series is 0; in every other case it is amean divided by that deviation
    times the square root of periods per year; and that quotient is NaN
    again when periods per year is NaN, so the four conditions are not the
    only ones. *)
Theorem C8_sortino returns amean periods_per_year :
  (length returns = 0%nat ∨ np.isfinite amean = false
   ∨ PrimFloat.leb periods_per_year 0 = true
   ∨ PrimFloat.eqb (np.std (downside returns)) 0 = true →
   compute_sortino returns amean periods_per_year = nan)
  ∧ (length returns ≠ 0%nat → np.isfinite amean = true →
     PrimFloat.leb periods_per_year 0 = false →
     PrimFloat.eqb (np.std (downside returns)) 0 = false →
     compute_sortino returns amean periods_per_year
     = PrimFloat.div amean
         (PrimFloat.mul (np.std (downside returns)) (PrimFloat.sqrt periods_per_year)))
  ∧ (np.isnan periods_per_year = true →
     compute_sortino returns amean periods_per_year = nan).
Proof.
  rewrite compute_sortino_unfold. split; [|split].
  - intros [H|[H|[H|H]]].
    + rewrite bool_decide_eq_true_2 by assumption. reflexivity.
    + rewrite H. rewrite orb_true_r. reflexivity.
    + rewrite H. rewrite orb_true_r. reflexivity.
    + rewrite H. destruct (_ || _); reflexivity.
  - intros H1 H2 H3 H4.
    rewrite bool_decide_eq_false_2 by assumption. rewrite H2, H3, H4. reflexivity.
  - intros H. apply is_nan_eq in H. subst periods_per_year.
    destruct (_ || _); [reflexivity|].
    destruct (PrimFloat.eqb _ _); [reflexivity|]. apply div_mul_sqrt_nan.
Qed.

Lemma C8_sortino_witness :
  compute_sortino [1; -1; 2]%float 1 4
  = PrimFloat.div 1 (PrimFloat.mul (np.std (downside [1; -1; 2]%float)) (PrimFloat.sqrt 4)).
Proof.
  refine (proj1 (proj2 (C8_sortino [1; -1; 2]%float 1 4)) _ _ _ _).
  - discriminate.
  - vm_compute. reflexivity.
  - vm_compute. reflexivity.
  - vm_compute. reflexivity.
Defined.

(** ** C9: the assertions at the entry of [compute_return_metrics] *)

(** C9, as stated, fails: two timestamps with three returns pass the entry;
    the sanitizer runs on them, overwrites the caller's leading NaN and
    returns arrays of two and three entries. *)
Lemma C9_counterexample :
  let σ := {| f64 := {[ 0%nat := [nan; 1; 2]%float ]}; M8 := {[ 1%nat := [17897; 17898] ]} |} in
  let rets := {| data := 0%nat; offset := 0; size := 3 |} in
  let timestamps := {| data := 1%nat; offset := 0; size := 2 |} in
  let r := compute_return_metrics_entry (Ndarray datetime64 timestamps)
             (Ndarray float64 rets) 1000000 true true σ in
  length (view (M8 σ) timestamps) ≠ length (view (f64 σ) rets)
  ∧ sanitized r = inr ([17897; 17898], [0; 1; 2]%float)
  ∧ view (f64 (snd r)) rets = [0; 1; 2]%float.
Proof. repeat split; try (vm_compute; reflexivity). discriminate. Qed.

(** On arrays of different sizes the sanitizer raises when it masks the
    timestamps with the mask of the returns, and returns arrays of
    different lengths when it does not. *)
Lemma handle_non_finite_returns_mismatch σ timestamps rets l :
  wf_array (M8 σ) timestamps → wf_array (f64 σ) rets →
  size timestamps ≠ size rets →
  fst (handle_non_finite_returns timestamps rets l false σ) = inl IndexError
  ∧ ∃ t' r', sanitized (handle_non_finite_returns timestamps rets l true σ) = inr (t', r')
      ∧ length t' ≠ length r'.
Proof.
  intros Hwt Hwr Hsz.
  pose proof (wf_view_length _ _ Hwr) as Hlr.
  pose proof (wf_view_length _ _ Hwt) as Hlt.
  assert (Hstep : ∃ t1 r1 σ1, leading_step timestamps rets l σ = (inr (t1, r1), σ1)
            ∧ length (view (f64 σ1) r1) = size r1
            ∧ length (view (M8 σ1) t1) = size t1 ∧ size t1 ≠ size r1).
  { destruct (leading_step_cases timestamps rets l σ) as [[Hn E]|[(Hn & Hl & E)|(Hn & Hl & E)]];
      rewrite E; eexists _, _, _; (split; [reflexivity|]).
    - auto.
    - destruct (first_non_nan_pos _ Hn) as [Hlt' _].
      rewrite Hlr in Hlt'. clear Hlr Hlt E.
      set (n := Z.to_nat (first_non_nan (view (f64 σ) rets))) in *.
      assert (Hn' : (n < size rets)%nat) by lia. clearbody n.
      destruct Hwr as (buf & Hbuf & Hle). destruct Hwt as (tbuf & Htbuf & Htle).
      unfold view. simpl. rewrite Hbuf, Htbuf. simpl.
      rewrite !length_take, !length_drop. lia.
    - destruct (first_non_nan_pos _ Hn) as [Hlt' _].
      destruct Hwr as (buf & Hbuf & Hle).
      split; [|auto].
      simpl. rewrite view_insert_same, Hbuf. simpl.
      rewrite length_take, length_drop. unfold blit.
      rewrite !length_app, length_take, length_replicate, length_drop. lia. }
  destruct Hstep as (t1 & r1 & σ1 & E1 & Hr1 & Ht1 & Hne).
  split.
  - rewrite handle_non_finite_returns_steps. unfold py_bind at 1. rewrite E1.
    unfold subsequent_step, py_bind, py_get, mask_M8. cbv beta iota zeta.
    rewrite length_map, Hr1.
    destruct (decide (size r1 = size t1)) as [E|_]; [congruence|reflexivity].
  - rewrite handle_non_finite_returns_steps. unfold py_bind at 1. rewrite E1.
    rewrite subsequent_step_true. eexists _, _. split; [reflexivity|].
    rewrite length_map. congruence.
Qed.

(** The mismatch is then met by the assertion of a metric function: the
    equity has the length of the returns, and [compute_rolling_dd] asserts
    that it has the length of the timestamps. *)
Lemma cumprod_from_length acc xs : length (cumprod_from acc xs) = length xs.
Proof. revert acc. induction xs as [|x xs IH]; intros acc; simpl; auto. Qed.

Lemma compute_equity_length timestamps starting_equity returns :
  length (compute_equity timestamps starting_equity returns) = length returns.
Proof.
  unfold compute_equity, cumprod. rewrite length_map.
  destruct returns as [|x xs]; simpl; [reflexivity|].
  rewrite cumprod_from_length, length_map. reflexivity.
Qed.

Lemma compute_rolling_dd_mismatch timestamps starting_equity returns :
  length timestamps ≠ length returns →
  compute_rolling_dd timestamps (compute_equity timestamps starting_equity returns)
  = inl AssertionError.
Proof.
  intros H. unfold compute_rolling_dd.
  rewrite compute_equity_length, bool_decide_eq_false_2 by assumption. reflexivity.
Qed.

(** C9, amended: a starting equity that is not positive, returns that are
    not a float64 array, timestamps that are not a datetime64 array and
    timestamps that are not strictly increasing are each met by an
    assertion at entry, with the store untouched; nothing at entry compares
    the two lengths, and arguments that pass these assertions go to the
    sanitizer whatever their lengths.  On arrays of different sizes the
    sanitizer raises IndexError when [subsequent_non_finite_to_zeros] is
    not set; when it is set, it returns arrays of different lengths, on
    which [compute_rolling_dd] of the equity fails its assertion. *)
Theorem C9_entry_checks σ timestamps rets starting_equity l s :
  (entry_violation σ timestamps rets starting_equity →
   compute_return_metrics_entry timestamps rets starting_equity l s σ
   = (inl AssertionError, σ))
  ∧ (∀ t r, timestamps = Ndarray datetime64 t → rets = Ndarray float64 r →
     PrimFloat.ltb 0 starting_equity = true →
     monotonically_increasing (view (M8 σ) t) = true →
     compute_return_metrics_entry timestamps rets starting_equity l s σ
     = handle_non_finite_returns t r l s σ
     ∧ (wf_array (M8 σ) t → wf_array (f64 σ) r → size t ≠ size r →
        (s = false →
         fst (compute_return_metrics_entry timestamps rets starting_equity l s σ)
         = inl IndexError)
        ∧ (s = true →
           ∃ t' r',
             sanitized (compute_return_metrics_entry timestamps rets starting_equity l s σ)
             = inr (t', r')
             ∧ length t' ≠ length r'
             ∧ compute_rolling_dd t' (compute_equity t' starting_equity r')
               = inl AssertionError))).
Proof.
  unfold compute_return_metrics_entry. split.
  - intros Hv. unfold py_bind at 1.
    destruct (PrimFloat.ltb 0 starting_equity) eqn:Heq; simpl; [|reflexivity].
    destruct Hv as [Hv|[Hv|[Hv|(a & -> & Hv)]]]; [congruence| | |].
    + unfold py_bind at 1. destruct rets as [[] a|]; try reflexivity.
      exfalso. exact (Hv a eq_refl).
    + unfold py_bind at 1. destruct rets as [[] ar|]; try reflexivity.
      unfold py_ret, py_bind, py_get.
      destruct timestamps as [[] a|]; try reflexivity.
      exfalso. exact (Hv a eq_refl).
    + unfold py_bind at 1. destruct rets as [[] ar|]; try reflexivity.
      unfold py_assert, py_ret, py_bind, py_get. cbv beta iota zeta. rewrite Hv. reflexivity.
  - intros t r -> -> Heq Hmono.
    match goal with |- ?lhs = _ ∧ _ =>
      assert (Hentry : lhs = handle_non_finite_returns t r l s σ) end.
    { unfold py_assert, py_bind, py_ret, py_get. rewrite Heq. cbv beta iota zeta.
      rewrite Hmono. cbv beta iota zeta.
      destruct (handle_non_finite_returns t r l s σ) as [[e|[t' r']] σ']; reflexivity. }
    rewrite Hentry. split; [reflexivity|].
    intros Hwt Hwr Hsz.
    destruct (handle_non_finite_returns_mismatch σ t r l Hwt Hwr Hsz)
      as [Hraise (t' & r' & Hret & Hne)].
    split; intros ->; [exact Hraise|].
    exists t', r'. split; [exact Hret|]. split; [exact Hne|].
    apply compute_rolling_dd_mismatch. exact Hne.
Qed.

Lemma C9_entry_checks_witness :
  let σ := {| f64 := {[ 0%nat := [1; 2]%float ]}; M8 := {[ 1%nat := [17898; 17898] ]} |} in
  let a := {| data := 0%nat; offset := 0; size := 2 |} in
  let t := {| data := 1%nat; offset := 0; size := 2 |} in
  compute_return_metrics_entry (Ndarray datetime64 t) (Ndarray float64 a) 1 false true σ
  = (inl AssertionError, σ).
Proof.
  intros σ a t.
  refine (proj1 (C9_entry_checks σ (Ndarray datetime64 t) (Ndarray float64 a) 1 false true) _).
  right; right; right. exists t. split; reflexivity.
Defined.

(** ** The evaluator: C1, C2, C10 *)

Section evaluator_facts.
Context {V : Type}.
Implicit Types (self : Evaluator V) (w : World V).

Lemma compute_metric_S fuel self name :
  compute_metric (S fuel) self name =
  match dict_get (_metrics self) name with
  | None => py_raise (KeyError name)
  | Some (func, dependencies) =>
      (py_for dependencies (ensure (compute_metric fuel self) self) ;;;
       let* w := py_get in
       let* dependency_values :=
         py_lift (dict_comprehension (values_of self w) dependencies) in
       let* values := call name func dependency_values in
       store_value self name values)%py
  end.
Proof. reflexivity. Qed.

Lemma grows_refl self w : grows self w w.
Proof. split; [reflexivity|set_solver]. Qed.

Lemma grows_trans self w1 w2 w3 :
  grows self w1 w2 → grows self w2 w3 → grows self w1 w3.
Proof.
  intros [H1 H1'] [H2 H2']. split.
  - intros l Hl. rewrite H2, H1 by assumption. reflexivity.
  - set_solver.
Qed.

Lemma py_for_grows self (body : string → Py (World V) ()) ds :
  (∀ d w, grows self w (snd (body d w))) →
  ∀ w, grows self w (snd (py_for ds body w)).
Proof.
  intros Hbody. induction ds as [|d ds IH]; intros w; simpl.
  - apply grows_refl.
  - unfold py_bind. specialize (Hbody d w).
    destruct (body d w) as [[e|[]] w1]; simpl in *; [assumption|].
    eapply grows_trans; [exact Hbody|apply IH].
Qed.

Lemma ensure_grows self rec :
  (∀ d w, grows self w (snd (rec d w))) →
  ∀ d w, grows self w (snd (ensure rec self d w)).
Proof.
  intros Hrec d w. unfold ensure, py_bind, py_get.
  destruct (bool_decide _); [apply grows_refl|apply Hrec].
Qed.

Lemma compute_metric_grows fuel self :
  ∀ name w, grows self w (snd (compute_metric fuel self name w)).
Proof.
  induction fuel as [|fuel IH]; intros name w; [apply grows_refl|].
  rewrite compute_metric_S.
  destruct (dict_get _ name) as [[func ds]|]; [|apply grows_refl].
  unfold py_bind at 1.
  pose proof (py_for_grows self _ ds (ensure_grows self _ IH) w) as Hloop.
  destruct (py_for ds _ w) as [[e|[]] w1]; simpl in Hloop; [exact Hloop|].
  unfold py_bind, py_get.
  destruct (dict_comprehension (values_of self w1) ds) as [e|kw]; simpl; [exact Hloop|].
  eapply grows_trans; [exact Hloop|].
  split; simpl.
  - intros l Hl. rewrite lookup_insert_ne by congruence. reflexivity.
  - unfold values_of at 2. simpl. rewrite lookup_insert_eq. simpl.
    rewrite dom_insert_L. unfold values_of. simpl. set_solver.
Qed.

(** A call that returns has run the loop, bound the arguments, called the
    function and stored its value. *)
Lemma compute_metric_returns fuel self name w w2 :
  compute_metric fuel self name w = (inr (), w2) →
  ∃ fuel' func ds w1 kw,
    fuel = S fuel'
    ∧ dict_get (_metrics self) name = Some (func, ds)
    ∧ py_for ds (ensure (compute_metric fuel' self) self) w = (inr (), w1)
    ∧ dict_comprehension (values_of self w1) ds = inr kw
    ∧ w2 = {| dicts := <[metric_values self := <[name := func kw]> (values_of self w1)]> (dicts w1);
              calls := name :: calls w1 |}.
Proof.
  destruct fuel as [|fuel]; [discriminate|]. rewrite compute_metric_S.
  destruct (dict_get _ name) as [[func ds]|] eqn:Hget; [|discriminate].
  unfold py_bind at 1.
  destruct (py_for ds _ w) as [[e|[]] w1] eqn:Hloop; [discriminate|].
  unfold py_bind, py_get.
  destruct (dict_comprehension (values_of self w1) ds) as [e|kw] eqn:Hkw; simpl;
    [discriminate|].
  intros [= <-]. exists fuel, func, ds, w1, kw. auto.
Qed.

Lemma dict_comprehension_ok (d : gmap string V) ks kw :
  dict_comprehension d ks = inr kw → ∀ k, k ∈ ks → k ∈ dom d.
Proof.
  revert kw. induction ks as [|k ks IH]; intros kw; simpl.
  - intros _ k Hk. inversion Hk.
  - destruct (d !! k) as [v|] eqn:Hk; [|discriminate].
    destruct (dict_comprehension d ks) as [e|kw'] eqn:E; simpl; [discriminate|].
    intros _ k' Hk'. apply elem_of_cons in Hk' as [->|Hk'].
    + apply elem_of_dom. eauto.
    + eapply IH; eauto.
Qed.

Lemma dict_comprehension_total (d : gmap string V) ks :
  (∀ k, k ∈ ks → k ∈ dom d) → ∃ kw, dict_comprehension d ks = inr kw.
Proof.
  induction ks as [|k ks IH]; intros H; simpl; [eauto|].
  destruct (proj1 (elem_of_dom d k) (H k ltac:(left))) as [v ->].
  destruct IH as [kw ->]; [intros k' Hk'; apply H; right; exact Hk'|].
  simpl. eauto.
Qed.

Lemma dict_comprehension_insert (d : gmap string V) ks k v :
  k ∉ ks → dict_comprehension (<[k := v]> d) ks = dict_comprehension d ks.
Proof.
  induction ks as [|k' ks IH]; intros Hk; simpl; [reflexivity|].
  apply not_elem_of_cons in Hk as [Hne Hk].
  rewrite lookup_insert_ne by congruence. rewrite IH by assumption. reflexivity.
Qed.

(** With every dependency cached the loop calls nothing. *)
Lemma py_for_ensure_cached self rec ds w :
  (∀ d, d ∈ ds → d ∈ dom (values_of self w)) →
  py_for ds (ensure rec self) w = (inr (), w).
Proof.
  induction ds as [|d ds IH]; intros H; simpl; [reflexivity|].
  unfold py_bind at 1. unfold ensure at 1. unfold py_bind, py_get.
  rewrite bool_decide_eq_true_2 by (apply H; left).
  simpl. apply IH. intros d' Hd'. apply H. right. exact Hd'.
Qed.

Lemma compute_metric_caches fuel self name w w' :
  compute_metric fuel self name w = (inr (), w') → name ∈ dom (values_of self w').
Proof.
  intros H. destruct (compute_metric_returns _ _ _ _ _ H)
    as (fuel' & func & ds & w1 & kw & _ & _ & _ & _ & ->).
  unfold values_of. simpl. rewrite lookup_insert_eq. simpl.
  rewrite dom_insert_L. set_solver.
Qed.

(** After a loop that returns, every dependency is cached. *)
Lemma py_for_ensure_returns self fuel ds w w' :
  py_for ds (ensure (compute_metric fuel self) self) w = (inr (), w') →
  ∀ d, d ∈ ds → d ∈ dom (values_of self w').
Proof.
  revert w. induction ds as [|d ds IH]; intros w; simpl.
  - intros _ d Hd. inversion Hd.
  - unfold py_bind at 1.
    destruct (ensure _ self d w) as [[e|[]] w1] eqn:Hd; [discriminate|].
    intros Hrest d' Hd'.
    apply elem_of_cons in Hd' as [->|Hd']; [|eapply IH; eauto].
    pose proof (py_for_grows self _ ds
      (ensure_grows self _ (compute_metric_grows fuel self)) w1) as [_ Hsub].
    rewrite Hrest in Hsub. simpl in Hsub. apply Hsub.
    unfold ensure, py_bind, py_get in Hd.
    destruct (bool_decide _) eqn:Hc.
    + injection Hd as <-. apply bool_decide_eq_true in Hc. exact Hc.
    + eapply compute_metric_caches. exact Hd.
Qed.

(** C1, amended: [compute_metric] serves the dependencies from the cache,
    never the metric it is asked for: a call that returns has called the
    function of the name, last.  Called again on a name it has just
    computed, it returns again, calls the function of that name once more
    and calls no other function; the dictionary of values is the same after
    the second call when the name is not among its own dependencies. *)
Theorem C1_compute_metric_again fuel fuel' self name w w1 func ds :
  compute_metric fuel self name w = (inr (), w1) →
  dict_get (_metrics self) name = Some (func, ds) →
  let r := compute_metric (S fuel') self name w1 in
  hd_error (calls w1) = Some name
  ∧ is_Some (values_of self w1 !! name)
  ∧ fst r = inr ()
  ∧ calls (snd r) = name :: calls w1
  ∧ (name ∉ ds → dicts (snd r) = dicts w1).
Proof.
  intros Hrun Hget r.
  destruct (compute_metric_returns _ _ _ _ _ Hrun)
    as (fuel0 & func0 & ds0 & w0 & kw & -> & Hget0 & Hloop & Hkw & ->).
  rewrite Hget in Hget0. injection Hget0 as <- <-.
  set (w1 := {| dicts := _; calls := _ |}) in *.
  assert (Hvals : values_of self w1 = <[name := func kw]> (values_of self w0)).
  { unfold values_of at 1. simpl. rewrite lookup_insert_eq. reflexivity. }
  assert (Hcached : ∀ d, d ∈ ds → d ∈ dom (values_of self w1)).
  { intros d Hd. rewrite Hvals, dom_insert_L.
    apply elem_of_union_r. eapply dict_comprehension_ok; eauto. }
  destruct (dict_comprehension_total _ _ Hcached) as [kw' Hkw'].
  assert (Hr : r = (inr (),
             {| dicts := <[metric_values self := <[name := func kw']> (values_of self w1)]> (dicts w1);
                calls := name :: calls w1 |})).
  { subst r. rewrite compute_metric_S, Hget. unfold py_bind at 1.
    rewrite (py_for_ensure_cached _ _ _ _ Hcached).
    unfold py_bind, py_get. rewrite Hkw'. reflexivity. }
  rewrite Hr. simpl. split; [|split; [|split; [|split]]]; try reflexivity.
  - rewrite Hvals, lookup_insert_eq. eauto.
  - intros Hself.
    rewrite Hvals, dict_comprehension_insert in Hkw' by assumption.
    rewrite Hkw in Hkw'. injection Hkw' as <-.
    rewrite Hvals, !insert_insert_eq. reflexivity.
Qed.

(** The operations write into the evaluator's own dictionary only. *)
Lemma run_op_frame fuel (o : op V) self w :
  metric_values (fst (run_op fuel o (self, w))) = metric_values self
  ∧ ∀ l, l ≠ metric_values self →
      dicts (snd (run_op fuel o (self, w))) !! l = dicts w !! l.
Proof.
  destruct o as [name func ds|names|name|name]; simpl.
  - auto.
  - split; [reflexivity|]. unfold compute.
    apply (py_for_grows self _ _ (compute_metric_grows fuel self) w).
  - split; [reflexivity|]. apply (compute_metric_grows fuel self name w).
  - split; [reflexivity|]. intros l _. unfold metric, py_bind, py_get.
    destruct (_ !! name); reflexivity.
Qed.

Lemma run_ops_frame fuel (ops : list (op V)) self w :
  metric_values (fst (run_ops fuel ops (self, w))) = metric_values self
  ∧ ∀ l, l ≠ metric_values self →
      dicts (snd (run_ops fuel ops (self, w))) !! l = dicts w !! l.
Proof.
  revert self w. induction ops as [|o ops IH]; intros self w; [simpl; auto|].
  change (run_ops fuel (o :: ops) (self, w))
    with (run_ops fuel ops (run_op fuel o (self, w))).
  destruct (run_op_frame fuel o self w) as [Hmv Hframe].
  destruct (run_op fuel o (self, w)) as [self1 w1]. simpl in *.
  destruct (IH self1 w1) as [Hmv' Hframe']. split; [congruence|].
  intros l Hl. rewrite Hframe' by congruence. apply Hframe. exact Hl.
Qed.

(** C10: given a dictionary, [__init__] returns an evaluator on a copy of
    it; whatever is then registered, computed and read on the evaluator,
    the dictionary of the caller keeps its entries. *)
Theorem C10_initial_metrics_kept (w : World V) initial_metrics d fuel ops :
  dicts w !! initial_metrics = Some d →
  ∃ self w1,
    __init__ initial_metrics w = (inr self, w1)
    ∧ metric_values self ≠ initial_metrics
    ∧ values_of self w1 = d
    ∧ dicts (snd (run_ops fuel ops (self, w1))) !! initial_metrics = Some d.
Proof.
  intros Hd. unfold __init__, py_bind, py_get. rewrite Hd. simpl.
  eexists _, _. split; [reflexivity|]. simpl.
  assert (Hne : fresh (dom (dicts w)) ≠ initial_metrics).
  { intros <-. rewrite fresh_unused in Hd. discriminate. }
  split; [exact Hne|split].
  - unfold values_of. simpl. rewrite lookup_insert_eq. reflexivity.
  - rewrite (proj2 (run_ops_frame fuel ops _ _)) by (simpl; congruence).
    simpl. rewrite lookup_insert_ne by assumption. exact Hd.
Qed.

End evaluator_facts.

(** C1, as stated, fails: after a first [compute_metric] the name "z" is
    cached, and a second one calls its function again; and a recipe that
    reads the seed of its own name yields another value each time. *)
Lemma C1_counterexample :
  let self : Evaluator Z :=
    add_metric {| metric_values := 0%nat; _metrics := [] |} "z" (λ _, 7) [] in
  let w := {| dicts := {[ 0%nat := ∅ ]}; calls := [] |} in
  let w1 := snd (compute_metric 5 self "z" w) in
  let w2 := snd (compute_metric 5 self "z" w1) in
  let self' : Evaluator Z :=
    add_metric {| metric_values := 0%nat; _metrics := [] |} "x"
      (λ kw, default 0 (kw !! "x") + 1) ["x"] in
  let u := {| dicts := {[ 0%nat := {[ "x" := 1 ]} ]}; calls := [] |} in
  let u1 := snd (compute_metric 5 self' "x" u) in
  let u2 := snd (compute_metric 5 self' "x" u1) in
  (values_of self w1 !! "z" = Some 7 ∧ calls w1 = ["z"] ∧ calls w2 = ["z"; "z"])
  ∧ (values_of self' u1 !! "x" = Some 2 ∧ values_of self' u2 !! "x" = Some 3).
Proof. repeat split; vm_compute; reflexivity. Qed.

Lemma C1_compute_metric_again_witness :
  let self : Evaluator Z :=
    add_metric (add_metric {| metric_values := 0%nat; _metrics := [] |}
      "y" (λ kw, default 0 (kw !! "x") * 2) ["x"])
      "z" (λ kw, default 0 (kw !! "x") + default 0 (kw !! "y")) ["x"; "y"] in
  let w := {| dicts := {[ 0%nat := {[ "x" := 1 ]} ]}; calls := [] |} in
  let w1 := snd (compute_metric 5 self "z" w) in
  calls (snd (compute_metric 1 self "z" w1)) = "z" :: calls w1.
Proof.
  intros self w w1.
  refine (proj1 (proj2 (proj2 (proj2 (C1_compute_metric_again 5 0 self "z" w w1
    (λ kw, default 0 (kw !! "x") + default 0 (kw !! "y")) ["x"; "y"] _ _))))).
  - vm_compute. reflexivity.
  - reflexivity.
Defined.

Lemma C10_initial_metrics_kept_witness :
  let w : World Z := {| dicts := {[ 0%nat := {[ "x" := 1 ]} ]}; calls := [] |} in
  let ops := [AddMetric "z" (λ kw, default 0 (kw !! "x") + 1) ["x"];
              Compute None; Metric "z"; ComputeMetric "q"] in
  ∃ self w1,
    __init__ 0%nat w = (inr self, w1)
    ∧ dicts (snd (run_ops 5 ops (self, w1))) !! 0%nat = Some {[ "x" := 1 ]}.
Proof.
  intros w ops.
  destruct (C10_initial_metrics_kept w 0%nat {[ "x" := 1 ]} 5 ops eq_refl)
    as (self & w1 & Hinit & _ & _ & Hkept).
  exists self, w1. split; assumption.
Defined.

(** ** The evaluator with functions that raise: C2

    The facts of [compute_metric] once more, where the function of a recipe
    may raise. *)

Section raising_facts.
Context {V : Type}.
Implicit Types (self : raising.Evaluator V) (w : World V).

Lemma raising_compute_metric_S fuel self name :
  raising.compute_metric (S fuel) self name =
  match dict_get (raising._metrics self) name with
  | None => py_raise (KeyError name)
  | Some (func, dependencies) =>
      (py_for dependencies (raising.ensure (raising.compute_metric fuel self) self) ;;;
       let* w := py_get in
       let* dependency_values :=
         py_lift (dict_comprehension (raising.values_of self w) dependencies) in
       let* values := raising.call name func dependency_values in
       raising.store_value self name values)%py
  end.
Proof. reflexivity. Qed.

Lemma raising_grows_refl self w : raising.grows self w w.
Proof. split; [reflexivity|set_solver]. Qed.

Lemma raising_grows_trans self w1 w2 w3 :
  raising.grows self w1 w2 → raising.grows self w2 w3 → raising.grows self w1 w3.
Proof.
  intros [H1 H1'] [H2 H2']. split.
  - intros l Hl. rewrite H2, H1 by assumption. reflexivity.
  - set_solver.
Qed.

Lemma raising_py_for_grows self (body : string → Py (World V) ()) ds :
  (∀ d w, raising.grows self w (snd (body d w))) →
  ∀ w, raising.grows self w (snd (py_for ds body w)).
Proof.
  intros Hbody. induction ds as [|d ds IH]; intros w; simpl.
  - apply raising_grows_refl.
  - unfold py_bind. specialize (Hbody d w).
    destruct (body d w) as [[e|[]] w1]; simpl in *; [assumption|].
    eapply raising_grows_trans; [exact Hbody|apply IH].
Qed.

Lemma raising_ensure_grows self rec :
  (∀ d w, raising.grows self w (snd (rec d w))) →
  ∀ d w, raising.grows self w (snd (raising.ensure rec self d w)).
Proof.
  intros Hrec d w. unfold raising.ensure, py_bind, py_get.
  destruct (bool_decide _); [apply raising_grows_refl|apply Hrec].
Qed.

(** What the steps after the loop do, from the state [w1] the loop leaves:
    they raise the KeyError of the dictionary comprehension or the
    exception of the function, after counting its call, or they store the
    value. *)
Lemma raising_compute_metric_tail self name (func : gmap string V → exn + V) ds w1 :
  (let* w := py_get in
   let* dependency_values :=
     py_lift (dict_comprehension (raising.values_of self w) ds) in
   let* values := raising.call name func dependency_values in
   raising.store_value self name values)%py w1
  = match dict_comprehension (raising.values_of self w1) ds with
    | inl e => (inl e, w1)
    | inr kw =>
        match func kw with
        | inl e => (inl e, {| dicts := dicts w1; calls := name :: calls w1 |})
        | inr v =>
            (inr (),
             {| dicts := <[raising.metric_values self := <[name := v]> (raising.values_of self w1)]> (dicts w1);
                calls := name :: calls w1 |})
        end
    end.
Proof.
  unfold py_bind, py_get.
  destruct (dict_comprehension (raising.values_of self w1) ds) as [e|kw]; simpl;
    [reflexivity|].
  unfold raising.call. destruct (func kw) as [e|v]; reflexivity.
Qed.

Lemma raising_compute_metric_grows fuel self :
  ∀ name w, raising.grows self w (snd (raising.compute_metric fuel self name w)).
Proof.
  induction fuel as [|fuel IH]; intros name w; [apply raising_grows_refl|].
  rewrite raising_compute_metric_S.
  destruct (dict_get _ name) as [[func ds]|]; [|apply raising_grows_refl].
  unfold py_bind at 1.
  pose proof (raising_py_for_grows self _ ds (raising_ensure_grows self _ IH) w) as Hloop.
  destruct (py_for ds _ w) as [[e|[]] w1]; simpl in Hloop; [exact Hloop|].
  rewrite raising_compute_metric_tail.
  destruct (dict_comprehension (raising.values_of self w1) ds) as [e|kw]; [exact Hloop|].
  eapply raising_grows_trans; [exact Hloop|].
  destruct (func kw) as [e|v]; [split; [reflexivity|apply reflexivity]|].
  split; simpl.
  - intros l Hl. rewrite lookup_insert_ne by congruence. reflexivity.
  - unfold raising.values_of at 2. simpl. rewrite lookup_insert_eq. simpl.
    rewrite dom_insert_L. unfold raising.values_of. simpl. set_solver.
Qed.

(** A call that returns has run the loop, bound the arguments, called the
    function, which returned, and stored its value. *)
Lemma raising_compute_metric_returns fuel self name w w2 :
  raising.compute_metric fuel self name w = (inr (), w2) →
  ∃ fuel' func ds w1 kw v,
    fuel = S fuel'
    ∧ dict_get (raising._metrics self) name = Some (func, ds)
    ∧ py_for ds (raising.ensure (raising.compute_metric fuel' self) self) w = (inr (), w1)
    ∧ dict_comprehension (raising.values_of self w1) ds = inr kw
    ∧ func kw = inr v
    ∧ w2 = {| dicts := <[raising.metric_values self := <[name := v]> (raising.values_of self w1)]> (dicts w1);
              calls := name :: calls w1 |}.
Proof.
  destruct fuel as [|fuel]; [discriminate|]. rewrite raising_compute_metric_S.
  destruct (dict_get _ name) as [[func ds]|] eqn:Hget; [|discriminate].
  unfold py_bind at 1.
  destruct (py_for ds _ w) as [[e|[]] w1] eqn:Hloop; [discriminate|].
  rewrite raising_compute_metric_tail.
  destruct (dict_comprehension (raising.values_of self w1) ds) as [e|kw] eqn:Hkw;
    [discriminate|].
  destruct (func kw) as [e|v] eqn:Hv; [discriminate|].
  intros [= <-]. exists fuel, func, ds, w1, kw, v. auto 10.
Qed.

Lemma raising_compute_metric_caches fuel self name w w' :
  raising.compute_metric fuel self name w = (inr (), w') →
  name ∈ dom (raising.values_of self w').
Proof.
  intros H. destruct (raising_compute_metric_returns _ _ _ _ _ H)
    as (fuel' & func & ds & w1 & kw & v & _ & _ & _ & _ & _ & ->).
  unfold raising.values_of. simpl. rewrite lookup_insert_eq. simpl.
  rewrite dom_insert_L. set_solver.
Qed.

(** With every dependency cached the loop calls nothing. *)
Lemma raising_py_for_ensure_cached self rec ds w :
  (∀ d, d ∈ ds → d ∈ dom (raising.values_of self w)) →
  py_for ds (raising.ensure rec self) w = (inr (), w).
Proof.
  induction ds as [|d ds IH]; intros H; simpl; [reflexivity|].
  unfold py_bind at 1. unfold raising.ensure at 1. unfold py_bind, py_get.
  rewrite bool_decide_eq_true_2 by (apply H; left).
  simpl. apply IH. intros d' Hd'. apply H. right. exact Hd'.
Qed.

(** After a loop that returns, every dependency is cached. *)
Lemma raising_py_for_ensure_returns self fuel ds w w' :
  py_for ds (raising.ensure (raising.compute_metric fuel self) self) w = (inr (), w') →
  ∀ d, d ∈ ds → d ∈ dom (raising.values_of self w').
Proof.
  revert w. induction ds as [|d ds IH]; intros w; simpl.
  - intros _ d Hd. inversion Hd.
  - unfold py_bind at 1.
    destruct (raising.ensure _ self d w) as [[e|[]] w1] eqn:Hd; [discriminate|].
    intros Hrest d' Hd'.
    apply elem_of_cons in Hd' as [->|Hd']; [|eapply IH; eauto].
    pose proof (raising_py_for_grows self _ ds
      (raising_ensure_grows self _ (raising_compute_metric_grows fuel self)) w1) as [_ Hsub].
    rewrite Hrest in Hsub. simpl in Hsub. apply Hsub.
    unfold raising.ensure, py_bind, py_get in Hd.
    destruct (bool_decide _) eqn:Hc.
    + injection Hd as <-. apply bool_decide_eq_true in Hc. exact Hc.
    + eapply raising_compute_metric_caches. exact Hd.
Qed.

(** The failures of [compute_metric]: the depth of recursion, the lookup of
    a name that is not registered, or what the function of a recipe raises.
    The name that is not registered is the one asked for, or it is a
    dependency of a registered recipe and is not cached. *)
Lemma raising_compute_metric_raises fuel self :
  ∀ name w e w', raising.compute_metric fuel self name w = (inl e, w') →
    e = RecursionError
    ∨ (∃ k, e = KeyError k ∧ dict_get (raising._metrics self) k = None
            ∧ (k = name
               ∨ (k ∉ dom (raising.values_of self w)
                  ∧ ∃ n func ds, dict_get (raising._metrics self) n = Some (func, ds)
                                 ∧ k ∈ ds)))
    ∨ raising.raised_by_recipe self e.
Proof.
  induction fuel as [|fuel IH]; intros name w e w'; [intros [= <- _]; auto|].
  rewrite raising_compute_metric_S.
  destruct (dict_get _ name) as [[func ds]|] eqn:Hget.
  2:{ intros [= <- _]. right. left. eauto. }
  unfold py_bind at 1.
  destruct (py_for ds _ w) as [[e1|[]] w1] eqn:Hloop.
  - intros [= <- _].
    assert (Hdep : ∀ d, d ∈ ds →
              ∃ n func ds, dict_get (raising._metrics self) n = Some (func, ds) ∧ d ∈ ds)
      by eauto.
    clear Hget.
    revert w Hloop. induction ds as [|d ds IHds]; intros w; simpl; [discriminate|].
    unfold py_bind at 1.
    destruct (raising.ensure _ self d w) as [[e2|[]] w2] eqn:Hd.
    + intros [= <- _]. unfold raising.ensure, py_bind, py_get in Hd.
      destruct (bool_decide _) eqn:Hc; [discriminate|].
      apply bool_decide_eq_false in Hc.
      destruct (IH _ _ _ _ Hd) as [->|[(k & -> & Hk & Hor)|Hr]]; [auto| |auto].
      right. left. exists k. split; [reflexivity|split; [assumption|]].
      right. destruct Hor as [->|Hor]; [|assumption].
      split; [assumption|]. apply Hdep. left.
    + intros Hrest.
      destruct (IHds ltac:(intros d' Hd'; apply Hdep; right; exact Hd') _ Hrest)
        as [->|[(k & -> & Hk & Hor)|Hr]]; [auto| |auto].
      right. left. exists k. split; [reflexivity|split; [assumption|]].
      destruct Hor as [->|[Hor Hin]]; [left; reflexivity|right].
      split; [|exact Hin].
      pose proof (raising_ensure_grows self _ (raising_compute_metric_grows fuel self) d w)
        as [_ Hsub].
      rewrite Hd in Hsub. simpl in Hsub. set_solver.
  - rewrite raising_compute_metric_tail.
    destruct (dict_comprehension (raising.values_of self w1) ds) as [e2|kw] eqn:Hkw.
    + exfalso.
      destruct (dict_comprehension_total (raising.values_of self w1) ds) as [kw Hkw'];
        [eapply raising_py_for_ensure_returns; eauto|congruence].
    + destruct (func kw) as [e2|v] eqn:Hv; [|discriminate].
      intros [= <- _]. right. right. exists name, func, ds, kw. auto.
Qed.

Section resolution.
Variables (self : raising.Evaluator V) (w0 : World V).

Lemma raising_blocked_initially : raising.blocked self w0 w0.
Proof. intros x Hx. inversion Hx; assumption. Qed.

Lemma raising_compute_metric_blocked fuel :
  ∀ name w r w', raising.blocked self w0 w →
    raising.compute_metric fuel self name w = (r, w') →
    raising.blocked self w0 w'
    ∧ (r = inr () → ∀ func ds d,
         dict_get (raising._metrics self) name = Some (func, ds) → d ∈ ds →
         ¬ raising.unresolved self w0 d).
Proof.
  induction fuel as [|fuel IH]; intros name w r w' Hb.
  { intros [= <- <-]. split; [assumption|discriminate]. }
  rewrite raising_compute_metric_S.
  destruct (dict_get _ name) as [[func ds]|] eqn:Hget.
  2:{ intros [= <- <-]. split; [assumption|discriminate]. }
  unfold py_bind at 1.
  destruct (py_for ds _ w) as [[e1|[]] w1] eqn:Hloop.
  - intros [= <- <-]. split; [|discriminate].
    clear Hget. revert w Hb Hloop.
    induction ds as [|d ds IHds]; intros w Hb; simpl; [discriminate|].
    unfold py_bind at 1.
    destruct (raising.ensure _ self d w) as [[e2|[]] w2] eqn:Hd.
    + intros [= _ <-]. unfold raising.ensure, py_bind, py_get in Hd.
      destruct (bool_decide _); [discriminate|]. eapply IH; eauto.
    + apply IHds. unfold raising.ensure, py_bind, py_get in Hd.
      destruct (bool_decide _); [injection Hd as <-; assumption|]. eapply IH; eauto.
  - assert (Hb1 : raising.blocked self w0 w1).
    { clear Hget. revert w Hb Hloop.
      induction ds as [|d ds IHds]; intros w Hb; simpl; [intros [= <-]; assumption|].
      unfold py_bind at 1.
      destruct (raising.ensure _ self d w) as [[e2|[]] w2] eqn:Hd; [discriminate|].
      apply IHds. unfold raising.ensure, py_bind, py_get in Hd.
      destruct (bool_decide _); [injection Hd as <-; assumption|]. eapply IH; eauto. }
    assert (Hdeps : ∀ d, d ∈ ds → ¬ raising.unresolved self w0 d).
    { intros d Hd Hu. apply (Hb1 d Hu). eapply raising_py_for_ensure_returns; eauto. }
    rewrite raising_compute_metric_tail.
    destruct (dict_comprehension (raising.values_of self w1) ds) as [e2|kw].
    + intros [= <- <-]. split; [assumption|discriminate].
    + destruct (func kw) as [e2|v].
      * intros [= <- <-]. split; [exact Hb1|discriminate].
      * intros [= <- <-]. split.
        -- intros x Hx. unfold raising.values_of. simpl. rewrite lookup_insert_eq. simpl.
           rewrite dom_insert_L. apply not_elem_of_union. split; [|apply Hb1; assumption].
           apply not_elem_of_singleton. intros ->.
           inversion Hx as [? _ Hnone|? func' ds' d' _ Hsome Hin Hu]; subst.
           ++ congruence.
           ++ rewrite Hget in Hsome. injection Hsome as <- <-. exact (Hdeps _ Hin Hu).
        -- intros _ func' ds' d Hsome Hin. injection Hsome as <- <-. auto.
Qed.

(** Below the depth [rank] asks for, a call fails by the lookup of a name
    that is neither registered nor cached, or by the function of a recipe:
    the recursion does not run out. *)
Lemma raising_compute_metric_depth rank :
  raising.acyclic self w0 rank →
  ∀ fuel name w e w', dom (raising.values_of self w0) ⊆ dom (raising.values_of self w) →
    (rank name < fuel)%nat →
    raising.compute_metric fuel self name w = (inl e, w') →
    (∃ k, e = KeyError k ∧ dict_get (raising._metrics self) k = None
          ∧ (k = name ∨ k ∉ dom (raising.values_of self w)))
    ∨ raising.raised_by_recipe self e.
Proof.
  intros Hacyc. induction fuel as [|fuel IH]; intros name w e w' Hsub Hrank; [lia|].
  rewrite raising_compute_metric_S.
  destruct (dict_get _ name) as [[func ds]|] eqn:Hget.
  2:{ intros [= <- _]. left. eauto. }
  unfold py_bind at 1.
  destruct (py_for ds _ w) as [[e1|[]] w1] eqn:Hloop.
  - intros [= <- _].
    assert (Hds : ∀ d, d ∈ ds → d ∉ dom (raising.values_of self w0) → (rank d < fuel)%nat).
    { intros d Hd Hn. pose proof (Hacyc _ _ _ _ Hget Hd Hn). lia. }
    clear Hget. revert w Hsub Hloop.
    induction ds as [|d ds IHds]; intros w Hsub; simpl; [discriminate|].
    unfold py_bind at 1.
    destruct (raising.ensure _ self d w) as [[e2|[]] w2] eqn:Hd.
    + intros [= <- _]. unfold raising.ensure, py_bind, py_get in Hd.
      destruct (bool_decide _) eqn:Hc; [discriminate|].
      apply bool_decide_eq_false in Hc.
      destruct (IH d w e2 w2 Hsub) as [(k & -> & Hk & Hor)|Hr]; [|exact Hd| |auto].
      * apply Hds; [left|set_solver].
      * left. exists k. split; [reflexivity|split; [assumption|]].
        right. destruct Hor as [->|Hor]; assumption.
    + intros Hrest.
      pose proof (raising_ensure_grows self _ (raising_compute_metric_grows fuel self) d w)
        as [_ Hsub'].
      rewrite Hd in Hsub'. simpl in Hsub'.
      destruct (IHds ltac:(intros d' Hd'; apply Hds; right; exact Hd') w2
                  ltac:(set_solver) Hrest) as [(k & -> & Hk & Hor)|Hr]; [|auto].
      left. exists k. split; [reflexivity|split; [assumption|]].
      destruct Hor as [->|Hor]; [left; reflexivity|right; set_solver].
  - rewrite raising_compute_metric_tail.
    destruct (dict_comprehension (raising.values_of self w1) ds) as [e2|kw] eqn:Hkw.
    + exfalso.
      destruct (dict_comprehension_total (raising.values_of self w1) ds) as [kw Hkw'];
        [eapply raising_py_for_ensure_returns; eauto|congruence].
    + destruct (func kw) as [e2|v] eqn:Hv; [|discriminate].
      intros [= <- _]. right. exists name, func, ds, kw. auto.
Qed.

End resolution.

(** C2, amended: when a recipe has a dependency that is unresolved (not
    cached, and leading through names that are not cached to a name that is
    neither cached nor registered), [compute_metric] on it never returns;
    when moreover no cycle runs through the names that are not cached, it
    raises, at every depth of recursion above the rank of the recipe,
    KeyError on a name that is neither registered nor cached, unless the
    function of a recipe raised before.  The failures of the evaluator
    itself are that KeyError and the exhaustion of the recursion (a
    cycle): a failure of [compute_metric] is one of the two or is what the
    function of a recipe raised; [metric] raises KeyError on a name without
    a value. *)
Theorem C2_unresolved_dependency self w name func ds d rank :
  dict_get (raising._metrics self) name = Some (func, ds) → d ∈ ds →
  raising.unresolved self w d →
  (∀ fuel, fst (raising.compute_metric fuel self name w) ≠ inr ())
  ∧ (raising.acyclic self w rank → ∀ fuel, (rank name < fuel)%nat →
     ∃ e, fst (raising.compute_metric fuel self name w) = inl e
       ∧ ((∃ k, e = KeyError k ∧ dict_get (raising._metrics self) k = None
               ∧ k ∉ dom (raising.values_of self w))
          ∨ raising.raised_by_recipe self e))
  ∧ (∀ fuel n e, fst (raising.compute_metric fuel self n w) = inl e →
     e = RecursionError
     ∨ (∃ k, e = KeyError k ∧ dict_get (raising._metrics self) k = None)
     ∨ raising.raised_by_recipe self e)
  ∧ (∀ n, n ∉ dom (raising.values_of self w) →
     fst (raising.metric self n w) = inl (KeyError n)).
Proof.
  intros Hget Hd Hu.
  assert (Hnever : ∀ fuel, fst (raising.compute_metric fuel self name w) ≠ inr ()).
  { intros fuel Hok.
    destruct (raising.compute_metric fuel self name w) as [r w'] eqn:E. simpl in Hok.
    destruct (raising_compute_metric_blocked self w fuel name w r w'
                (raising_blocked_initially self w) E) as [_ H].
    exact (H Hok _ _ _ Hget Hd Hu). }
  split; [exact Hnever|split; [|split]].
  - intros Hacyc fuel Hrank. specialize (Hnever fuel).
    destruct (raising.compute_metric fuel self name w) as [[e|[]] w'] eqn:E; simpl in *;
      [|congruence].
    exists e. split; [reflexivity|].
    destruct (raising_compute_metric_depth self w rank Hacyc fuel name w e w'
                ltac:(set_solver) Hrank E) as [(k & -> & Hk & Hor)|Hr]; [|auto].
    left. exists k. split; [reflexivity|split; [assumption|]].
    destruct Hor as [->|Hor]; [congruence|assumption].
  - intros fuel n e He.
    destruct (raising.compute_metric fuel self n w) as [[e'|[]] w'] eqn:E; simpl in He;
      [|discriminate].
    injection He as ->.
    destruct (raising_compute_metric_raises _ _ _ _ _ _ E)
      as [->|[(k & -> & Hk & _)|Hr]]; eauto.
  - intros n Hn. unfold raising.metric, py_bind, py_get.
    apply not_elem_of_dom in Hn. rewrite Hn. reflexivity.
Qed.

(** An evaluator of functions that return is the evaluator of [raising]
    on the same functions. *)
Lemma raising_of_dict_get (self : Evaluator V) name :
  dict_get (raising._metrics (raising_of self)) name
  = option_map (λ r : recipe V, ((λ kwargs, inr (r.1 kwargs)), r.2))
               (dict_get (_metrics self) name).
Proof.
  unfold raising_of. simpl. induction (_metrics self) as [|[k [f ds]] rs IH]; simpl;
    [reflexivity|].
  destruct (decide (k = name)); [reflexivity|exact IH].
Qed.

Lemma py_for_ext {S A} (xs : list A) (f g : A → Py S ()) :
  (∀ x σ, f x σ = g x σ) → ∀ σ, py_for xs f σ = py_for xs g σ.
Proof.
  intros H. induction xs as [|x xs IH]; intros σ; simpl; [reflexivity|].
  unfold py_bind. rewrite H. destruct (g x σ) as [[e|[]] σ']; [reflexivity|apply IH].
Qed.

Lemma raising_of_compute_metric fuel (self : Evaluator V) :
  ∀ name w, raising.compute_metric fuel (raising_of self) name w
            = compute_metric fuel self name w.
Proof.
  induction fuel as [|fuel IH]; intros name w; [reflexivity|].
  rewrite raising_compute_metric_S, compute_metric_S, raising_of_dict_get.
  destruct (dict_get (_metrics self) name) as [[func ds]|]; simpl; [|reflexivity].
  unfold py_bind at 1. unfold py_bind at 4.
  rewrite (py_for_ext ds _ (ensure (compute_metric fuel self) self)).
  2:{ intros d σ. unfold raising.ensure, ensure, py_bind, py_get.
      change (raising.values_of (raising_of self) σ) with (values_of self σ).
      destruct (bool_decide _); [reflexivity|apply IH]. }
  destruct (py_for ds _ w) as [[e|[]] w1]; [reflexivity|].
  rewrite raising_compute_metric_tail.
  change (raising.values_of (raising_of self) w1) with (values_of self w1).
  unfold py_bind, py_get.
  destruct (dict_comprehension (values_of self w1) ds) as [e|kw]; reflexivity.
Qed.

End raising_facts.

(** C2, as stated, fails: "missing" is neither seeded nor registered and is
    a dependency of "a", and [compute_metric] on "a" loops through the cycle
    of "b" before it reaches it: it ends at the limit of recursion at every
    depth.  And a recipe whose dependency is cached is computed although the
    recipe of that dependency names a missing one. *)
Lemma C2_counterexample :
  let self : raising.Evaluator Z :=
    raising.add_metric
      (raising.add_metric {| raising.metric_values := 0%nat; raising._metrics := [] |}
         "a" (λ _, inr 0) ["b"; "missing"]) "b" (λ _, inr 0) ["b"] in
  let w := {| dicts := {[ 0%nat := ∅ ]}; calls := [] |} in
  let self' : raising.Evaluator Z :=
    raising.add_metric
      (raising.add_metric {| raising.metric_values := 0%nat; raising._metrics := [] |}
         "a" (λ _, inr 0) ["b"]) "b" (λ _, inr 0) ["missing"] in
  let w' := {| dicts := {[ 0%nat := {[ "b" := 1 ]} ]}; calls := [] |} in
  (dict_get (raising._metrics self) "missing" = None
   ∧ raising.values_of self w !! "missing" = None
   ∧ fst (raising.compute_metric 1000 self "a" w) = inl RecursionError
   ∧ ∀ fuel, raising.compute_metric fuel self "a" w = (inl RecursionError, w))
  ∧ (dict_get (raising._metrics self') "missing" = None
     ∧ raising.values_of self' w' !! "missing" = None
     ∧ fst (raising.compute_metric 2 self' "a" w') = inr ()).
Proof.
  intros self w self' w'.
  assert (Hb : ∀ fuel, raising.compute_metric fuel self "b" w = (inl RecursionError, w)).
  { induction fuel as [|fuel IH]; [reflexivity|].
    rewrite raising_compute_metric_S. simpl. unfold py_bind at 1. simpl.
    unfold py_bind at 1. unfold raising.ensure at 1. unfold py_bind, py_get.
    simpl. rewrite bool_decide_eq_false_2 by (apply not_elem_of_dom; reflexivity).
    rewrite IH. reflexivity. }
  split; [split; [|split; [|split]]|split; [|split]]; try (vm_compute; reflexivity).
  intros [|fuel]; [reflexivity|].
  rewrite raising_compute_metric_S. simpl. unfold py_bind at 1. simpl.
  unfold py_bind at 1. unfold raising.ensure at 1. unfold py_bind, py_get.
  simpl. rewrite bool_decide_eq_false_2 by (apply not_elem_of_dom; reflexivity).
  rewrite Hb. reflexivity.
Qed.

Lemma C2_unresolved_dependency_witness :
  let self : raising.Evaluator Z :=
    raising.add_metric
      (raising.add_metric {| raising.metric_values := 0%nat; raising._metrics := [] |}
         "a" (λ _, inr 0) ["x"; "b"]) "b" (λ _, inl ValueError) ["missing"] in
  let w := {| dicts := {[ 0%nat := {[ "x" := 1 ]} ]}; calls := [] |} in
  ∃ e, fst (raising.compute_metric 3 self "a" w) = inl e
       ∧ ((∃ k, e = KeyError k ∧ dict_get (raising._metrics self) k = None
               ∧ k ∉ dom (raising.values_of self w))
          ∨ raising.raised_by_recipe self e).
Proof.
  intros self w.
  refine (proj1 (proj2 (C2_unresolved_dependency self w "a" (λ _, inr 0) ["x"; "b"] "b"
    (λ n, if decide (n = "a") then 2 else if decide (n = "b") then 1 else 0)%nat
    _ _ _)) _ 3%nat _).
  - reflexivity.
  - set_solver.
  - apply (raising.unresolved_step self w "b" (λ _, inl ValueError) ["missing"] "missing").
    + apply not_elem_of_dom. reflexivity.
    + reflexivity.
    + set_solver.
    + apply raising.unresolved_missing; [apply not_elem_of_dom|]; reflexivity.
  - intros n func ds d Hget Hd _. simpl in Hget.
    destruct (decide ("a" = n)) as [<-|_].
    + injection Hget as _ <-.
      apply elem_of_cons in Hd as [->|Hd]; [compute; lia|].
      apply list_elem_of_singleton in Hd as ->. compute; lia.
    + destruct (decide ("b" = n)) as [<-|_]; [|discriminate].
      injection Hget as _ <-.
      apply list_elem_of_singleton in Hd as ->. compute; lia.
  - simpl. lia.
Defined.

(** * Further properties *)

(** ** The sanitizer: what it hands back *)

Lemma lookup_map {A B} (f : A → B) (l : list A) i :
  map f l !! i = f <$> l !! i.
Proof. revert i. induction l as [|x l IH]; intros [|i]; simpl; auto. Qed.

Lemma view_slice_from {A} (bufs : gmap loc (list A)) a n :
  wf_array bufs a → (n ≤ size a)%nat →
  view bufs (slice_from a n) = drop n (view bufs a).
Proof.
  intros (buf & Hbuf & Hle) Hn. unfold view, slice_from. simpl. rewrite Hbuf. simpl.
  rewrite Nat.min_l by lia.
  rewrite skipn_firstn_comm, drop_drop. reflexivity.
Qed.

Lemma view_blit_zero σ r n :
  wf_array (f64 σ) r → (n ≤ size r)%nat →
  view (<[data r := blit (default [] (f64 σ !! data r)) (offset r) (replicate n 0%float)]> (f64 σ)) r
  = replicate n 0%float ++ drop n (view (f64 σ) r).
Proof.
  intros (buf & Hbuf & Hle) Hn.
  rewrite view_insert_same, Hbuf. simpl.
  rewrite (view_blit _ _ n); [|apply length_replicate|lia|lia].
  unfold view. rewrite Hbuf. reflexivity.
Qed.

(** The result of the sanitizer depends on the contents of its arguments only. *)
Lemma handle_non_finite_returns_contents σ t r l s :
  wf_array (M8 σ) t → wf_array (f64 σ) r → size t = size r →
  sanitized (handle_non_finite_returns t r l s σ)
  = inr (sanitized_contents (view (M8 σ) t) (view (f64 σ) r) l s).
Proof.
  intros Hwt Hwr Hsz.
  pose proof (wf_view_length _ _ Hwr) as Hlr.
  pose proof (wf_view_length _ _ Hwt) as Hlt.
  destruct (sanitized_steps t r l s σ) as (t1 & r1 & σ1 & E1 & ->).
  destruct (leading_step_wf _ _ _ _ _ _ _ Hwr Hsz E1) as [Hlen Hsz1].
  assert (Hc : (view (M8 σ1) t1, view (f64 σ1) r1) =
               let n := Z.to_nat (first_non_nan (view (f64 σ) r)) in
               if l then (view (M8 σ) t, replicate n 0%float ++ drop n (view (f64 σ) r))
               else (drop n (view (M8 σ) t), drop n (view (f64 σ) r))).
  { destruct (leading_step_cases t r l σ) as [[Hn E]|[(Hn & Hl & E)|(Hn & Hl & E)]];
      rewrite E in E1; injection E1 as <- <- <-.
    - replace (Z.to_nat _) with 0%nat by lia. simpl. rewrite !drop_0. destruct l; reflexivity.
    - subst l. destruct (first_non_nan_pos _ Hn) as [Hlt' _]. cbv zeta.
      rewrite !view_slice_from by (assumption || lia). reflexivity.
    - subst l. destruct (first_non_nan_pos _ Hn) as [Hlt' _]. cbv zeta. simpl.
      rewrite view_blit_zero by (assumption || lia). reflexivity. }
  unfold sanitized_contents. cbv zeta in Hc.
  destruct s.
  - rewrite subsequent_step_true. destruct l; injection Hc as -> ->; reflexivity.
  - rewrite subsequent_step_false by congruence.
    destruct l; injection Hc as -> ->; reflexivity.
Qed.

Lemma compress_length_eq {A B} (mask : list bool) (a : list A) (b : list B) :
  length a = length b → length (np.compress mask a) = length (np.compress mask b).
Proof.
  revert a b. induction mask as [|m mask IH]; intros [|x a] [|y b]; simpl;
    try discriminate; try reflexivity.
  intros [= H]. destruct m; simpl; auto.
Qed.

Lemma compress_sublist {A} (mask : list bool) (a : list A) :
  np.compress mask a `sublist_of` a.
Proof.
  revert a. induction mask as [|m mask IH]; intros [|x a]; simpl;
    try apply sublist_nil_l.
  destruct m; [apply sublist_skip|apply sublist_cons]; apply IH.
Qed.

Lemma compress_all {A} (mask : list bool) (a : list A) :
  length mask = length a → Forall (λ b, b = true) mask → np.compress mask a = a.
Proof.
  intros Hlen H. revert a Hlen.
  induction H as [|b mask -> _ IH]; intros [|x a]; simpl; try discriminate; auto.
  intros [= Hlen]. f_equal. auto.
Qed.

Lemma monotonically_increasing_sorted timestamps :
  monotonically_increasing timestamps = true ↔ StronglySorted Z.lt timestamps.
Proof.
  induction timestamps as [|t ts IH].
  - split; [constructor|reflexivity].
  - split.
    + intros H. destruct (monotonically_increasing_cons _ _ H) as [Hall Hm].
      constructor; [apply IH, Hm|exact Hall].
    + intros H. apply StronglySorted_inv in H as [Hs Hall].
      destruct ts as [|t' ts']; [reflexivity|].
      change (monotonically_increasing (t :: t' :: ts'))
        with ((t <? t') && monotonically_increasing (t' :: ts')).
      apply andb_true_iff. split; [|apply IH, Hs].
      apply Z.ltb_lt. inversion Hall; assumption.
Qed.

Lemma Forall_sublist {A} (P : A → Prop) (l k : list A) :
  l `sublist_of` k → Forall P k → Forall P l.
Proof.
  intros Hsub. induction Hsub as [|x l k Hsub IH|x l k Hsub IH]; intros H.
  - constructor.
  - inversion H; subst. constructor; auto.
  - inversion H; subst. auto.
Qed.

Lemma monotonically_increasing_sublist l k :
  l `sublist_of` k → monotonically_increasing k = true →
  monotonically_increasing l = true.
Proof.
  rewrite !monotonically_increasing_sorted. intros Hsub Hk.
  induction Hsub as [|x l k Hsub IH|x l k Hsub IH].
  - constructor.
  - apply StronglySorted_inv in Hk as [Hs Hall].
    constructor; [auto|]. exact (Forall_sublist _ _ _ Hsub Hall).
  - apply StronglySorted_inv in Hk as [Hs _]. auto.
Qed.

Lemma isfinite_nan_to_num x : np.isfinite x = true → np.nan_to_num x = x.
Proof.
  unfold np.isfinite, np.nan_to_num, np.isnan. rewrite is_finite_spec, is_nan_spec.
  rewrite !FloatAxioms.eqb_spec.
  change (Prim2SF infinity) with (S754_infinity false).
  change (Prim2SF neg_infinity) with (S754_infinity true).
  destruct (Prim2SF x) as [s|s| |s m e]; try discriminate; intros _; destruct s; reflexivity.
Qed.

Lemma first_non_nan_finite rets :
  Forall (λ x, np.isfinite x = true) rets → first_non_nan rets <= 0.
Proof.
  intros H. unfold first_non_nan, np.nonzero.
  destruct H as [|x rets Hx _]; simpl; [lia|].
  replace (np.isnan x) with false; [simpl; lia|].
  unfold np.isfinite, np.isnan in *. rewrite is_finite_spec in Hx. rewrite is_nan_spec.
  destruct (Prim2SF x); try discriminate; reflexivity.
Qed.

(** On finite returns the sanitizer changes nothing. *)
Lemma sanitized_contents_finite timestamps rets l s :
  length timestamps = length rets →
  Forall (λ x, np.isfinite x = true) rets →
  sanitized_contents timestamps rets l s = (timestamps, rets).
Proof.
  intros Hlen Hfin. unfold sanitized_contents.
  pose proof (first_non_nan_finite _ Hfin) as Hn.
  replace (Z.to_nat (first_non_nan rets)) with 0%nat by lia.
  simpl. rewrite !drop_0.
  assert (Hmap : map np.nan_to_num rets = rets).
  { clear -Hfin. induction Hfin as [|x r Hx _ IH]; simpl; [reflexivity|].
    rewrite IH, isfinite_nan_to_num by assumption. reflexivity. }
  assert (Hall : Forall (λ b, b = true) (map np.isfinite rets))
    by (apply Forall_map; exact Hfin).
  destruct l, s; rewrite ?Hmap, ?compress_all by (rewrite ?length_map; auto); reflexivity.
Qed.

Lemma sanitized_contents_aligned timestamps rets l s :
  length timestamps = length rets →
  length (sanitized_contents timestamps rets l s).1
  = length (sanitized_contents timestamps rets l s).2.
Proof.
  intros Hlen. unfold sanitized_contents.
  set (n := Z.to_nat (first_non_nan rets)).
  assert (Hn : (n ≤ length rets)%nat).
  { subst n. destruct (Z_lt_le_dec 0 (first_non_nan rets)) as [H|H].
    - destruct (first_non_nan_pos _ H). lia.
    - lia. }
  destruct l, s; simpl;
    rewrite ?length_map, ?length_app, ?length_replicate, ?length_drop; try lia;
    apply compress_length_eq;
    rewrite ?length_app, ?length_replicate, ?length_drop; lia.
Qed.

Lemma sanitized_contents_finite_out timestamps rets l s :
  Forall (λ x, np.isfinite x = true) (sanitized_contents timestamps rets l s).2.
Proof.
  unfold sanitized_contents.
  destruct l, s; simpl; try apply compress_isfinite;
    apply Forall_map, Forall_forall; intros x _; apply nan_to_num_finite.
Qed.

Lemma sanitized_contents_sublist timestamps rets l s :
  (sanitized_contents timestamps rets l s).1 `sublist_of` timestamps.
Proof.
  unfold sanitized_contents.
  destruct l, s; simpl; try reflexivity; try apply sublist_drop;
    try apply compress_sublist.
  etrans; [apply compress_sublist|apply sublist_drop].
Qed.

Lemma wf_new {A} (bufs : gmap loc (list A)) l (vals : list A) :
  wf_array (<[l := vals]> bufs) {| data := l; offset := 0; size := length vals |}.
Proof. exists vals. simpl. rewrite lookup_insert_eq. split; [reflexivity|lia]. Qed.

(** The arrays that the sanitizer returns are well formed in the store it
    leaves, and have one size. *)
Lemma handle_non_finite_returns_wf σ t r l s :
  wf_array (M8 σ) t → wf_array (f64 σ) r → size t = size r →
  ∃ t' r' σ', handle_non_finite_returns t r l s σ = (inr (t', r'), σ')
    ∧ wf_array (M8 σ') t' ∧ wf_array (f64 σ') r' ∧ size t' = size r'.
Proof.
  intros Hwt Hwr Hsz.
  destruct (sanitized_steps t r l s σ) as (t1 & r1 & σ1 & E1 & ->).
  destruct (leading_step_wf _ _ _ _ _ _ _ Hwr Hsz E1) as [Hlen Hsz1].
  assert (Hwt1 : wf_array (M8 σ1) t1).
  { destruct (leading_step_cases t r l σ) as [[Hn E]|[(Hn & Hl & E)|(Hn & Hl & E)]];
      rewrite E in E1; injection E1 as <- <- <-; try exact Hwt.
    destruct Hwt as (buf & Hbuf & Hle). exists buf. simpl. split; [exact Hbuf|lia]. }
  pose proof (wf_view_length _ _ Hwt1) as Hlt1.
  unfold subsequent_step, py_bind, py_get, py_ret, mask_M8, mask_f64, new_M8, new_f64.
  destruct s; cbv beta iota zeta.
  - eexists _, _, _. split; [reflexivity|]. simpl.
    split; [exact Hwt1|]. split; [apply wf_new|].
    rewrite length_map. congruence.
  - rewrite !length_map. simpl.
    destruct (decide _) as [_|Hn]; [|congruence]. simpl.
    destruct (decide _) as [_|Hn]; [|congruence]. simpl.
    eexists _, _, _. split; [reflexivity|]. simpl.
    split; [apply wf_new|]. split; [apply wf_new|].
    apply compress_length_eq. congruence.
Qed.

(** X26: with [subsequent_non_finite_to_zeros] set, an infinite return is
    not replaced by 0.0: [np.nan_to_num] makes it the largest finite number
    of its sign.  It is never among the leading entries, and it stays at
    its place, moved by the leading entries that were dropped. *)
Theorem sanitize_infinity σ timestamps rets (l : bool) (i : nat) (x : float) :
  wf_array (M8 σ) timestamps → wf_array (f64 σ) rets →
  size timestamps = size rets →
  view (f64 σ) rets !! i = Some x →
  x = infinity ∨ x = neg_infinity →
  let n := if l then 0%nat else Z.to_nat (first_non_nan (view (f64 σ) rets)) in
  ∃ t' r', sanitized (handle_non_finite_returns timestamps rets l true σ) = inr (t', r')
    ∧ (n ≤ i)%nat
    ∧ r' !! (i - n)%nat
      = Some (if PrimFloat.eqb x infinity then np.float_max else PrimFloat.opp np.float_max).
Proof.
  intros Hwt Hwr Hsz Hi Hx n.
  rewrite handle_non_finite_returns_contents by assumption.
  set (R := view (f64 σ) rets) in *. set (T := view (M8 σ) timestamps).
  set (m := Z.to_nat (first_non_nan R)).
  assert (Hnn : np.isnan x = false) by (destruct Hx as [-> | ->]; reflexivity).
  assert (Hm : (m ≤ i)%nat).
  { destruct (decide (m ≤ i)%nat) as [|Hgt]; [assumption|exfalso].
    assert (Hpos : 0 < first_non_nan R) by (subst m; lia).
    destruct (first_non_nan_pos _ Hpos) as [_ Hall].
    assert (Hin : take m R !! i = Some x) by (rewrite lookup_take_lt by lia; exact Hi).
    pose proof (Forall_lookup_1 _ _ _ _ Hall Hin) as Hnan. simpl in Hnan. congruence. }
  assert (Hval : np.nan_to_num x
                 = if PrimFloat.eqb x infinity then np.float_max else PrimFloat.opp np.float_max)
    by (destruct Hx as [-> | ->]; reflexivity).
  unfold sanitized_contents. fold m. subst n. destruct l; eexists _, _; (split; [reflexivity|]).
  - split; [lia|]. rewrite Nat.sub_0_r, lookup_map.
    rewrite lookup_app_r by (rewrite length_replicate; exact Hm).
    rewrite length_replicate, lookup_drop.
    replace (m + (i - m))%nat with i by lia.
    replace (R !! i) with (Some x) by (symmetry; exact Hi).
    rewrite <- Hval. reflexivity.
  - split; [exact Hm|]. change (Z.to_nat (first_non_nan R)) with m.
    rewrite lookup_map, lookup_drop.
    replace (m + (i - m))%nat with i by lia.
    replace (R !! i) with (Some x) by (symmetry; exact Hi).
    rewrite <- Hval. reflexivity.
Qed.

Lemma sanitize_infinity_witness :
  let σ := {| f64 := {[ 0%nat := [nan; 1; infinity]%float ]};
              M8 := {[ 1%nat := [17897; 17898; 17899] ]} |} in
  let rets := {| data := 0%nat; offset := 0; size := 3 |} in
  let timestamps := {| data := 1%nat; offset := 0; size := 3 |} in
  ∃ t' r', sanitized (handle_non_finite_returns timestamps rets true true σ) = inr (t', r')
    ∧ (0 ≤ 2)%nat
    ∧ r' !! (2 - 0)%nat = Some np.float_max.
Proof.
  intros σ rets timestamps.
  apply (sanitize_infinity σ timestamps rets true 2%nat infinity).
  - exists [17897; 17898; 17899]. split; [reflexivity|simpl; lia].
  - exists [nan; 1; infinity]%float. split; [reflexivity|simpl; lia].
  - reflexivity.
  - reflexivity.
  - left. reflexivity.
Defined.

Lemma entry_valid σ t r starting_equity l s :
  PrimFloat.ltb 0 starting_equity = true →
  monotonically_increasing (view (M8 σ) t) = true →
  compute_return_metrics_entry (Ndarray datetime64 t) (Ndarray float64 r)
    starting_equity l s σ
  = handle_non_finite_returns t r l s σ.
Proof.
  intros Heq Hmono. unfold compute_return_metrics_entry.
  unfold py_assert, py_bind, py_ret, py_get. rewrite Heq. cbv beta iota zeta.
  rewrite Hmono. cbv beta iota zeta.
  destruct (handle_non_finite_returns t r l s σ) as [[e|[t' r']] σ']; reflexivity.
Qed.

(** X1: on two well-formed arrays of one size [handle_non_finite_returns]
    returns, whatever the flags: the two arrays it hands back have one
    length, no more entries than it was given, and every return in them is
    finite. *)
Theorem sanitize_aligned_finite σ timestamps rets l s :
  wf_array (M8 σ) timestamps → wf_array (f64 σ) rets →
  size timestamps = size rets →
  ∃ t' r', sanitized (handle_non_finite_returns timestamps rets l s σ) = inr (t', r')
    ∧ length t' = length r'
    ∧ (length r' ≤ size rets)%nat
    ∧ Forall (λ x, np.isfinite x = true) r'.
Proof.
  intros Hwt Hwr Hsz.
  rewrite handle_non_finite_returns_contents by assumption.
  pose proof (wf_view_length _ _ Hwt) as Hlt.
  pose proof (wf_view_length _ _ Hwr) as Hlr.
  set (c := sanitized_contents _ _ _ _).
  exists c.1, c.2. split; [destruct c; reflexivity|].
  assert (Ha : length c.1 = length c.2)
    by (apply sanitized_contents_aligned; congruence).
  split; [exact Ha|].
  split; [|apply sanitized_contents_finite_out].
  rewrite <- Ha, <- Hsz, <- Hlt. apply sublist_length, sanitized_contents_sublist.
Qed.

Lemma sanitize_aligned_finite_witness :
  let σ := {| f64 := {[ 0%nat := [nan; 1; infinity; 2]%float ]};
              M8 := {[ 1%nat := [17897; 17898; 17899; 17900] ]} |} in
  let rets := {| data := 0%nat; offset := 0; size := 4 |} in
  let timestamps := {| data := 1%nat; offset := 0; size := 4 |} in
  ∃ t' r', sanitized (handle_non_finite_returns timestamps rets false false σ) = inr (t', r')
    ∧ length t' = length r'
    ∧ (length r' ≤ 4)%nat
    ∧ Forall (λ x, np.isfinite x = true) r'.
Proof.
  intros σ rets timestamps.
  apply (sanitize_aligned_finite σ timestamps rets false false).
  - exists [17897; 17898; 17899; 17900]. split; [reflexivity|simpl; lia].
  - exists [nan; 1; infinity; 2]%float. split; [reflexivity|simpl; lia].
  - reflexivity.
Defined.

(** X2: when every return is finite [handle_non_finite_returns] hands
    back the timestamps and the returns it was given, whatever the flags,
    and writes into no buffer that exists: it only allocates. *)
Theorem sanitize_finite_identity σ timestamps rets l s :
  wf_array (M8 σ) timestamps → wf_array (f64 σ) rets →
  size timestamps = size rets →
  Forall (λ x, np.isfinite x = true) (view (f64 σ) rets) →
  sanitized (handle_non_finite_returns timestamps rets l s σ)
  = inr (view (M8 σ) timestamps, view (f64 σ) rets)
  ∧ store_extends σ (snd (handle_non_finite_returns timestamps rets l s σ)).
Proof.
  intros Hwt Hwr Hsz Hfin. split.
  - rewrite handle_non_finite_returns_contents by assumption.
    rewrite sanitized_contents_finite; [reflexivity| |assumption].
    rewrite (wf_view_length _ _ Hwt), (wf_view_length _ _ Hwr). exact Hsz.
  - rewrite handle_non_finite_returns_steps. unfold py_bind at 1.
    rewrite leading_step_skip by (apply first_non_nan_finite; assumption).
    apply subsequent_step_extends.
Qed.

Lemma sanitize_finite_identity_witness :
  let σ := {| f64 := {[ 0%nat := [1; 2]%float ]}; M8 := {[ 1%nat := [17897; 17898] ]} |} in
  let rets := {| data := 0%nat; offset := 0; size := 2 |} in
  let timestamps := {| data := 1%nat; offset := 0; size := 2 |} in
  sanitized (handle_non_finite_returns timestamps rets true false σ)
  = inr ([17897; 17898], [1; 2]%float).
Proof.
  intros σ rets timestamps.
  refine (proj1 (sanitize_finite_identity σ timestamps rets true false _ _ _ _)).
  - exists [17897; 17898]. split; [reflexivity|simpl; lia].
  - exists [1; 2]%float. split; [reflexivity|simpl; lia].
  - reflexivity.
  - repeat constructor.
Defined.

(** X3: the timestamps that [handle_non_finite_returns] hands back are
    timestamps of its argument, in their order; strictly increasing
    timestamps stay strictly increasing. *)
Theorem sanitize_keeps_order σ timestamps rets l s t' r' :
  wf_array (M8 σ) timestamps → wf_array (f64 σ) rets →
  size timestamps = size rets →
  sanitized (handle_non_finite_returns timestamps rets l s σ) = inr (t', r') →
  t' `sublist_of` view (M8 σ) timestamps
  ∧ (monotonically_increasing (view (M8 σ) timestamps) = true →
     monotonically_increasing t' = true).
Proof.
  intros Hwt Hwr Hsz.
  rewrite handle_non_finite_returns_contents by assumption.
  intros [= E]. 
  assert (Hsub : t' `sublist_of` view (M8 σ) timestamps).
  { replace t' with (sanitized_contents (view (M8 σ) timestamps) (view (f64 σ) rets) l s).1
      by (rewrite E; reflexivity).
    apply sanitized_contents_sublist. }
  split; [exact Hsub|]. apply monotonically_increasing_sublist, Hsub.
Qed.

Lemma sanitize_keeps_order_witness :
  let σ := {| f64 := {[ 0%nat := [nan; 1; infinity; 2]%float ]};
              M8 := {[ 1%nat := [17897; 17898; 17899; 17900] ]} |} in
  let rets := {| data := 0%nat; offset := 0; size := 4 |} in
  let timestamps := {| data := 1%nat; offset := 0; size := 4 |} in
  [17898; 17900] `sublist_of` view (M8 σ) timestamps
  ∧ (monotonically_increasing (view (M8 σ) timestamps) = true →
     monotonically_increasing [17898; 17900] = true).
Proof.
  intros σ rets timestamps.
  apply (sanitize_keeps_order σ timestamps rets false false [17898; 17900] [1; 2]%float).
  - exists [17897; 17898; 17899; 17900]. split; [reflexivity|simpl; lia].
  - exists [nan; 1; infinity; 2]%float. split; [reflexivity|simpl; lia].
  - reflexivity.
  - vm_compute. reflexivity.
Defined.

(** X4: [handle_non_finite_returns] is idempotent: called on the two
    arrays a first call returned, in the store that call left, with any
    flags, it hands back their contents and writes into no buffer that
    exists. *)
Theorem sanitize_idempotent σ timestamps rets l s t' r' σ' l' s' :
  wf_array (M8 σ) timestamps → wf_array (f64 σ) rets →
  size timestamps = size rets →
  handle_non_finite_returns timestamps rets l s σ = (inr (t', r'), σ') →
  sanitized (handle_non_finite_returns t' r' l' s' σ')
  = inr (view (M8 σ') t', view (f64 σ') r')
  ∧ store_extends σ' (snd (handle_non_finite_returns t' r' l' s' σ')).
Proof.
  intros Hwt Hwr Hsz E.
  destruct (handle_non_finite_returns_wf σ timestamps rets l s Hwt Hwr Hsz)
    as (t2 & r2 & σ2 & E2 & Hwt' & Hwr' & Hsz').
  rewrite E in E2. injection E2 as <- <- <-.
  assert (Hfin : Forall (λ x, np.isfinite x = true) (view (f64 σ') r')).
  { destruct (sanitized_steps timestamps rets l s σ) as (t1 & r1 & σ1 & _ & E1).
    rewrite E in E1.
    apply (subsequent_step_finite t1 r1 s σ1 (view (M8 σ') t')).
    rewrite <- E1. reflexivity. }
  split.
  - rewrite handle_non_finite_returns_contents by assumption.
    rewrite sanitized_contents_finite; [reflexivity| |assumption].
    rewrite (wf_view_length _ _ Hwt'), (wf_view_length _ _ Hwr'). exact Hsz'.
  - rewrite handle_non_finite_returns_steps. unfold py_bind at 1.
    rewrite leading_step_skip by (apply first_non_nan_finite; assumption).
    apply subsequent_step_extends.
Qed.

Lemma sanitize_idempotent_witness :
  let σ := {| f64 := {[ 0%nat := [nan; 1; infinity; 2]%float ]};
              M8 := {[ 1%nat := [17897; 17898; 17899; 17900] ]} |} in
  let rets := {| data := 0%nat; offset := 0; size := 4 |} in
  let timestamps := {| data := 1%nat; offset := 0; size := 4 |} in
  let σ' := snd (handle_non_finite_returns timestamps rets false false σ) in
  let t' := {| data := 2%nat; offset := 0; size := 2 |} in
  let r' := {| data := 1%nat; offset := 0; size := 2 |} in
  sanitized (handle_non_finite_returns t' r' true true σ')
  = inr (view (M8 σ') t', view (f64 σ') r').
Proof.
  intros σ rets timestamps σ' t' r'.
  refine (proj1 (sanitize_idempotent σ timestamps rets false false t' r' σ' true true _ _ _ _)).
  - exists [17897; 17898; 17899; 17900]. split; [reflexivity|simpl; lia].
  - exists [nan; 1; infinity; 2]%float. split; [reflexivity|simpl; lia].
  - reflexivity.
  - vm_compute. reflexivity.
Defined.

(** X5: on arrays of different sizes [handle_non_finite_returns] raises
    IndexError when [subsequent_non_finite_to_zeros] is not set (the mask of
    the returns does not fit the timestamps), and returns two arrays of
    different lengths when it is set. *)
Theorem sanitize_mismatch σ timestamps rets l :
  wf_array (M8 σ) timestamps → wf_array (f64 σ) rets →
  size timestamps ≠ size rets →
  fst (handle_non_finite_returns timestamps rets l false σ) = inl IndexError
  ∧ ∃ t' r', sanitized (handle_non_finite_returns timestamps rets l true σ) = inr (t', r')
      ∧ length t' ≠ length r'.
Proof. apply handle_non_finite_returns_mismatch. Qed.

Lemma sanitize_mismatch_witness :
  let σ := {| f64 := {[ 0%nat := [nan; 1; 2]%float ]}; M8 := {[ 1%nat := [17897; 17898] ]} |} in
  let rets := {| data := 0%nat; offset := 0; size := 3 |} in
  let timestamps := {| data := 1%nat; offset := 0; size := 2 |} in
  fst (handle_non_finite_returns timestamps rets true false σ) = inl IndexError.
Proof.
  intros σ rets timestamps.
  refine (proj1 (sanitize_mismatch σ timestamps rets true _ _ _)).
  - exists [17897; 17898]. split; [reflexivity|simpl; lia].
  - exists [nan; 1; 2]%float. split; [reflexivity|simpl; lia].
  - discriminate.
Defined.

(** X6: arguments that pass the assertions of [compute_return_metrics],
    on well-formed arrays of one size, give the evaluator its seeds: two
    arrays of one length, the returns finite, the timestamps strictly
    increasing; and on these seeds [compute_rolling_dd] of
    [compute_equity] passes its assertion: it returns one drawdown per
    timestamp when the timestamps lie in the range of pandas, and raises
    ValueError when one does not. *)
Theorem entry_seeds σ t r starting_equity l s :
  PrimFloat.ltb 0 starting_equity = true →
  wf_array (M8 σ) t → wf_array (f64 σ) r → size t = size r →
  monotonically_increasing (view (M8 σ) t) = true →
  ∃ t' r',
    sanitized (compute_return_metrics_entry (Ndarray datetime64 t) (Ndarray float64 r)
                 starting_equity l s σ) = inr (t', r')
    ∧ length t' = length r'
    ∧ Forall (λ x, np.isfinite x = true) r'
    ∧ monotonically_increasing t' = true
    ∧ (Forall (λ x, calendar.in_bounds x = true) t' →
       ∃ dd, compute_rolling_dd t' (compute_equity t' starting_equity r')
             = inr (Tuple (ArrayM8 t') (ArrayF dd))
           ∧ length dd = length t')
    ∧ (Exists (λ x, calendar.in_bounds x = false) t' →
       compute_rolling_dd t' (compute_equity t' starting_equity r') = inl ValueError).
Proof.
  intros Heq Hwt Hwr Hsz Hmono.
  rewrite entry_valid by assumption.
  rewrite handle_non_finite_returns_contents by assumption.
  pose proof (wf_view_length _ _ Hwt) as Hlt.
  pose proof (wf_view_length _ _ Hwr) as Hlr.
  set (c := sanitized_contents _ _ _ _).
  assert (Ha : length c.1 = length c.2)
    by (apply sanitized_contents_aligned; congruence).
  exists c.1, c.2. split; [destruct c; reflexivity|].
  split; [exact Ha|].
  split; [apply sanitized_contents_finite_out|].
  split; [eapply monotonically_increasing_sublist;
          [apply sanitized_contents_sublist|exact Hmono]|].
  assert (He : length c.1 = length (compute_equity c.1 starting_equity c.2))
    by (rewrite compute_equity_length; exact Ha).
  split.
  - intros Hb. eexists. split; [apply compute_rolling_dd_eq; assumption|].
    rewrite zip_with_dd_length by apply expanding_max_from_length.
    congruence.
  - apply compute_rolling_dd_out_of_bounds. exact He.
Qed.

Lemma entry_seeds_witness :
  let σ := {| f64 := {[ 0%nat := [nan; 1; infinity; 2]%float ]};
              M8 := {[ 1%nat := [17897; 17898; 17899; 17900] ]} |} in
  let rets := {| data := 0%nat; offset := 0; size := 4 |} in
  let timestamps := {| data := 1%nat; offset := 0; size := 4 |} in
  ∃ t' r',
    sanitized (compute_return_metrics_entry (Ndarray datetime64 timestamps)
                 (Ndarray float64 rets) 1 false true σ) = inr (t', r')
    ∧ length t' = length r'
    ∧ Forall (λ x, np.isfinite x = true) r'
    ∧ monotonically_increasing t' = true.
Proof.
  intros σ rets timestamps.
  destruct (entry_seeds σ timestamps rets 1 false true)
    as (t' & r' & H1 & H2 & H3 & H4 & _).
  - reflexivity.
  - exists [17897; 17898; 17899; 17900]. split; [reflexivity|simpl; lia].
  - exists [nan; 1; infinity; 2]%float. split; [reflexivity|simpl; lia].
  - reflexivity.
  - reflexivity.
  - exists t', r'. auto.
Defined.

(** ** The maximum drawdown

    The order of binary64 numbers: [<=] is transitive, and total on the
    numbers that are not NaN. *)

Ltac cmp_cases :=
  repeat match goal with
  | H : context [Z.compare ?a ?b] |- _ => destruct (Z.compare_spec a b)
  | |- context [Z.compare ?a ?b] => destruct (Z.compare_spec a b)
  | H : context [Pos.compare_cont Eq ?a ?b] |- _ =>
      change (Pos.compare_cont Eq a b) with (Pos.compare a b) in H
  | |- context [Pos.compare_cont Eq ?a ?b] =>
      change (Pos.compare_cont Eq a b) with (Pos.compare a b)
  | H : context [Pos.compare ?a ?b] |- _ => destruct (Pos.compare_spec a b)
  | |- context [Pos.compare ?a ?b] => destruct (Pos.compare_spec a b)
  end.

Lemma SFleb_trans x y z : SFleb x y = true → SFleb y z = true → SFleb x z = true.
Proof.
  unfold SFleb.
  destruct x as [[]|[]| |[] m1 e1], y as [[]|[]| |[] m2 e2], z as [[]|[]| |[] m3 e3];
    simpl; try (intros; congruence); cmp_cases; simpl; intros; subst;
    try congruence; try lia.
Qed.

Lemma SFleb_total x y :
  x ≠ S754_nan → y ≠ S754_nan → SFleb x y = false → SFleb y x = true.
Proof.
  unfold SFleb.
  destruct x as [[]|[]| |[] m1 e1], y as [[]|[]| |[] m2 e2];
    simpl; try (intros; congruence); cmp_cases; simpl; intros; subst;
    try congruence; try lia.
Qed.

Lemma leb_trans x y z :
  PrimFloat.leb x y = true → PrimFloat.leb y z = true → PrimFloat.leb x z = true.
Proof. rewrite !FloatAxioms.leb_spec. apply SFleb_trans. Qed.

Lemma leb_total x y :
  np.isnan x = false → np.isnan y = false →
  PrimFloat.leb x y = false → PrimFloat.leb y x = true.
Proof.
  unfold np.isnan. rewrite !is_nan_spec, !FloatAxioms.leb_spec. intros Hx Hy.
  apply SFleb_total; intros E; rewrite E in *; discriminate.
Qed.

Lemma leb_refl x : np.isnan x = false → PrimFloat.leb x x = true.
Proof.
  intros Hx. pose proof (leb_total x x Hx Hx) as H.
  destruct (PrimFloat.leb x x); [reflexivity|apply H; reflexivity].
Qed.

Lemma leb_nan_r x y : PrimFloat.leb x y = true → np.isnan y = false.
Proof.
  unfold np.isnan. rewrite is_nan_spec, FloatAxioms.leb_spec. unfold SFleb.
  destruct (Prim2SF y); try reflexivity. destruct (Prim2SF x); discriminate.
Qed.

(** [np.nanmax] and [np.argmax] on a vector without NaN. *)

Lemma fmax_no_nan x y :
  np.isnan y = false → np.fmax x y = if PrimFloat.leb y x then x else y.
Proof. unfold np.fmax. intros ->. rewrite orb_false_r. reflexivity. Qed.

Lemma fold_fmax_spec a x :
  np.isnan x = false → Forall (λ y, np.isnan y = false) a →
  let m := fold_left np.fmax a x in
  np.isnan m = false ∧ PrimFloat.leb x m = true
  ∧ Forall (λ y, PrimFloat.leb y m = true) a
  ∧ m ∈ x :: a.
Proof.
  intros Hx Ha. revert x Hx. induction Ha as [|y a Hy _ IH]; intros x Hx; simpl.
  - split; [assumption|]. split; [apply leb_refl; assumption|].
    split; [constructor|left].
  - rewrite (fmax_no_nan x y Hy).
    destruct (PrimFloat.leb y x) eqn:E.
    + destruct (IH x Hx) as (Hn & Hle & Hall & Hin).
      split; [assumption|]. split; [assumption|].
      split; [constructor; [eapply leb_trans; eassumption|assumption]|].
      apply elem_of_cons in Hin as [->|Hin]; [left|right; right; assumption].
    + destruct (IH y Hy) as (Hn & Hle & Hall & Hin).
      split; [assumption|].
      assert (Hxy : PrimFloat.leb x y = true) by (apply leb_total; assumption).
      split; [eapply leb_trans; eassumption|].
      split; [constructor; assumption|]. right. assumption.
Qed.

(** The index search, with the maximum [mp] found so far at [max_ind]. *)
Lemma argmax_from_spec ip : ∀ mp max_ind i (pre : list float),
  np.isnan mp = false → Forall (λ y, np.isnan y = false) ip →
  length pre = i → pre !! max_ind = Some mp →
  Forall (λ y, PrimFloat.leb y mp = true) pre →
  (∀ j y, (j < max_ind)%nat → pre !! j = Some y → PrimFloat.leb mp y = false) →
  let k := np.argmax_from mp max_ind i ip in
  (pre ++ ip) !! k = Some (fold_left np.fmax ip mp)
  ∧ (∀ j y, (j < k)%nat → (pre ++ ip) !! j = Some y →
       PrimFloat.leb (fold_left np.fmax ip mp) y = false).
Proof.
  induction ip as [|x ip IH]; intros mp max_ind i pre Hmp Hip Hlen Hat Hall Hfirst; simpl.
  - rewrite app_nil_r. split; assumption.
  - inversion Hip as [|? ? Hx Hip']; subst.
    rewrite Hmp, (fmax_no_nan mp x Hx).
    replace (pre ++ x :: ip) with ((pre ++ [x]) ++ ip) by (rewrite <- app_assoc; reflexivity).
    destruct (PrimFloat.leb x mp) eqn:E; simpl.
    + apply IH; try assumption.
      * rewrite length_app. simpl. lia.
      * rewrite lookup_app_l; [assumption|]. apply lookup_lt_Some in Hat. assumption.
      * apply Forall_app. split; [assumption|]. constructor; [assumption|constructor].
      * intros j y Hj Hy. apply (Hfirst j y Hj).
        apply lookup_lt_Some in Hat.
        rewrite lookup_app_l in Hy by lia. assumption.
    + assert (Hmx : PrimFloat.leb mp x = true) by (apply leb_total; assumption).
      apply IH; try assumption.
      * rewrite length_app. simpl. lia.
      * rewrite lookup_app_r by lia. rewrite Nat.sub_diag. reflexivity.
      * apply Forall_app. split.
        -- eapply Forall_impl; [exact Hall|]. simpl. intros y Hy.
           eapply leb_trans; eassumption.
        -- constructor; [apply leb_refl; assumption|constructor].
      * intros j y Hj Hy. rewrite lookup_app_l in Hy by lia.
        destruct (PrimFloat.leb x y) eqn:Exy; [|reflexivity].
        assert (PrimFloat.leb y mp = true).
        { exact (Forall_lookup_1 _ _ _ _ Hall Hy). }
        assert (PrimFloat.leb x mp = true) by (eapply leb_trans; eassumption).
        congruence.
Qed.

Lemma argmax_nanmax a :
  a ≠ [] → Forall (λ y, np.isnan y = false) a →
  a !! np.argmax a = Some (np.nanmax a)
  ∧ (∀ j y, (j < np.argmax a)%nat → a !! j = Some y →
       PrimFloat.leb (np.nanmax a) y = false).
Proof.
  intros Hne Ha. destruct a as [|x a]; [contradiction|].
  inversion Ha as [|? ? Hx Ha']; subst.
  unfold np.argmax, np.nanmax.
  apply (argmax_from_spec a x 0%nat 1%nat [x]); auto.
  - constructor; [apply leb_refl; assumption|constructor].
  - intros j y Hj. lia.
Qed.

Lemma fold_fmax_max a : ∀ x,
  let m := fold_left np.fmax a x in
  m ∈ x :: a
  ∧ (∀ y, y ∈ x :: a → np.isnan y = false → PrimFloat.leb y m = true).
Proof.
  induction a as [|y a IH]; intros x; simpl.
  - split; [left|]. intros z Hz Hn. apply list_elem_of_singleton in Hz as ->.
    apply leb_refl. assumption.
  - destruct (IH (np.fmax x y)) as [Hin Hmax]. split.
    + apply elem_of_cons in Hin as [->|Hin]; [|right; right; assumption].
      unfold np.fmax. destruct (_ || _); [left|right; left].
    + assert (Hf : np.isnan (np.fmax x y) = false →
                   PrimFloat.leb (np.fmax x y) (fold_left np.fmax a (np.fmax x y)) = true)
        by (apply Hmax; left).
      intros z Hz Hn. apply elem_of_cons in Hz as [->|Hz];
        [|apply elem_of_cons in Hz as [->|Hz]].
      * unfold np.fmax in *. destruct (PrimFloat.leb y x) eqn:E; simpl in *.
        -- auto.
        -- destruct (np.isnan y) eqn:Hy; [auto|].
           apply leb_trans with y; [apply leb_total; assumption|auto].
      * unfold np.fmax in *. rewrite Hn, orb_false_r in *.
        destruct (PrimFloat.leb y x) eqn:E.
        -- apply leb_trans with x; [assumption|]. apply Hf. eapply leb_nan_r, E.
        -- auto.
      * apply Hmax; [right; assumption|assumption].
Qed.

(** X7: on a vector that is not empty [compute_maxdd_pct] returns one of
    its entries, and every entry that is not NaN is [<=] it: NaN entries
    are passed over. *)
Theorem maxdd_pct_maximum rolling_dd :
  rolling_dd ≠ [] →
  compute_maxdd_pct rolling_dd ∈ rolling_dd
  ∧ (∀ d, d ∈ rolling_dd → np.isnan d = false →
       PrimFloat.leb d (compute_maxdd_pct rolling_dd) = true).
Proof.
  intros Hne. unfold compute_maxdd_pct.
  destruct rolling_dd as [|x a]; [contradiction|].
  rewrite bool_decide_eq_false_2 by discriminate.
  apply fold_fmax_max.
Qed.

Lemma maxdd_pct_maximum_witness :
  compute_maxdd_pct [0; nan; 0.5; 0.25]%float ∈ [0; nan; 0.5; 0.25]%float
  ∧ (∀ d, d ∈ [0; nan; 0.5; 0.25]%float → np.isnan d = false →
       PrimFloat.leb d (compute_maxdd_pct [0; nan; 0.5; 0.25]%float) = true).
Proof. apply (maxdd_pct_maximum [0; nan; 0.5; 0.25]%float). discriminate. Defined.

(** X8: on drawdowns without NaN, as many as the dates,
    [compute_maxdd_date] returns the date at the first index where the
    drawdown is [compute_maxdd_pct]: no earlier drawdown reaches it. *)
Theorem maxdd_date_at_maximum rolling_dd_dates rolling_dd :
  rolling_dd_dates ≠ [] → length rolling_dd_dates = length rolling_dd →
  Forall (λ d, np.isnan d = false) rolling_dd →
  ∃ i t, compute_maxdd_date rolling_dd_dates rolling_dd = inr (Some t)
    ∧ rolling_dd_dates !! i = Some t
    ∧ rolling_dd !! i = Some (compute_maxdd_pct rolling_dd)
    ∧ (∀ j d, (j < i)%nat → rolling_dd !! j = Some d →
         PrimFloat.leb (compute_maxdd_pct rolling_dd) d = false).
Proof.
  intros Hne Hlen Hnan.
  assert (Hne' : rolling_dd ≠ []) by (destruct rolling_dd_dates, rolling_dd; try discriminate; congruence).
  destruct (argmax_nanmax rolling_dd Hne' Hnan) as [Hat Hfirst].
  unfold compute_maxdd_date, compute_maxdd_pct.
  rewrite (bool_decide_eq_false_2 (length rolling_dd_dates = 0%nat))
    by (destruct rolling_dd_dates; [contradiction|discriminate]).
  rewrite (bool_decide_eq_false_2 (length rolling_dd = 0%nat))
    by (destruct rolling_dd; [contradiction|discriminate]).
  rewrite bool_decide_eq_true_2 by assumption. simpl.
  destruct (lookup_lt_is_Some_2 rolling_dd_dates (np.argmax rolling_dd)) as [t Ht].
  { rewrite Hlen. eapply lookup_lt_Some, Hat. }
  exists (np.argmax rolling_dd), t. rewrite Ht. auto.
Qed.

Lemma maxdd_date_at_maximum_witness :
  ∃ i t, compute_maxdd_date [1; 2; 3; 4] [0; 0.5; 0.5; 0.25]%float = inr (Some t)
    ∧ [1; 2; 3; 4] !! i = Some t
    ∧ [0; 0.5; 0.5; 0.25]%float !! i = Some (compute_maxdd_pct [0; 0.5; 0.5; 0.25]%float)
    ∧ (∀ j d, (j < i)%nat → [0; 0.5; 0.5; 0.25]%float !! j = Some d →
         PrimFloat.leb (compute_maxdd_pct [0; 0.5; 0.5; 0.25]%float) d = false).
Proof.
  apply (maxdd_date_at_maximum [1; 2; 3; 4] [0; 0.5; 0.5; 0.25]%float).
  - discriminate.
  - reflexivity.
  - repeat constructor.
Defined.

Lemma leb_nan_l x y : np.isnan x = true → PrimFloat.leb x y = false.
Proof.
  unfold np.isnan. rewrite is_nan_spec, FloatAxioms.leb_spec. unfold SFleb.
  destruct (Prim2SF x); try discriminate. reflexivity.
Qed.

(** The search stops at the first NaN. *)
Lemma argmax_from_nan ip : ∀ mp max_ind i k x,
  np.isnan mp = false →
  ip !! k = Some x → np.isnan x = true →
  (∀ j y, (j < k)%nat → ip !! j = Some y → np.isnan y = false) →
  np.argmax_from mp max_ind i ip = (i + k)%nat.
Proof.
  induction ip as [|y ip IH]; intros mp max_ind i k x Hmp Hk Hx Hbefore; [discriminate|].
  simpl. rewrite Hmp. destruct k as [|k].
  - injection Hk as ->. rewrite (leb_nan_l x mp Hx). simpl.
    destruct ip as [|z ip]; simpl; [lia|]. rewrite Hx. lia.
  - assert (Hy : np.isnan y = false) by (apply (Hbefore 0%nat y); [lia|reflexivity]).
    assert (Hrest : ∀ j y', (j < k)%nat → ip !! j = Some y' → np.isnan y' = false).
    { intros j y' Hj Hy'. apply (Hbefore (S j) y'); [lia|exact Hy']. }
    destruct (negb (PrimFloat.leb y mp));
      rewrite (IH _ _ _ k x) by assumption; lia.
Qed.

Lemma argmax_first_nan a k x :
  a !! k = Some x → np.isnan x = true →
  (∀ j y, (j < k)%nat → a !! j = Some y → np.isnan y = false) →
  np.argmax a = k.
Proof.
  intros Hk Hx Hbefore. destruct a as [|x0 a]; [discriminate|]. unfold np.argmax.
  destruct k as [|k].
  - injection Hk as ->. destruct a as [|y a]; simpl; [reflexivity|]. rewrite Hx. reflexivity.
  - rewrite (argmax_from_nan a x0 0%nat 1%nat k x); [reflexivity| |exact Hk|exact Hx|].
    + apply (Hbefore 0%nat x0); [lia|reflexivity].
    + intros j y Hj Hy. apply (Hbefore (S j) y); [lia|exact Hy].
Qed.

(** X9: when a drawdown is NaN [compute_maxdd_date] returns the date of
    the first NaN, while [compute_maxdd_pct] passes over the NaN entries and
    is not NaN as soon as one drawdown is not: the date is then not the date
    of the maximum. *)
Theorem maxdd_date_first_nan rolling_dd_dates rolling_dd k x t :
  length rolling_dd_dates = length rolling_dd →
  rolling_dd !! k = Some x → np.isnan x = true →
  (∀ j y, (j < k)%nat → rolling_dd !! j = Some y → np.isnan y = false) →
  rolling_dd_dates !! k = Some t →
  compute_maxdd_date rolling_dd_dates rolling_dd = inr (Some t)
  ∧ (∀ y, y ∈ rolling_dd → np.isnan y = false →
       np.isnan (compute_maxdd_pct rolling_dd) = false).
Proof.
  intros Hlen Hk Hx Hbefore Ht. split.
  - unfold compute_maxdd_date.
    rewrite bool_decide_eq_false_2
      by (destruct rolling_dd_dates; [discriminate|discriminate]).
    rewrite bool_decide_eq_true_2 by assumption. simpl.
    rewrite (argmax_first_nan rolling_dd k x Hk Hx Hbefore), Ht. reflexivity.
  - intros y Hy Hn.
    assert (Hne : rolling_dd ≠ []) by (intros E; rewrite E in Hk; discriminate).
    unfold compute_maxdd_pct.
    rewrite bool_decide_eq_false_2 by (destruct rolling_dd; [contradiction|discriminate]).
    destruct rolling_dd as [|x0 a]; [contradiction|].
    destruct (fold_fmax_max a x0) as [_ Hmax].
    eapply leb_nan_r. apply (Hmax y Hy Hn).
Qed.

Lemma maxdd_date_first_nan_witness :
  compute_maxdd_date [1; 2; 3; 4] [0; nan; 0.5; 0.25]%float = inr (Some 2)
  ∧ (∀ y, y ∈ [0; nan; 0.5; 0.25]%float → np.isnan y = false →
       np.isnan (compute_maxdd_pct [0; nan; 0.5; 0.25]%float) = false).
Proof.
  apply (maxdd_date_first_nan [1; 2; 3; 4] [0; nan; 0.5; 0.25]%float 1 nan 2).
  - reflexivity.
  - reflexivity.
  - reflexivity.
  - intros [|j] y Hj; [intros [= <-]; reflexivity|lia].
  - reflexivity.
Defined.

(** The last entry that a mask selects. *)
Lemma last_map_Some_cons {A} (x : A) l :
  List.last (map Some (x :: l)) None
  = match List.last (map Some l) None with Some y => Some y | None => Some x end.
Proof.
  revert x. induction l as [|y l IH]; intros x; [reflexivity|].
  change (List.last (map Some (x :: y :: l)) None)
    with (List.last (map Some (y :: l)) None).
  rewrite (IH y). destruct (List.last (map Some l) None); reflexivity.
Qed.

Lemma last_compress_None {A} (mask : list bool) (a : list A) :
  List.last (map Some (np.compress mask a)) None = None →
  ∀ i x, mask !! i = Some true → a !! i = Some x → False.
Proof.
  revert a. induction mask as [|b mask IH]; intros [|y a]; simpl; try (intros _ [|?] ?; discriminate).
  destruct b.
  - rewrite last_map_Some_cons. destruct (List.last _ _); discriminate.
  - intros H [|i] x; simpl; [discriminate|]. apply IH. assumption.
Qed.

Lemma last_compress_Some {A} (mask : list bool) (a : list A) x :
  List.last (map Some (np.compress mask a)) None = Some x →
  ∃ i, mask !! i = Some true ∧ a !! i = Some x
     ∧ ∀ j y, (i < j)%nat → mask !! j = Some true → a !! j = Some y → False.
Proof.
  revert a. induction mask as [|b mask IH]; intros [|y a]; simpl; try discriminate.
  destruct b.
  - rewrite last_map_Some_cons.
    destruct (List.last (map Some (np.compress mask a)) None) as [z|] eqn:E.
    + intros [= ->]. destruct (IH a E) as (i & Hm & Ha & Hlast).
      exists (S i). split; [exact Hm|]. split; [exact Ha|].
      intros [|j] y' Hj; [lia|]. simpl. apply Hlast. lia.
    + intros [= ->]. exists 0%nat. split; [reflexivity|]. split; [reflexivity|].
      intros [|j] y' Hj; [lia|]. simpl. apply (last_compress_None _ _ E).
  - intros E. destruct (IH a E) as (i & Hm & Ha & Hlast).
    exists (S i). split; [exact Hm|]. split; [exact Ha|].
    intros [|j] y' Hj; [lia|]. simpl. apply Hlast. lia.
Qed.

(** The mask of [compute_maxdd_start] at an index. *)
Lemma maxdd_start_mask dates dd m i :
  zip_with andb (map (λ d, PrimFloat.leb d 0) dd) (map (λ t, t <? m) dates) !! i = Some true
  ↔ ∃ d t, dd !! i = Some d ∧ dates !! i = Some t
        ∧ PrimFloat.leb d 0 = true ∧ t < m.
Proof.
  rewrite lookup_zip_with, !lookup_map.
  destruct (dd !! i) as [d|], (dates !! i) as [t|]; simpl; split;
    try (intros; discriminate); try (intros (? & ? & ? & ? & _); discriminate).
  - intros [= H]. apply andb_true_iff in H as [H1 H2]. apply Z.ltb_lt in H2.
    exists d, t. auto.
  - intros (d' & t' & [= <-] & [= <-] & H1 & H2).
    rewrite H1. rewrite (proj2 (Z.ltb_lt t m) H2). reflexivity.
Qed.

(** X10: the date that [compute_maxdd_start] returns lies before the
    date of the maximum drawdown, carries a drawdown [<= 0], and is the last
    such date of the array; when it returns NaT no date before the maximum
    carries a drawdown [<= 0]. *)
Theorem maxdd_start_latest rolling_dd_dates rolling_dd mdd_date r :
  compute_maxdd_start rolling_dd_dates rolling_dd (Some mdd_date) = inr r →
  match r with
  | Some t0 =>
      t0 < mdd_date
      ∧ ∃ i d, rolling_dd_dates !! i = Some t0 ∧ rolling_dd !! i = Some d
          ∧ PrimFloat.leb d 0 = true
          ∧ ∀ j t d', (i < j)%nat → rolling_dd_dates !! j = Some t →
              rolling_dd !! j = Some d' → t < mdd_date → PrimFloat.leb d' 0 = false
  | None =>
      ∀ j t d', rolling_dd_dates !! j = Some t → rolling_dd !! j = Some d' →
        t < mdd_date → PrimFloat.leb d' 0 = false
  end.
Proof.
  unfold compute_maxdd_start.
  destruct (bool_decide (length rolling_dd_dates = 0%nat)) eqn:E0.
  - apply bool_decide_eq_true in E0. intros [= <-].
    destruct rolling_dd_dates; [|discriminate]. intros [|?]; discriminate.
  - destruct (negb _); [discriminate|]. intros [= <-].
    destruct (List.last _ None) as [t0|] eqn:E.
    + apply last_compress_Some in E as (i & Hm & Ha & Hlast).
      apply maxdd_start_mask in Hm as (d & t & Hd & Ht & Hle & Hlt).
      assert (t = t0) by congruence. subst t.
      split; [exact Hlt|]. exists i, d. split; [exact Ha|]. split; [exact Hd|].
      split; [exact Hle|]. intros j t d' Hj Ht' Hd' Hlt'.
      destruct (PrimFloat.leb d' 0) eqn:E'; [|reflexivity]. exfalso.
      apply (Hlast j t Hj); [|exact Ht'].
      apply maxdd_start_mask. eauto 6.
    + intros j t d' Ht' Hd' Hlt'.
      destruct (PrimFloat.leb d' 0) eqn:E'; [|reflexivity]. exfalso.
      apply (last_compress_None _ _ E j t); [|exact Ht'].
      apply maxdd_start_mask. eauto 6.
Qed.

Lemma maxdd_start_latest_witness :
  1 < 3
  ∧ ∃ i d, [1; 2; 3; 4] !! i = Some 1 ∧ [0; 0.25; 0.5; 0]%float !! i = Some d
      ∧ PrimFloat.leb d 0 = true
      ∧ ∀ j t d', (i < j)%nat → [1; 2; 3; 4] !! j = Some t →
          [0; 0.25; 0.5; 0]%float !! j = Some d' → t < 3 → PrimFloat.leb d' 0 = false.
Proof.
  apply (maxdd_start_latest [1; 2; 3; 4] [0; 0.25; 0.5; 0]%float 3 (Some 1)).
  reflexivity.
Defined.

Lemma eqb_leb x y : PrimFloat.eqb x y = true → PrimFloat.leb x y = true.
Proof.
  rewrite FloatAxioms.eqb_spec, FloatAxioms.leb_spec. unfold SFeqb, SFleb.
  destruct (SFcompare _ _) as [[]|]; congruence.
Qed.

(** The drawdowns of a finite equity that starts positive. *)
Lemma rolling_dd_values x0 rest :
  np.isfinite x0 = true → PrimFloat.ltb 0 x0 = true →
  Forall (λ x, np.isfinite x = true) rest →
  ∃ dd', zip_with_dd (x0 :: rest) (expanding_max (x0 :: rest)) = 0%float :: dd'
    ∧ Forall (λ d, PrimFloat.leb 0 d = true) (0%float :: dd').
Proof.
  intros Hx0 Hp Hrest.
  assert (Hn : np.isnan x0 = false) by (apply isfinite_not_nan; assumption).
  unfold expanding_max. simpl.
  assert (Hstep : expanding_step nan x0 = x0).
  { unfold expanding_step. rewrite Hx0. reflexivity. }
  rewrite Hstep. unfold dd_entry at 1. rewrite (leb_refl x0 Hn).
  eexists. split; [reflexivity|]. constructor; [reflexivity|].
  apply zip_with_dd_nonneg; [split|]; assumption.
Qed.

Lemma compute_maxdd_start_eq dates dd m :
  dates ≠ [] → length dates = length dd →
  compute_maxdd_start dates dd (Some m)
  = inr (List.last (map Some (np.compress
           (zip_with andb (map (λ d, PrimFloat.leb d 0) dd) (map (λ t, t <? m) dates))
           dates)) None).
Proof.
  intros Hne Hlen. unfold compute_maxdd_start.
  rewrite bool_decide_eq_false_2 by (destruct dates; [contradiction|discriminate]).
  rewrite bool_decide_eq_true_2 by assumption. reflexivity.
Qed.

(** From an equity that is finite and starts positive: the drawdowns, their
    maximum, its date and the start of the drawdown. *)
Lemma rolling_dd_chain timestamps equity :
  timestamps ≠ [] → length timestamps = length equity →
  monotonically_increasing timestamps = true →
  Forall (λ t, calendar.in_bounds t = true) timestamps →
  Forall (λ x, np.isfinite x = true) equity →
  (∀ x, head equity = Some x → PrimFloat.ltb 0 x = true) →
  ∃ dd mdd_date mdd_start,
    compute_rolling_dd timestamps equity = inr (Tuple (ArrayM8 timestamps) (ArrayF dd))
    ∧ PrimFloat.leb 0 (compute_maxdd_pct dd) = true
    ∧ compute_maxdd_date timestamps dd = inr (Some mdd_date)
    ∧ mdd_date ∈ timestamps
    ∧ compute_maxdd_start timestamps dd (Some mdd_date) = inr mdd_start
    ∧ (mdd_start = None ↔ PrimFloat.eqb (compute_maxdd_pct dd) 0 = true)
    ∧ (∀ t0, mdd_start = Some t0 → t0 ∈ timestamps ∧ t0 < mdd_date).
Proof.
  intros Hne Hlen Hmono Hbounds Hfin Hhead.
  destruct timestamps as [|t0 ts]; [contradiction|].
  destruct equity as [|x0 rest]; [discriminate|].
  inversion Hfin as [|? ? Hx0 Hrest]; subst.
  destruct (rolling_dd_values x0 rest Hx0 (Hhead x0 eq_refl) Hrest) as (dd' & Edd & Hpos).
  set (dd := 0%float :: dd') in *.
  assert (Hlen' : length (t0 :: ts) = length dd).
  { rewrite <- Edd, zip_with_dd_length by apply expanding_max_from_length.
    exact Hlen. }
  assert (Hnan : Forall (λ d, np.isnan d = false) dd).
  { eapply Forall_impl; [exact Hpos|]. simpl. intros d. apply leb_nan_r. }
  destruct (argmax_nanmax dd ltac:(discriminate) Hnan) as [Hat Hfirst].
  assert (Hpct : compute_maxdd_pct dd = np.nanmax dd) by reflexivity.
  destruct (lookup_lt_is_Some_2 (t0 :: ts) (np.argmax dd)) as [t Ht].
  { rewrite Hlen'. eapply lookup_lt_Some, Hat. }
  assert (Edate : compute_maxdd_date (t0 :: ts) dd = inr (Some t)).
  { unfold compute_maxdd_date. rewrite bool_decide_eq_false_2 by discriminate.
    rewrite bool_decide_eq_true_2 by assumption. simpl negb. cbv iota.
    rewrite Ht. reflexivity. }
  pose proof (compute_maxdd_start_eq (t0 :: ts) dd t Hne Hlen') as Er.
  destruct (List.last _ None) as [t'|] eqn:El in Er.
  all: destruct (monotonically_increasing_cons _ _ Hmono) as [Hmin _].
  all: eexists dd, t, _.
  all: split; [rewrite compute_rolling_dd_eq by assumption; rewrite Edd; reflexivity|].
  all: split; [rewrite Hpct; exact (Forall_lookup_1 _ _ _ _ Hpos Hat)|].
  all: split; [exact Edate|].
  all: split; [exact (list_elem_of_lookup_2 _ _ _ Ht)|].
  all: split; [exact Er|].
  - apply last_compress_Some in El as (k & Hm & Hk & _).
    apply maxdd_start_mask in Hm as (d & t'' & _ & Hk' & _ & Hlt).
    assert (t'' = t') by congruence. subst t''.
    assert (Hne0 : PrimFloat.eqb (compute_maxdd_pct dd) 0 = false).
    { destruct (PrimFloat.eqb (compute_maxdd_pct dd) 0) eqn:Heq; [|reflexivity]. exfalso.
      destruct (np.argmax dd) as [|i] eqn:Ei.
      + injection Ht as <-. destruct k as [|k].
        * injection Hk' as <-. lia.
        * pose proof (Forall_lookup_1 _ _ _ _ Hmin Hk') as H. simpl in H. lia.
      + specialize (Hfirst 0%nat 0%float ltac:(lia) eq_refl).
        rewrite <- Hpct in Hfirst. apply eqb_leb in Heq. congruence. }
    split; [split; intros; congruence|].
    intros t1 [= <-]. split; [exact (list_elem_of_lookup_2 _ _ _ Hk)|exact Hlt].
  - assert (Heq : PrimFloat.eqb (compute_maxdd_pct dd) 0 = true).
    { destruct (np.argmax dd) as [|i] eqn:Ei.
      + injection Hat as Hat. rewrite Hpct.
        change (np.nanmax dd) with (fold_left np.fmax dd' 0%float).
        rewrite <- Hat. reflexivity.
      + exfalso.
        assert (Hlt : t0 < t) by exact (Forall_lookup_1 _ _ _ _ Hmin Ht).
        apply (last_compress_None _ _ El 0%nat t0); [|reflexivity].
        apply maxdd_start_mask. exists 0%float, t0. auto. }
    split; [split; auto|discriminate].
Qed.

(** X11: from an equity that is finite and starts positive, on strictly
    increasing timestamps in the range of pandas: [compute_rolling_dd]
    returns, the maximum
    drawdown is [>= 0] and has a date, [compute_maxdd_start] returns a date
    before it or NaT, and it returns NaT exactly when the maximum drawdown
    is 0, in which case [compute_mar] is NaN. *)
Theorem drawdown_chain timestamps equity returns periods_per_year :
  timestamps ≠ [] → length timestamps = length equity →
  monotonically_increasing timestamps = true →
  Forall (λ t, calendar.in_bounds t = true) timestamps →
  Forall (λ x, np.isfinite x = true) equity →
  (∀ x, head equity = Some x → PrimFloat.ltb 0 x = true) →
  ∃ dd mdd_date mdd_start,
    compute_rolling_dd timestamps equity = inr (Tuple (ArrayM8 timestamps) (ArrayF dd))
    ∧ PrimFloat.leb 0 (compute_maxdd_pct dd) = true
    ∧ compute_maxdd_date timestamps dd = inr (Some mdd_date)
    ∧ compute_maxdd_start timestamps dd (Some mdd_date) = inr mdd_start
    ∧ (mdd_start = None ↔ PrimFloat.eqb (compute_maxdd_pct dd) 0 = true)
    ∧ (∀ t0, mdd_start = Some t0 → t0 < mdd_date)
    ∧ (mdd_start = None →
       compute_mar returns periods_per_year (compute_maxdd_pct dd) = nan).
Proof.
  intros Hne Hlen Hmono Hbounds Hfin Hhead.
  destruct (rolling_dd_chain timestamps equity Hne Hlen Hmono Hbounds Hfin Hhead)
    as (dd & mdd_date & mdd_start & Hdd & Hpct & Hdate & _ & Hstart & Hiff & Hlt).
  exists dd, mdd_date, mdd_start.
  split; [exact Hdd|]. split; [exact Hpct|]. split; [exact Hdate|].
  split; [exact Hstart|]. split; [exact Hiff|].
  split; [intros t0 Ht0; apply (Hlt t0 Ht0)|].
  intros Hr. apply Hiff in Hr. unfold compute_mar. rewrite Hr, !orb_true_r. reflexivity.
Qed.

Lemma drawdown_chain_witness :
  ∃ dd mdd_date mdd_start,
    compute_rolling_dd [1; 2; 3] [2; 1; 3]%float = inr (Tuple (ArrayM8 [1; 2; 3]) (ArrayF dd))
    ∧ PrimFloat.leb 0 (compute_maxdd_pct dd) = true
    ∧ compute_maxdd_date [1; 2; 3] dd = inr (Some mdd_date)
    ∧ compute_maxdd_start [1; 2; 3] dd (Some mdd_date) = inr mdd_start
    ∧ (mdd_start = None ↔ PrimFloat.eqb (compute_maxdd_pct dd) 0 = true)
    ∧ (∀ t0, mdd_start = Some t0 → t0 < mdd_date)
    ∧ (mdd_start = None →
       compute_mar [1; -0.5; 2]%float 252 (compute_maxdd_pct dd) = nan).
Proof.
  apply (drawdown_chain [1; 2; 3] [2; 1; 3]%float [1; -0.5; 2]%float 252).
  - discriminate.
  - reflexivity.
  - reflexivity.
  - repeat constructor.
  - repeat constructor.
  - intros x [= <-]. reflexivity.
Defined.

(** [np.argmax] returns an index of the vector. *)
Lemma argmax_from_lt ip : ∀ mp max_ind i,
  (max_ind < i)%nat → (np.argmax_from mp max_ind i ip < i + length ip)%nat.
Proof.
  induction ip as [|x ip IH]; intros mp max_ind i Hlt; simpl; [lia|].
  destruct (np.isnan mp); [lia|].
  destruct (negb _).
  - specialize (IH x i (S i) ltac:(lia)). lia.
  - specialize (IH mp max_ind (S i) ltac:(lia)). lia.
Qed.

Lemma argmax_lt a : a ≠ [] → (np.argmax a < length a)%nat.
Proof.
  destruct a as [|x a]; [contradiction|]. intros _. unfold np.argmax.
  pose proof (argmax_from_lt a x 0%nat 1%nat ltac:(lia)). simpl. lia.
Qed.

(** X27: on dates and drawdowns of one length [compute_maxdd_date] and
    [compute_maxdd_start] return.  [compute_maxdd_date] returns NaT on the
    empty series, and on any other the entry of the dates at the index of
    the maximum, which is an index of the dates; a date that
    [compute_maxdd_start] returns is a date of the series. *)
Theorem maxdd_functions_return rolling_dd_dates rolling_dd mdd_date :
  length rolling_dd_dates = length rolling_dd →
  (∃ r, compute_maxdd_date rolling_dd_dates rolling_dd = inr r
        ∧ (rolling_dd_dates = [] → r = None)
        ∧ (rolling_dd_dates ≠ [] →
           (np.argmax rolling_dd < length rolling_dd_dates)%nat
           ∧ r = rolling_dd_dates !! np.argmax rolling_dd))
  ∧ (∃ r, compute_maxdd_start rolling_dd_dates rolling_dd mdd_date = inr r
          ∧ (∀ t, r = Some t → t ∈ rolling_dd_dates)).
Proof.
  intros Hlen. split.
  - unfold compute_maxdd_date.
    destruct rolling_dd_dates as [|t0 ts].
    + exists None. simpl. split; [reflexivity|]. split; [reflexivity|contradiction].
    + rewrite bool_decide_eq_false_2 by discriminate.
      rewrite bool_decide_eq_true_2 by assumption. simpl negb. cbv iota.
      assert (Hlt : (np.argmax rolling_dd < length (t0 :: ts))%nat).
      { rewrite Hlen. apply argmax_lt. destruct rolling_dd; discriminate. }
      destruct (lookup_lt_is_Some_2 (t0 :: ts) (np.argmax rolling_dd) Hlt) as [t Ht].
      rewrite Ht. exists (Some t). split; [reflexivity|].
      split; [discriminate|]. intros _. split; [exact Hlt|reflexivity].
  - destruct mdd_date as [m|]; [|exists None; split; [reflexivity|discriminate]].
    destruct rolling_dd_dates as [|t0 ts].
    + exists None. split; [reflexivity|discriminate].
    + rewrite compute_maxdd_start_eq by (discriminate || assumption).
      eexists. split; [reflexivity|].
      intros t Ht. apply last_compress_Some in Ht as (k & _ & Hk & _).
      exact (list_elem_of_lookup_2 _ _ _ Hk).
Qed.

Lemma maxdd_functions_return_witness :
  (∃ r, compute_maxdd_date [1; 2; 3] [0; nan; 0.5]%float = inr r
        ∧ ([1; 2; 3] = [] → r = None)
        ∧ ([1; 2; 3] ≠ [] →
           (np.argmax [0; nan; 0.5]%float < 3)%nat
           ∧ r = [1; 2; 3] !! np.argmax [0; nan; 0.5]%float))
  ∧ (∃ r, compute_maxdd_start [1; 2; 3] [0; nan; 0.5]%float (Some 3) = inr r
          ∧ (∀ t, r = Some t → t ∈ [1; 2; 3])).
Proof.
  apply (maxdd_functions_return [1; 2; 3] [0; nan; 0.5]%float (Some 3)). reflexivity.
Defined.

(** ** Sharpe and Sortino *)

Lemma up_periods_none returns :
  up_periods returns = 0%nat → Forall (λ x, PrimFloat.ltb 0 x = false) returns.
Proof.
  unfold up_periods. induction returns as [|x returns IH]; simpl; [constructor|].
  destruct (PrimFloat.ltb 0 x) eqn:E; [discriminate|]. constructor; auto.
Qed.

(** X12: when no return is above 0 (the metric "up_periods" is 0),
    [compute_sortino] and [compute_sharpe] return the same number. *)
Theorem sortino_is_sharpe_without_gains returns amean periods_per_year :
  up_periods returns = 0%nat →
  compute_sortino returns amean periods_per_year
  = compute_sharpe returns amean periods_per_year.
Proof.
  intros H. apply up_periods_none in H. unfold compute_sortino, compute_sharpe.
  destruct (_ || _); [reflexivity|]. cbv zeta.
  replace (map (λ x, if PrimFloat.ltb 0 x then 0%float else x)
             (map (λ x, if negb (np.isfinite x) then 0%float else x) returns))
    with (map (λ x, if negb (np.isfinite x) then 0%float else x) returns);
    [reflexivity|].
  rewrite map_map. apply map_ext_Forall.
  eapply Forall_impl; [exact H|]. simpl. intros x Hx.
  destruct (negb (np.isfinite x)); [reflexivity|]. rewrite Hx. reflexivity.
Qed.

Lemma sortino_is_sharpe_without_gains_witness :
  compute_sortino [-1; 0; -2]%float (-1) 252 = compute_sharpe [-1; 0; -2]%float (-1) 252.
Proof.
  apply (sortino_is_sharpe_without_gains [-1; 0; -2]%float (-1) 252).
  reflexivity.
Defined.

(** ** The trailing three years, on every series *)

Ltac cal_cases := repeat match goal with
  | |- context [if ?a <? ?b then _ else _] => destruct (Z.ltb_spec a b)
  | |- context [if ?a <=? ?b then _ else _] => destruct (Z.leb_spec a b)
  | H : context [if ?a <? ?b then _ else _] |- _ => destruct (Z.ltb_spec a b)
  | H : context [if ?a <=? ?b then _ else _] |- _ => destruct (Z.leb_spec a b) end.

Lemma leap_day_year z :
  calendar.month (calendar.civil_from_days z) = 2 →
  calendar.day (calendar.civil_from_days z) = 29 →
  (calendar.year (calendar.civil_from_days z) - 3) mod 4 = 1.
Proof.
  unfold calendar.civil_from_days. simpl. intros Hm Hd.
  cal_cases; Z.div_mod_to_equations; lia.
Qed.

Lemma civil_day_bounds z :
  let d := calendar.civil_from_days z in
  calendar.day d <= 31
  ∧ (calendar.month d = 2 → calendar.day d <= 29)
  ∧ (calendar.month d = 4 ∨ calendar.month d = 6 ∨ calendar.month d = 9
     ∨ calendar.month d = 11 → calendar.day d <= 30).
Proof.
  unfold calendar.civil_from_days. cbn [calendar.day calendar.month].
  split; [|split]; [|intros Hm|intros Hm]; cal_cases; Z.div_mod_to_equations; lia.
Qed.

Lemma civil_day_any_year z y :
  let d := calendar.civil_from_days z in
  ¬ (calendar.month d = 2 ∧ calendar.day d = 29) →
  calendar.day d <= calendar.days_in_month y (calendar.month d).
Proof.
  intros d Hn. destruct (civil_day_bounds z) as (H31 & H29 & H30). fold d in H31, H29, H30.
  unfold calendar.days_in_month.
  destruct (Z.eqb_spec (calendar.month d) 2) as [E2|_].
  - specialize (H29 E2). destruct (calendar.is_leap y); lia.
  - destruct ((_ =? 4) || _ || _ || _) eqn:E; [|lia].
    apply H30. repeat (apply orb_true_iff in E as [E|E]); apply Z.eqb_eq in E; auto.
Qed.

Lemma three_years y m d :
  let a := calendar.days_from_civil {| calendar.year := y - 3; calendar.month := m; calendar.day := d |} in
  let b := calendar.days_from_civil {| calendar.year := y; calendar.month := m; calendar.day := d |} in
  b - a = 1095 ∨ b - a = 1096.
Proof.
  unfold calendar.days_from_civil. simpl.
  destruct (Z.leb_spec m 2); destruct (Z.ltb_spec 2 m); Z.div_mod_to_equations; lia.
Qed.

(** X13: when the last timestamp is no 29 February and lies between
    1680-09-22 and 2262-04-11, the cutoff of the three-year window exists
    and lies 1095 or 1096 days before the last timestamp. *)
Theorem start_3yr_defined timestamps :
  let z := List.last timestamps 0 in
  let d := calendar.civil_from_days z in
  -105655 <= z <= 106751 →
  ¬ (calendar.month d = 2 ∧ calendar.day d = 29) →
  ∃ c, start_3yr timestamps = inr c ∧ (z - c = 1095 ∨ z - c = 1096).
Proof.
  intros z d Hz Hleap. unfold start_3yr, calendar.to_datetime. fold z.
  assert (Hin : calendar.in_bounds z = true).
  { unfold calendar.in_bounds. apply andb_true_iff. split; apply Z.leb_le; lia. }
  rewrite Hin. unfold exn_bind. fold d. unfold calendar.replace_year.
  pose proof (civil_day_any_year z (calendar.year d - 3) Hleap) as Hday. fold d in Hday.
  pose proof (days_from_civil_from_days z) as Hround. fold d in Hround.
  pose proof (three_years (calendar.year d) (calendar.month d) (calendar.day d)) as H3.
  cbv zeta in H3.
  replace {| calendar.year := calendar.year d; calendar.month := calendar.month d;
             calendar.day := calendar.day d |} with d in H3 by (destruct d; reflexivity).
  rewrite Hround in H3.
  set (c := calendar.days_from_civil
              {| calendar.year := calendar.year d - 3; calendar.month := calendar.month d;
                 calendar.day := calendar.day d |}) in *.
  rewrite (proj2 (Z.leb_le _ _) Hday).
  assert (Hc : calendar.in_bounds c = true).
  { unfold calendar.in_bounds. apply andb_true_iff. split; apply Z.leb_le; lia. }
  rewrite Hc. simpl. exists c. split; [reflexivity|exact H3].
Qed.

Lemma start_3yr_defined_witness :
  ∃ c, start_3yr [16436; 17532] = inr c ∧ (17532 - c = 1095 ∨ 17532 - c = 1096).
Proof.
  apply (start_3yr_defined [16436; 17532]).
  - simpl. lia.
  - vm_compute. intros [H _]. discriminate.
Defined.

Lemma start_3yr_leap timestamps :
  let z := List.last timestamps 0 in
  let d := calendar.civil_from_days z in
  calendar.month d = 2 → calendar.day d = 29 →
  start_3yr timestamps = inl ValueError.
Proof.
  intros z d Hm Hd. unfold start_3yr, calendar.to_datetime. fold z.
  destruct (calendar.in_bounds z); [|reflexivity].
  unfold exn_bind. fold d. unfold calendar.replace_year, calendar.days_in_month.
  rewrite Hm, Hd. change (2 =? 2) with true. cbv iota.
  pose proof (leap_day_year z Hm Hd) as Hy. fold d in Hy.
  unfold calendar.is_leap. rewrite Hy.
  change (1 =? 0) with false. cbn [andb].
  change (29 <=? 28) with false. reflexivity.
Qed.

(** X14: on a series that ends on a 29 February, [compute_dates_3yr],
    [compute_returns_3yr] and [compute_rolling_dd_3yr] raise ValueError:
    the year three years earlier has no such day. *)
Theorem three_year_metrics_leap_day timestamps returns equity :
  let d := calendar.civil_from_days (List.last timestamps 0) in
  timestamps ≠ [] →
  calendar.month d = 2 → calendar.day d = 29 →
  compute_dates_3yr timestamps = inl ValueError
  ∧ (length timestamps = length returns →
     compute_returns_3yr timestamps returns = inl ValueError)
  ∧ compute_rolling_dd_3yr timestamps equity = inl ValueError.
Proof.
  intros d Hne Hm Hd.
  pose proof (start_3yr_leap timestamps Hm Hd) as Hs.
  assert (H0 : bool_decide (length timestamps = 0%nat) = false)
    by (apply bool_decide_eq_false_2; destruct timestamps; [contradiction|discriminate]).
  assert (Hdates : compute_dates_3yr timestamps = inl ValueError).
  { unfold compute_dates_3yr. rewrite H0, Hs. reflexivity. }
  split; [exact Hdates|]. split.
  - intros Hlen. unfold compute_returns_3yr.
    rewrite H0, bool_decide_eq_true_2 by assumption. simpl. rewrite Hdates. reflexivity.
  - unfold compute_rolling_dd_3yr. rewrite H0, Hs. reflexivity.
Qed.

Lemma three_year_metrics_leap_day_witness :
  compute_dates_3yr [17532; 18321] = inl ValueError
  ∧ (length [17532; 18321] = length [0.5; 0.25]%float →
     compute_returns_3yr [17532; 18321] [0.5; 0.25]%float = inl ValueError)
  ∧ compute_rolling_dd_3yr [17532; 18321] [1; 2]%float = inl ValueError.
Proof.
  apply (three_year_metrics_leap_day [17532; 18321] [0.5; 0.25]%float [1; 2]%float).
  - discriminate.
  - reflexivity.
  - reflexivity.
Defined.

(** On strictly increasing timestamps a mask that holds from some date on
    keeps a suffix. *)
Lemma compress_mask_suffix {A} (p : Z → bool) (timestamps : list Z) (a : list A) :
  (∀ t t', t < t' → p t = true → p t' = true) →
  monotonically_increasing timestamps = true →
  length a = length timestamps →
  np.compress (map p timestamps) a
  = drop (length (List.filter (λ t, negb (p t)) timestamps)) a.
Proof.
  intros Hup. revert a. induction timestamps as [|t ts IH]; intros a Hmono Hlen.
  - destruct a; [reflexivity|discriminate].
  - destruct a as [|x a]; [discriminate|].
    destruct (monotonically_increasing_cons _ _ Hmono) as [Hmin Hmono'].
    simpl. destruct (p t) eqn:Hp; simpl.
    + assert (Hall : Forall (λ t', p t' = true) ts).
      { eapply Forall_impl; [exact Hmin|]. simpl. intros t' Ht'. eapply Hup; eauto. }
      assert (Hfilter : List.filter (λ t, negb (p t)) ts = []).
      { clear -Hall. induction Hall as [|y l Hy _ IHl]; simpl; [reflexivity|].
        rewrite Hy. simpl. exact IHl. }
      rewrite Hfilter. simpl. f_equal.
      rewrite IH by (assumption || (simpl in Hlen; lia)).
      rewrite Hfilter. reflexivity.
    + apply IH; [assumption|simpl in Hlen; lia].
Qed.

Lemma filter_length_le {A} (f : A → bool) l : (length (List.filter f l) ≤ length l)%nat.
Proof. induction l as [|x l IH]; simpl; [lia|]. destruct (f x); simpl; lia. Qed.

Lemma filter_ext_in_Z (f g : Z → bool) l :
  (∀ x, f x = g x) → List.filter f l = List.filter g l.
Proof. intros H. induction l as [|x l IH]; simpl; [reflexivity|]. rewrite H, IH. reflexivity. Qed.

(** X15: on strictly increasing timestamps with a cutoff,
    [compute_dates_3yr] and [compute_returns_3yr] drop the same number [k]
    of leading entries, the entries at or before the cutoff, and keep the
    rest: a suffix that is not empty, after the cutoff. *)
Theorem three_year_window timestamps returns c :
  let k := length (List.filter (λ t, t <=? c) timestamps) in
  timestamps ≠ [] → length timestamps = length returns →
  monotonically_increasing timestamps = true →
  start_3yr timestamps = inr c →
  compute_dates_3yr timestamps = inr (drop k timestamps)
  ∧ compute_returns_3yr timestamps returns = inr (drop k returns)
  ∧ (k < length timestamps)%nat
  ∧ Forall (λ t, c < t) (drop k timestamps).
Proof.
  intros k Hne Hlen Hmono Hc.
  assert (Hk : ∀ A (a : list A), length a = length timestamps →
             np.compress (map (λ t, c <? t) timestamps) a = drop k a).
  { intros A a Ha. rewrite compress_mask_suffix; [|intros t t' Hlt Ht|assumption..].
    - unfold k. do 2 f_equal. apply filter_ext_in_Z. intros t.
      rewrite Z.ltb_antisym, negb_involutive. reflexivity.
    - apply Z.ltb_lt in Ht. apply Z.ltb_lt. lia. }
  rewrite (compute_dates_3yr_window _ _ Hne Hc).
  rewrite (compute_returns_3yr_window _ _ _ Hne Hlen Hmono Hc).
  rewrite !Hk by congruence.
  split; [reflexivity|]. split; [reflexivity|].
  destruct (window_from_first timestamps c Hmono Hne (start_3yr_before_last _ _ Hc))
    as (t0 & rest & Hw & _).
  rewrite Hk in Hw by reflexivity. split.
  - destruct (decide (k < length timestamps)%nat) as [|Hge]; [assumption|].
    rewrite drop_ge in Hw by lia. discriminate.
  - rewrite <- (Hk _ timestamps eq_refl).
    clear. induction timestamps as [|t ts IH]; simpl; [constructor|].
    destruct (Z.ltb_spec c t); [constructor|]; assumption.
Qed.

Lemma three_year_window_witness :
  compute_dates_3yr [16436; 16800; 17532] = inr (drop 1 [16436; 16800; 17532])
  ∧ compute_returns_3yr [16436; 16800; 17532] [0.5; 0.25; -0.5]%float
    = inr (drop 1 [0.5; 0.25; -0.5]%float)
  ∧ (1 < 3)%nat
  ∧ Forall (λ t, 16436 < t) (drop 1 [16436; 16800; 17532]).
Proof.
  apply (three_year_window [16436; 16800; 17532] [0.5; 0.25; -0.5]%float 16436).
  - discriminate.
  - reflexivity.
  - reflexivity.
  - vm_compute. reflexivity.
Defined.

Lemma count_le_lt timestamps c :
  monotonically_increasing timestamps = true →
  length (List.filter (λ t, t <=? c) timestamps)
  = (length (List.filter (λ t, (t <? c)%Z) timestamps)
     + if bool_decide (c ∈ timestamps) then 1 else 0)%nat.
Proof.
  induction timestamps as [|t ts IH]; intros Hmono; [reflexivity|].
  destruct (monotonically_increasing_cons _ _ Hmono) as [Hmin Hmono'].
  specialize (IH Hmono'). simpl.
  destruct (Z.leb_spec t c) as [Hle|Hgt], (Z.ltb_spec t c) as [Hlt|Hge]; simpl; try lia.
  - rewrite IH. f_equal.
    rewrite (bool_decide_ext (c ∈ t :: ts) (c ∈ ts)); [reflexivity|].
    rewrite elem_of_cons. split; [intros [->|H]; [lia|exact H]|auto].
  - assert (t = c) by lia. subst t.
    assert (Hnone : ∀ f, (∀ t, c < t → f t = false) → List.filter f ts = []).
    { intros f Hf. clear -Hmin Hf. induction Hmin as [|y l Hy _ IHl]; simpl; [reflexivity|].
      rewrite (Hf y Hy). exact IHl. }
    rewrite (Hnone (λ t, t <=? c)) by (intros t Ht; apply Z.leb_gt; lia).
    rewrite (Hnone (λ t, t <? c)) by (intros t Ht; apply Z.ltb_ge; lia).
    rewrite bool_decide_eq_true_2 by left. reflexivity.
  - rewrite IH. f_equal.
    rewrite (bool_decide_ext (c ∈ t :: ts) (c ∈ ts)); [reflexivity|].
    rewrite elem_of_cons. split; [intros [->|H]; [lia|exact H]|auto].
Qed.

(** X16: on strictly increasing timestamps with a cutoff,
    [compute_rolling_dd_3yr] is [compute_rolling_dd] of the entries from
    index [k'] on, the entries at or after the cutoff; [k'] is the [k] of
    [compute_dates_3yr] when the cutoff is no timestamp, and one less when
    it is one: the window then starts with the cutoff. *)
Theorem rolling_dd_3yr_window timestamps equity c :
  let k := length (List.filter (λ t, t <=? c) timestamps) in
  let k' := length (List.filter (λ t, t <? c) timestamps) in
  timestamps ≠ [] → length timestamps = length equity →
  monotonically_increasing timestamps = true →
  start_3yr timestamps = inr c →
  compute_rolling_dd_3yr timestamps equity
  = compute_rolling_dd (drop k' timestamps) (drop k' equity)
  ∧ k = (k' + if bool_decide (c ∈ timestamps) then 1 else 0)%nat
  ∧ (c ∈ timestamps → timestamps !! k' = Some c).
Proof.
  intros k k' Hne Hlen Hmono Hc.
  assert (Hk : ∀ A (a : list A), length a = length timestamps →
             np.compress (map (λ t, c <=? t) timestamps) a = drop k' a).
  { intros A a Ha. rewrite compress_mask_suffix; [|intros t t' Hlt Ht|assumption..].
    - unfold k'. do 2 f_equal. apply filter_ext_in_Z. intros t.
      rewrite Z.leb_antisym, negb_involutive. reflexivity.
    - apply Z.leb_le in Ht. apply Z.leb_le. lia. }
  rewrite (compute_rolling_dd_3yr_window _ _ _ Hne Hlen Hc).
  rewrite !Hk by congruence.
  split; [reflexivity|]. split; [apply count_le_lt; assumption|].
  intros Hin.
  assert (Hd : ∀ t, t ∈ drop k' timestamps ↔ t ∈ timestamps ∧ c ≤ t).
  { intros t. rewrite <- (Hk _ timestamps eq_refl). clear.
    induction timestamps as [|t' ts IH]; simpl.
    - split; [intros H; inversion H|intros [H _]; inversion H].
    - destruct (Z.leb_spec c t'); rewrite ?elem_of_cons, IH, ?elem_of_cons.
      + split; [intros [->|[? ?]]; auto|intros [[->|?] ?]; auto].
      + split; [intros [? ?]; auto|intros [[->|?] ?]; [lia|auto]]. }
  assert (Hmd : monotonically_increasing (drop k' timestamps) = true).
  { rewrite <- (Hk _ timestamps eq_refl). clear -Hmono.
    induction timestamps as [|t ts IH]; [reflexivity|].
    destruct (monotonically_increasing_cons _ _ Hmono) as [Hmin Hmono'].
    simpl map. simpl np.compress. destruct (c <=? t); [|auto].
    specialize (IH Hmono').
    destruct (np.compress (map (λ t0 : Z, c <=? t0) ts) ts) as [|t1 l] eqn:E; [reflexivity|].
    change (monotonically_increasing (t :: t1 :: l))
      with ((t <? t1) && monotonically_increasing (t1 :: l)).
    rewrite IH, andb_true_r. apply Z.ltb_lt.
    assert (Hin : t1 ∈ ts).
    { assert (Hs : t1 :: l `sublist_of` ts).
      { rewrite <- E. clear. induction ts as [|y ts IH]; simpl; [constructor|].
        destruct (c <=? y); [apply sublist_skip|apply sublist_cons]; exact IH. }
      eapply sublist_submseteq, elem_of_submseteq in Hs; [exact Hs|left]. }
    rewrite Forall_forall in Hmin. apply Hmin. exact Hin. }
  destruct (drop k' timestamps) as [|t0 rest] eqn:E.
  - exfalso. pose proof (proj2 (Hd c) (conj Hin (Z.le_refl c))) as H. inversion H.
  - rewrite <- (take_drop k' timestamps) at 1.
    assert (Hlk : (k' < length timestamps)%nat).
    { destruct (decide (k' < length timestamps)%nat); [assumption|].
      rewrite drop_ge in E by lia. discriminate. }
    rewrite lookup_app_r by (rewrite length_take; lia).
    rewrite length_take, Nat.min_l, Nat.sub_diag, E by lia. simpl. f_equal.
    destruct (monotonically_increasing_cons _ _ Hmd) as [Hmin _].
    pose proof (proj2 (Hd c) (conj Hin (Z.le_refl c))) as Hc'.
    pose proof (proj1 (Hd t0) ltac:(left)) as [_ Hc0].
    apply elem_of_cons in Hc' as [->|Hc']; [reflexivity|].
    rewrite Forall_forall in Hmin. specialize (Hmin c Hc'). lia.
Qed.

Lemma rolling_dd_3yr_window_witness :
  let timestamps := [16436; 16800; 17532] in
  let in_series := bool_decide (16436 ∈ timestamps) in
  compute_rolling_dd_3yr timestamps [2; 1; 3]%float
  = compute_rolling_dd (drop 0 timestamps) (drop 0 [2; 1; 3]%float)
  ∧ 1%nat = (0 + if in_series then 1 else 0)%nat
  ∧ (16436 ∈ timestamps → timestamps !! 0%nat = Some 16436).
Proof.
  apply (rolling_dd_3yr_window [16436; 16800; 17532] [2; 1; 3]%float 16436).
  - discriminate.
  - reflexivity.
  - reflexivity.
  - vm_compute. reflexivity.
Defined.

Lemma elem_of_compress (p : Z → bool) (l : list Z) t :
  t ∈ np.compress (map p l) l ↔ t ∈ l ∧ p t = true.
Proof.
  induction l as [|x l IH]; simpl.
  - split; [intros H; inversion H|intros [H _]; inversion H].
  - destruct (p x) eqn:E; rewrite ?elem_of_cons, IH, ?elem_of_cons.
    + split; [intros [->|[? ?]]; auto|intros [[->|?] ?]; auto].
    + split; [intros [? ?]; auto|intros [[->|?] ?]; [congruence|auto]].
Qed.

Lemma last_elem_of (l : list Z) d : l ≠ [] → List.last l d ∈ l.
Proof.
  induction l as [|x l IH]; [contradiction|]. intros _.
  destruct l as [|y l]; [left|]. right. apply IH. discriminate.
Qed.

(** A cutoff that exists lies in the range of pandas, as the last
    timestamp does; on increasing timestamps so does the window between
    them. *)
Lemma start_3yr_in_bounds timestamps c :
  start_3yr timestamps = inr c →
  calendar.in_bounds c = true ∧ calendar.in_bounds (List.last timestamps 0) = true.
Proof.
  unfold start_3yr, calendar.to_datetime, calendar.replace_year, exn_bind.
  destruct (calendar.in_bounds (List.last timestamps 0)) eqn:Hl; [|discriminate].
  destruct (_ && _) eqn:E; [|discriminate].
  apply andb_true_iff in E as [_ E]. intros [= <-]. split; [exact E|reflexivity].
Qed.

Lemma monotonically_increasing_le_last timestamps t :
  monotonically_increasing timestamps = true → t ∈ timestamps →
  t <= List.last timestamps 0.
Proof.
  induction timestamps as [|t0 ts IH]; intros Hmono Hin; [inversion Hin|].
  destruct (monotonically_increasing_cons _ _ Hmono) as [Hmin Hmono'].
  destruct ts as [|t1 ts'].
  - apply list_elem_of_singleton in Hin as ->. simpl. lia.
  - change (List.last (t0 :: t1 :: ts') 0) with (List.last (t1 :: ts') 0).
    apply elem_of_cons in Hin as [->|Hin]; [|apply IH; assumption].
    assert (Hl : t0 < List.last (t1 :: ts') 0).
    { apply (proj1 (Forall_forall _ _) Hmin). apply last_elem_of. discriminate. }
    lia.
Qed.

Lemma window_in_bounds timestamps c :
  monotonically_increasing timestamps = true → start_3yr timestamps = inr c →
  Forall (λ t, calendar.in_bounds t = true)
         (np.compress (map (λ t, c <=? t) timestamps) timestamps).
Proof.
  intros Hmono Hc. apply Forall_forall. intros t Ht.
  apply elem_of_compress in Ht as [Hin Hle]. apply Z.leb_le in Hle.
  pose proof (monotonically_increasing_le_last _ _ Hmono Hin) as Hl.
  destruct (start_3yr_in_bounds _ _ Hc) as [Hbc Hbl].
  unfold calendar.in_bounds in *.
  apply andb_true_iff in Hbc as [Hc1 _]. apply andb_true_iff in Hbl as [_ Hl2].
  apply Z.leb_le in Hc1, Hl2. apply andb_true_iff. split; apply Z.leb_le; lia.
Qed.

(** X17: from an equity that is finite and positive, on strictly
    increasing timestamps with a cutoff: [compute_rolling_dd_3yr] returns a
    pair, [compute_maxdd_pct_3yr] is [>= 0], [compute_maxdd_date_3yr]
    returns a timestamp at or after the cutoff, and
    [compute_maxdd_start_3yr] returns NaT or a timestamp between the cutoff
    and that date. *)
Theorem three_year_drawdowns timestamps equity c :
  timestamps ≠ [] → length timestamps = length equity →
  monotonically_increasing timestamps = true →
  Forall positive_finite equity →
  start_3yr timestamps = inr c →
  ∃ dates dd mdd_date mdd_start,
    compute_rolling_dd_3yr timestamps equity = inr (Tuple (ArrayM8 dates) (ArrayF dd))
    ∧ PrimFloat.leb 0 (compute_maxdd_pct_3yr dd) = true
    ∧ compute_maxdd_date_3yr dates dd = inr (Some mdd_date)
    ∧ mdd_date ∈ timestamps ∧ c <= mdd_date
    ∧ compute_maxdd_start_3yr dates dd (Some mdd_date) = inr mdd_start
    ∧ (∀ t0, mdd_start = Some t0 → t0 ∈ timestamps ∧ c <= t0 < mdd_date).
Proof.
  intros Hne Hlen Hmono Hpos Hc.
  rewrite (compute_rolling_dd_3yr_window _ _ _ Hne Hlen Hc).
  set (mask := map (λ t, c <=? t) timestamps).
  set (dates := np.compress mask timestamps).
  set (equity' := np.compress mask equity).
  assert (Hin : ∀ t, t ∈ dates ↔ t ∈ timestamps ∧ (c <=? t) = true)
    by (intros t; apply elem_of_compress).
  assert (Hpos' : Forall positive_finite equity')
    by (apply (Forall_sublist _ _ _ (compress_sublist mask equity) Hpos)).
  destruct (rolling_dd_chain dates equity')
    as (dd & mdd_date & mdd_start & Hdd & Hpct & Hdate & Hd & Hstart & _ & Hlt).
  - intros E. pose proof (start_3yr_before_last _ _ Hc) as Hlast.
    assert (Hle : (c <=? List.last timestamps 0) = true) by (apply Z.leb_le; lia).
    pose proof (proj2 (Hin (List.last timestamps 0))
                  (conj (last_elem_of _ 0 Hne) Hle)) as H.
    rewrite E in H. inversion H.
  - apply compress_length_eq. exact Hlen.
  - exact (monotonically_increasing_sublist _ _ (compress_sublist mask timestamps) Hmono).
  - exact (window_in_bounds _ _ Hmono Hc).
  - eapply Forall_impl; [exact Hpos'|]. intros x [Hx _]. exact Hx.
  - intros x Hx. destruct equity' as [|y e]; [discriminate|]. injection Hx as ->.
    inversion Hpos' as [|? ? [_ Hy] _]. exact Hy.
  - exists dates, dd, mdd_date, mdd_start.
    apply Hin in Hd as [Hd Hcd]. apply Z.leb_le in Hcd.
    split; [exact Hdd|]. split; [exact Hpct|]. split; [exact Hdate|].
    split; [exact Hd|]. split; [exact Hcd|]. split; [exact Hstart|].
    intros t0 Ht0. destruct (Hlt t0 Ht0) as [Hin0 Hlt0].
    apply Hin in Hin0 as [Hin0 Hc0]. apply Z.leb_le in Hc0. auto.
Qed.

Lemma three_year_drawdowns_witness :
  ∃ dates dd mdd_date mdd_start,
    compute_rolling_dd_3yr [16436; 16800; 17532] [2; 1; 3]%float
      = inr (Tuple (ArrayM8 dates) (ArrayF dd))
    ∧ PrimFloat.leb 0 (compute_maxdd_pct_3yr dd) = true
    ∧ compute_maxdd_date_3yr dates dd = inr (Some mdd_date)
    ∧ mdd_date ∈ [16436; 16800; 17532] ∧ 16436 <= mdd_date
    ∧ compute_maxdd_start_3yr dates dd (Some mdd_date) = inr mdd_start
    ∧ (∀ t0, mdd_start = Some t0 → t0 ∈ [16436; 16800; 17532] ∧ 16436 <= t0 < mdd_date).
Proof.
  apply (three_year_drawdowns [16436; 16800; 17532] [2; 1; 3]%float 16436).
  - discriminate.
  - reflexivity.
  - reflexivity.
  - repeat constructor.
  - vm_compute. reflexivity.
Defined.

(** X28: on timestamps, returns and equity of one length, the only
    failure of [compute_dates_3yr], [compute_returns_3yr] and
    [compute_rolling_dd_3yr] is a ValueError: the window holds the last
    timestamp, so [timestamps_3yr[0]] exists, and the assertion of
    [compute_rolling_dd] holds on the window.  For the first two it is the
    ValueError of the cutoff.  For [compute_rolling_dd_3yr] it is that of
    the cutoff or that of a timestamp of the window outside the range of
    pandas, which does not occur on increasing timestamps. *)
Theorem three_year_failures timestamps returns equity :
  length timestamps = length returns → length timestamps = length equity →
  (∀ e, compute_dates_3yr timestamps = inl e →
     e = ValueError ∧ start_3yr timestamps = inl ValueError)
  ∧ (∀ e, compute_returns_3yr timestamps returns = inl e →
       e = ValueError ∧ start_3yr timestamps = inl ValueError)
  ∧ (∀ e, compute_rolling_dd_3yr timestamps equity = inl e →
       e = ValueError
       ∧ (start_3yr timestamps = inl ValueError
          ∨ ∃ c t, start_3yr timestamps = inr c ∧ t ∈ timestamps ∧ c <= t
                   ∧ calendar.in_bounds t = false))
  ∧ (monotonically_increasing timestamps = true →
     ∀ e, compute_rolling_dd_3yr timestamps equity = inl e →
       start_3yr timestamps = inl ValueError).
Proof.
  intros Hr He.
  assert (Hs : ∀ e, start_3yr timestamps = inl e → e = ValueError).
  { unfold start_3yr, calendar.to_datetime, calendar.replace_year, exn_bind.
    intros e. destruct (calendar.in_bounds _); [|intros [= <-]; reflexivity].
    destruct (_ && _); [discriminate|intros [= <-]; reflexivity]. }
  assert (Hd : ∀ e, compute_dates_3yr timestamps = inl e →
                 e = ValueError ∧ start_3yr timestamps = inl ValueError).
  { intros e. unfold compute_dates_3yr.
    destruct (bool_decide _); [discriminate|].
    destruct (start_3yr timestamps) as [e'|c] eqn:E; simpl; [|discriminate].
    intros [= <-]. rewrite (Hs e' eq_refl). auto. }
  assert (Hdd : ∀ e, compute_rolling_dd_3yr timestamps equity = inl e →
       e = ValueError
       ∧ (start_3yr timestamps = inl ValueError
          ∨ ∃ c t, start_3yr timestamps = inr c ∧ t ∈ timestamps ∧ c <= t
                   ∧ calendar.in_bounds t = false)).
  { intros e. unfold compute_rolling_dd_3yr.
    destruct (bool_decide (length timestamps = 0%nat)) eqn:E0; [discriminate|].
    destruct (start_3yr timestamps) as [e'|c] eqn:Ec; simpl.
    - intros [= <-]. rewrite (Hs e' eq_refl). auto.
    - rewrite length_map, bool_decide_eq_true_2 by assumption. simpl negb. cbv iota.
      unfold compute_rolling_dd.
      rewrite bool_decide_eq_true_2 by (apply compress_length_eq; assumption).
      simpl negb. cbv iota.
      match goal with |- context [if ?b then _ else _] => destruct b end; [discriminate|].
      destruct (Series _ _) as [e1|s1] eqn:Es; simpl; [|discriminate].
      intros [= <-]. apply Series_inl_inv in Es as [-> Hex].
      split; [reflexivity|]. right.
      apply Exists_exists in Hex as (t & Ht & Hb).
      apply elem_of_compress in Ht as [Hin Hle]. apply Z.leb_le in Hle.
      exists c, t. auto. }
  split; [exact Hd|]. split; [|split; [exact Hdd|]].
  - intros e. unfold compute_returns_3yr.
    destruct (bool_decide (length timestamps = 0%nat)) eqn:E0; [discriminate|].
    apply bool_decide_eq_false in E0.
    rewrite bool_decide_eq_true_2 by assumption. simpl negb. cbv iota.
    destruct (compute_dates_3yr timestamps) as [e'|ts3] eqn:E; simpl.
    + intros [= <-]. apply Hd. reflexivity.
    + destruct ts3 as [|t0 rest]; [|discriminate]. exfalso.
      unfold compute_dates_3yr in E. rewrite bool_decide_eq_false_2 in E by assumption.
      destruct (start_3yr timestamps) as [e'|c] eqn:Ec; simpl in E; [discriminate|].
      injection E as E.
      assert (Hne : timestamps ≠ []) by (intros ->; apply E0; reflexivity).
      pose proof (start_3yr_before_last _ _ Ec) as Hlast.
      assert (Hlt : (c <? List.last timestamps 0) = true) by (apply Z.ltb_lt; lia).
      pose proof (proj2 (elem_of_compress (λ t, c <? t) timestamps (List.last timestamps 0))
                    (conj (last_elem_of _ 0 Hne) Hlt)) as Hin.
      rewrite E in Hin. inversion Hin.
  - intros Hmono e Hfail.
    destruct (Hdd e Hfail) as [_ [Hcut|(c & t & Hc & Hin & Hle & Hb)]]; [exact Hcut|].
    exfalso.
    pose proof (window_in_bounds _ _ Hmono Hc) as Hw.
    rewrite Forall_forall in Hw.
    rewrite Hw in Hb; [discriminate|].
    apply elem_of_compress. split; [exact Hin|apply Z.leb_le; exact Hle].
Qed.

Lemma three_year_failures_witness :
  (∀ e, compute_dates_3yr [17532; 18321] = inl e →
     e = ValueError ∧ start_3yr [17532; 18321] = inl ValueError)
  ∧ (∀ e, compute_returns_3yr [17532; 18321] [0.5; 0.25]%float = inl e →
       e = ValueError ∧ start_3yr [17532; 18321] = inl ValueError).
Proof.
  destruct (three_year_failures [17532; 18321] [0.5; 0.25]%float [1; 2]%float)
    as (H1 & H2 & _); [reflexivity..|].
  split; assumption.
Defined.

(** ** Returns by year *)

Lemma insert_key_elem_of k keys x : x ∈ insert_key k keys ↔ x = k ∨ x ∈ keys.
Proof.
  induction keys as [|k' keys IH]; simpl.
  - rewrite list_elem_of_singleton. split; [auto|intros [H|H]; [exact H|inversion H]].
  - destruct (Z.ltb_spec k k'); [rewrite elem_of_cons; tauto|].
    destruct (Z.eqb_spec k k') as [->|Hne].
    + rewrite elem_of_cons. tauto.
    + rewrite !elem_of_cons, IH. tauto.
Qed.

Lemma insert_key_sorted k keys :
  StronglySorted Z.lt keys → StronglySorted Z.lt (insert_key k keys).
Proof.
  induction keys as [|k' keys IH]; simpl; intros Hs.
  - repeat constructor.
  - apply StronglySorted_inv in Hs as [Hs Hall].
    destruct (Z.ltb_spec k k') as [Hlt|Hge].
    + constructor; [constructor; assumption|].
      constructor; [exact Hlt|]. eapply Forall_impl; [exact Hall|]. simpl. lia.
    + destruct (Z.eqb_spec k k') as [->|Hne]; [constructor; assumption|].
      constructor; [auto|]. apply Forall_forall. intros x Hx.
      apply insert_key_elem_of in Hx as [->|Hx]; [lia|].
      rewrite Forall_forall in Hall. auto.
Qed.

Lemma group_keys_elem_of keys x : x ∈ group_keys keys ↔ x ∈ keys.
Proof.
  unfold group_keys. induction keys as [|k keys IH]; simpl; [reflexivity|].
  rewrite insert_key_elem_of, elem_of_cons, IH. reflexivity.
Qed.

Lemma group_keys_sorted keys : StronglySorted Z.lt (group_keys keys).
Proof.
  unfold group_keys. induction keys as [|k keys IH]; simpl; [constructor|].
  apply insert_key_sorted, IH.
Qed.

Lemma sorted_lt_NoDup l : StronglySorted Z.lt l → NoDup l.
Proof.
  induction 1 as [|x l _ IH Hall]; constructor; [|assumption].
  intros Hin. rewrite Forall_forall in Hall. specialize (Hall x Hin). lia.
Qed.

(** One more entry goes to the bucket of its key. *)
Lemma buckets_cons {A} (f : Z → list A) (x : A) k0 gk :
  NoDup gk → k0 ∈ gk →
  concat (map (λ k, if k =? k0 then x :: f k else f k) gk)
  ≡ₚ x :: concat (map f gk).
Proof.
  induction 1 as [|k gk Hk Hnd IH]; intros Hin; [inversion Hin|].
  simpl. destruct (Z.eqb_spec k k0) as [->|Hne].
  - simpl. f_equiv. f_equiv.
    clear IH Hin Hnd. induction gk as [|k gk IH]; [reflexivity|].
    apply not_elem_of_cons in Hk as [Hne Hk]. simpl.
    destruct (Z.eqb_spec k k0); [congruence|]. rewrite IH by assumption. reflexivity.
  - apply elem_of_cons in Hin as [->|Hin]; [contradiction|].
    rewrite (IH Hin). symmetry. apply Permutation_middle.
Qed.

Lemma buckets_permutation {A} (keys : list Z) : ∀ (s : list A) gk,
  length keys = length s → NoDup gk → (∀ k, k ∈ keys → k ∈ gk) →
  concat (map (λ k, np.compress (map (Z.eqb k) keys) s) gk) ≡ₚ s.
Proof.
  induction keys as [|k0 keys IH]; intros [|x s] gk Hlen Hnd Hin; try discriminate.
  - simpl. induction gk as [|k gk IHgk]; [reflexivity|].
    simpl. apply IHgk; [inversion Hnd; assumption|intros k' H; inversion H].
  - trans (x :: concat (map (λ k, np.compress (map (Z.eqb k) keys) s) gk)).
    + assert (Hk0 : k0 ∈ gk) by (apply Hin; left).
      rewrite <- (buckets_cons _ x k0 gk Hnd Hk0).
      reflexivity.
    + f_equiv. apply IH; [simpl in Hlen; lia|assumption|].
      intros k Hk. apply Hin. right. exact Hk.
Qed.

Lemma compress_key_nonempty {A} (keys : list Z) : ∀ (s : list A) k,
  length keys = length s → k ∈ keys → np.compress (map (Z.eqb k) keys) s ≠ [].
Proof.
  induction keys as [|k0 keys IH]; intros [|x s] k Hlen Hin; try discriminate.
  - inversion Hin.
  - simpl. destruct (Z.eqb_spec k k0) as [->|Hne]; [discriminate|].
    apply IH; [simpl in Hlen; lia|].
    apply elem_of_cons in Hin as [->|Hin]; [contradiction|exact Hin].
Qed.

Lemma years_of_length timestamps years :
  years_of timestamps = inr years → length years = length timestamps.
Proof.
  revert years. induction timestamps as [|t ts IH]; intros years; simpl.
  - intros [= <-]. reflexivity.
  - destruct (calendar.to_datetime t); simpl; [discriminate|].
    destruct (years_of ts); simpl; [discriminate|].
    intros [= <-]. simpl. f_equal. apply IH. reflexivity.
Qed.

Lemma years_of_inr timestamps :
  Forall (λ t, calendar.in_bounds t = true) timestamps →
  years_of timestamps
  = inr (map (λ t, calendar.year (calendar.civil_from_days t)) timestamps).
Proof.
  induction 1 as [|t ts Ht _ IH]; simpl; [reflexivity|].
  unfold calendar.to_datetime. rewrite Ht. simpl. rewrite IH. reflexivity.
Qed.

Lemma years_of_inl timestamps e :
  years_of timestamps = inl e →
  e = ValueError ∧ Exists (λ t, calendar.in_bounds t = false) timestamps.
Proof.
  induction timestamps as [|t ts IH]; simpl; [discriminate|].
  unfold calendar.to_datetime.
  destruct (calendar.in_bounds t) eqn:Ht; simpl.
  - destruct (years_of ts); simpl; [|discriminate].
    intros [= <-]. destruct (IH eq_refl) as [-> H]. split; [reflexivity|right; exact H].
  - intros [= <-]. split; [reflexivity|left; exact Ht].
Qed.

(** The groups that [compute_bucketed_returns] returns. *)
Lemma compute_bucketed_returns_groups timestamps returns years buckets :
  compute_bucketed_returns timestamps returns = inr (years, buckets) →
  length years = length buckets
  ∧ StronglySorted Z.lt years
  ∧ Forall (λ b, b ≠ []) buckets
  ∧ concat buckets ≡ₚ returns
  ∧ (∀ t, t ∈ timestamps → calendar.year (calendar.civil_from_days t) ∈ years).
Proof.
  unfold compute_bucketed_returns.
  destruct (bool_decide (length timestamps = length returns)) eqn:Hlen; simpl;
    [|discriminate].
  apply bool_decide_eq_true in Hlen.
  destruct (bool_decide (length timestamps = 0%nat)) eqn:H0.
  - apply bool_decide_eq_true in H0. intros [= <- <-].
    destruct timestamps; [|discriminate]. destruct returns; [|discriminate].
    repeat split; try constructor. intros t Ht. inversion Ht.
  - destruct (years_of timestamps) as [e|ys] eqn:Hys; simpl; [discriminate|].
    intros [= <- <-]. unfold groupby. rewrite !map_map. simpl.
    pose proof (years_of_length _ _ Hys) as Hl.
    split; [rewrite !length_map; reflexivity|].
    split; [rewrite map_id; apply group_keys_sorted|].
    split; [|split].
    + apply Forall_map, Forall_forall. intros k Hk. simpl.
      apply compress_key_nonempty; [congruence|]. apply group_keys_elem_of. exact Hk.
    + apply buckets_permutation; [congruence| |].
      * apply sorted_lt_NoDup, group_keys_sorted.
      * intros k. apply group_keys_elem_of.
    + intros t Ht. rewrite map_id. apply group_keys_elem_of.
      clear -Hys Ht. revert ys Hys. induction timestamps as [|t' ts IH]; intros ys; [inversion Ht|].
      simpl. unfold calendar.to_datetime.
      destruct (calendar.in_bounds t'); simpl; [|discriminate].
      destruct (years_of ts) as [|ys']; simpl; [discriminate|].
      intros [= <-]. apply elem_of_cons in Ht as [->|Ht]; [left|right; eauto].
Qed.

(** X18: on timestamps in the range of pandas (a range that holds no
    NaT) and as many returns, [compute_bucketed_returns] returns as many
    buckets as years; the years are strictly increasing; no bucket is
    empty; the buckets together hold the returns, each once; and the year
    of every timestamp is among the years. *)
Theorem bucketed_returns_partition timestamps returns :
  length timestamps = length returns →
  Forall (λ t, calendar.in_bounds t = true) timestamps →
  ∃ years buckets,
    compute_bucketed_returns timestamps returns = inr (years, buckets)
    ∧ length years = length buckets
    ∧ StronglySorted Z.lt years
    ∧ Forall (λ b, b ≠ []) buckets
    ∧ concat buckets ≡ₚ returns
    ∧ (∀ t, t ∈ timestamps → calendar.year (calendar.civil_from_days t) ∈ years).
Proof.
  intros Hlen Hb.
  destruct (compute_bucketed_returns timestamps returns) as [e|[years buckets]] eqn:E.
  - exfalso. revert E. unfold compute_bucketed_returns.
    rewrite bool_decide_eq_true_2 by assumption. simpl.
    destruct (bool_decide (length timestamps = 0%nat)); [discriminate|].
    rewrite years_of_inr by assumption. discriminate.
  - exists years, buckets. split; [reflexivity|].
    apply (compute_bucketed_returns_groups timestamps). exact E.
Qed.

Lemma bucketed_returns_partition_witness :
  ∃ years buckets,
    compute_bucketed_returns [16436; 16900; 16495; 17532] [1; 2; 3; 4]%float
      = inr (years, buckets)
    ∧ length years = length buckets
    ∧ StronglySorted Z.lt years
    ∧ Forall (λ b, b ≠ []) buckets
    ∧ concat buckets ≡ₚ [1; 2; 3; 4]%float
    ∧ (∀ t, t ∈ [16436; 16900; 16495; 17532] →
         calendar.year (calendar.civil_from_days t) ∈ years).
Proof.
  apply (bucketed_returns_partition [16436; 16900; 16495; 17532] [1; 2; 3; 4]%float).
  - reflexivity.
  - repeat constructor.
Defined.

Lemma compress_key_absent {A} (keys : list Z) (s : list A) k :
  k ∉ keys → np.compress (map (Z.eqb k) keys) s = [].
Proof.
  intros Hk. apply compress_none. apply Forall_map, Forall_forall.
  intros k' Hk'. simpl. apply Z.eqb_neq. intros ->. contradiction.
Qed.

Lemma buckets_other {A} (keys : list Z) (s : list A) k0 x g :
  k0 ∉ g →
  map (λ k, np.compress (map (Z.eqb k) (k0 :: keys)) (x :: s)) g
  = map (λ k, np.compress (map (Z.eqb k) keys) s) g.
Proof.
  intros Hk. apply map_ext_in. intros k Hin. simpl.
  destruct (Z.eqb_spec k k0) as [->|_]; [|reflexivity].
  exfalso. apply Hk, list_elem_of_In, Hin.
Qed.

(** On keys that never decrease the groups are the runs of equal keys. *)
Lemma buckets_concat {A} (keys : list Z) : ∀ (s : list A),
  StronglySorted Z.le keys → length keys = length s →
  concat (map (λ k, np.compress (map (Z.eqb k) keys) s) (group_keys keys)) = s.
Proof.
  induction keys as [|k0 keys IH]; intros [|x s] Hs Hlen; try discriminate; [reflexivity|].
  apply StronglySorted_inv in Hs as [Hs Hmin].
  specialize (IH s Hs ltac:(simpl in Hlen; lia)).
  change (group_keys (k0 :: keys)) with (insert_key k0 (group_keys keys)).
  pose proof (group_keys_sorted keys) as Hg.
  pose proof (group_keys_elem_of keys) as Hel.
  destruct (group_keys keys) as [|k' g] eqn:Eg.
  - destruct keys as [|k1 keys]; [|exfalso; pose proof (proj2 (Hel k1) ltac:(left)) as H; inversion H].
    destruct s; [|discriminate]. simpl. rewrite Z.eqb_refl. reflexivity.
  - assert (Hk' : k0 <= k').
    { rewrite Forall_forall in Hmin. apply Hmin, Hel. left. }
    apply StronglySorted_inv in Hg as [Hg Hgt].
    assert (Hng : k0 ∉ g).
    { intros Hin. rewrite Forall_forall in Hgt. specialize (Hgt _ Hin). lia. }
    cbn [insert_key]. destruct (Z.ltb_spec k0 k') as [Hlt|Hge].
    + assert (Hnk : k0 ∉ keys).
      { intros Hin. apply Hel in Hin. apply elem_of_cons in Hin as [->|Hin]; [lia|].
        contradiction. }
      rewrite map_cons, concat_cons, buckets_other.
      * simpl. rewrite Z.eqb_refl. rewrite (compress_key_absent keys s k0 Hnk).
        simpl. f_equal. exact IH.
      * intros Hin. apply elem_of_cons in Hin as [->|Hin]; [lia|contradiction].
    + assert (k0 = k') by lia. subst k'. rewrite Z.eqb_refl.
      rewrite map_cons, concat_cons, buckets_other by assumption.
      rewrite map_cons, concat_cons in IH.
      simpl. rewrite Z.eqb_refl. simpl. f_equal. exact IH.
Qed.

Lemma civil_month_day z :
  let d := calendar.civil_from_days z in
  1 <= calendar.month d <= 12 ∧ 1 <= calendar.day d <= 31.
Proof.
  unfold calendar.civil_from_days. cbn [calendar.day calendar.month].
  split; cal_cases; Z.div_mod_to_equations; lia.
Qed.

Lemma days_from_civil_year y m d :
  1 <= m <= 12 → 1 <= d <= 31 →
  new_year y <= calendar.days_from_civil {| calendar.year := y; calendar.month := m; calendar.day := d |}
  < new_year (y + 1).
Proof.
  unfold new_year, calendar.days_from_civil.
  cbn [calendar.year calendar.month calendar.day].
  change (1 <=? 2) with true. change (2 <? 1) with false. cbv iota.
  intros Hm Hd.
  cal_cases; Z.div_mod_to_equations; lia.
Qed.

Lemma new_year_mono y y' : y <= y' → new_year y <= new_year y'.
Proof.
  unfold new_year, calendar.days_from_civil.
  cbn [calendar.year calendar.month calendar.day].
  change (1 <=? 2) with true. change (2 <? 1) with false. cbv iota.
  intros H. Z.div_mod_to_equations; lia.
Qed.

Lemma year_mono z z' :
  z <= z' →
  calendar.year (calendar.civil_from_days z) <= calendar.year (calendar.civil_from_days z').
Proof.
  intros H.
  assert (Hy : ∀ z, new_year (calendar.year (calendar.civil_from_days z)) <= z
                    < new_year (calendar.year (calendar.civil_from_days z) + 1)).
  { intros z0. destruct (civil_month_day z0) as [Hm Hd].
    pose proof (days_from_civil_from_days z0) as Hr.
    destruct (calendar.civil_from_days z0) as [y m d]. simpl in *.
    rewrite <- Hr. apply days_from_civil_year; assumption. }
  pose proof (Hy z) as Hz. pose proof (Hy z') as Hz'.
  destruct (Z_le_gt_dec (calendar.year (calendar.civil_from_days z))
                        (calendar.year (calendar.civil_from_days z'))) as [|Hgt]; [assumption|].
  pose proof (new_year_mono (calendar.year (calendar.civil_from_days z') + 1)
                (calendar.year (calendar.civil_from_days z)) ltac:(lia)). lia.
Qed.

Lemma years_sorted timestamps :
  monotonically_increasing timestamps = true →
  StronglySorted Z.le (map (λ t, calendar.year (calendar.civil_from_days t)) timestamps).
Proof.
  rewrite monotonically_increasing_sorted.
  induction 1 as [|t ts _ IH Hall]; simpl; constructor; [assumption|].
  apply Forall_map. eapply Forall_impl; [exact Hall|]. simpl.
  intros t' Ht'. apply year_mono. lia.
Qed.

(** X19: on strictly increasing timestamps within the range of pandas,
    as many as the returns, [compute_bucketed_returns] returns, and its
    buckets one after the other are the returns in their order. *)
Theorem bucketed_returns_chronological timestamps returns :
  length timestamps = length returns →
  monotonically_increasing timestamps = true →
  Forall (λ t, calendar.in_bounds t = true) timestamps →
  ∃ years buckets,
    compute_bucketed_returns timestamps returns = inr (years, buckets)
    ∧ concat buckets = returns.
Proof.
  intros Hlen Hmono Hb. unfold compute_bucketed_returns.
  rewrite bool_decide_eq_true_2 by assumption. simpl.
  destruct (bool_decide (length timestamps = 0%nat)) eqn:H0.
  - apply bool_decide_eq_true in H0. exists [], [].
    split; [reflexivity|]. destruct returns; [reflexivity|]. simpl in Hlen. lia.
  - rewrite (years_of_inr _ Hb). simpl. eexists _, _. split; [reflexivity|].
    unfold groupby. rewrite map_map. simpl.
    apply buckets_concat; [apply years_sorted; assumption|].
    rewrite length_map. exact Hlen.
Qed.

Lemma bucketed_returns_chronological_witness :
  ∃ years buckets,
    compute_bucketed_returns [16436; 16495; 16900; 17532] [1; 2; 3; 4]%float
    = inr (years, buckets)
    ∧ concat buckets = [1; 2; 3; 4]%float.
Proof.
  apply (bucketed_returns_chronological [16436; 16495; 16900; 17532] [1; 2; 3; 4]%float).
  - reflexivity.
  - reflexivity.
  - repeat constructor.
Defined.

(** ** The evaluator: values, memoization, cycles and order *)

Section evaluator_more.
Context {V : Type}.
Implicit Types (self : Evaluator V) (w : World V).

Lemma dict_comprehension_spec (d : gmap string V) ks kw :
  dict_comprehension d ks = inr kw →
  dom kw = list_to_set ks ∧ ∀ k, k ∈ ks → kw !! k = d !! k.
Proof.
  revert kw. induction ks as [|k ks IH]; intros kw; simpl.
  - intros [= <-]. split; [set_solver|]. intros k Hk. inversion Hk.
  - destruct (d !! k) as [v|] eqn:Hk; [|discriminate].
    destruct (dict_comprehension d ks) as [e|kw'] eqn:E; simpl; [discriminate|].
    intros [= <-]. destruct (IH kw' eq_refl) as [Hdom Hval]. split.
    + rewrite dom_insert_L, Hdom. reflexivity.
    + intros k' Hk'. destruct (decide (k' = k)) as [->|Hne].
      * rewrite lookup_insert_eq. congruence.
      * rewrite lookup_insert_ne by congruence.
        apply elem_of_cons in Hk' as [->|Hk']; [contradiction|auto].
Qed.

Lemma values_of_store self w1 name v cs :
  values_of self {| dicts := <[metric_values self := <[name := v]> (values_of self w1)]> (dicts w1);
                    calls := cs |}
  = <[name := v]> (values_of self w1).
Proof. unfold values_of at 1. simpl. rewrite lookup_insert_eq. reflexivity. Qed.

Lemma keeps_refl self name w : cache_kept self name w w.
Proof. split; [auto|]. exists []. split; [reflexivity|]. intros n Hn. inversion Hn. Qed.

Lemma keeps_loop self fuel ds :
  (∀ name w r w', compute_metric fuel self name w = (r, w') →
     cache_kept self (Some name) w w') →
  ∀ w r w1, py_for ds (ensure (compute_metric fuel self) self) w = (r, w1) →
    cache_kept self None w w1.
Proof.
  intros IH. induction ds as [|d ds IHds]; intros w r w1; simpl.
  - intros [= _ <-]. apply keeps_refl.
  - unfold py_bind at 1.
    destruct (ensure _ self d w) as [r2 w2] eqn:Hd.
    assert (H2 : cache_kept self None w w2).
    { unfold ensure, py_bind, py_get in Hd.
      destruct (bool_decide _) eqn:Hc; [injection Hd as _ <-; apply keeps_refl|].
      apply bool_decide_eq_false in Hc.
      destruct (IH _ _ _ _ Hd) as [Hk (new & Hcalls & Hnew)]. split.
      - intros k v Hkv _. apply (Hk k v Hkv). intros [= ->].
        apply Hc, elem_of_dom. eauto.
      - exists new. split; [exact Hcalls|]. intros n Hn. right.
        destruct (Hnew n Hn) as [[= ->]|Hn']; assumption. }
    assert (Hrest : ∀ w1', cache_kept self None w2 w1' → cache_kept self None w w1').
    { intros w1' [Hk' (new' & Hcalls' & Hnew')].
      destruct H2 as [Hk (new & Hcalls & Hnew)]. split.
      - intros k v Hkv Hne. apply Hk'; [apply Hk; assumption|assumption].
      - exists (new' ++ new). split; [rewrite Hcalls', Hcalls, app_assoc; reflexivity|].
        intros n Hn. right. apply elem_of_app in Hn as [Hn|Hn].
        + destruct (Hnew' n Hn) as [[=]|Hn']. intros Hin. apply Hn'.
          apply elem_of_dom in Hin as [v Hv]. apply elem_of_dom. exists v.
          apply Hk; [exact Hv|discriminate].
        + destruct (Hnew n Hn) as [[=]|Hn']. exact Hn'. }
    destruct r2 as [e|[]].
    + intros [= _ <-]. apply Hrest, keeps_refl.
    + intros Hloop. apply Hrest. eapply IHds. exact Hloop.
Qed.

Lemma compute_metric_keeps fuel self :
  ∀ name w r w', compute_metric fuel self name w = (r, w') →
    cache_kept self (Some name) w w'.
Proof.
  induction fuel as [|fuel IH]; intros name w r w'.
  { intros [= _ <-]. apply keeps_refl. }
  rewrite compute_metric_S.
  destruct (dict_get _ name) as [[func ds]|] eqn:Hget.
  2:{ intros [= _ <-]. apply keeps_refl. }
  unfold py_bind at 1.
  destruct (py_for ds _ w) as [r1 w1] eqn:Hloop.
  destruct (keeps_loop self fuel ds IH _ _ _ Hloop) as [Hk (new & Hcalls & Hnew)].
  assert (H1 : cache_kept self (Some name) w w1).
  { split; [intros k v Hkv _; apply Hk; [exact Hkv|discriminate]|].
    exists new. split; [exact Hcalls|]. intros n Hn. right.
    destruct (Hnew n Hn) as [[=]|Hn']. exact Hn'. }
  destruct r1 as [e|[]]; [intros [= _ <-]; exact H1|].
  unfold py_bind, py_get.
  destruct (dict_comprehension (values_of self w1) ds) as [e|kw]; simpl.
  - intros [= _ <-]. exact H1.
  - intros [= _ <-]. split.
    + intros k v Hkv Hne.
      change (values_of self _ !! k) with
        (default ∅ (<[metric_values self := <[name := func kw]> (values_of self w1)]> (dicts w1)
                    !! metric_values self) !! k).
      rewrite lookup_insert_eq. simpl.
      rewrite lookup_insert_ne by congruence. apply Hk; [exact Hkv|discriminate].
    + exists (name :: new). simpl. rewrite Hcalls. split; [reflexivity|].
      intros n Hn. apply elem_of_cons in Hn as [->|Hn]; [left; reflexivity|].
      right. destruct (Hnew n Hn) as [[=]|Hn']. exact Hn'.
Qed.

(** X20: after a [compute_metric] that returns, [metric] returns the
    value of the function of the name on keyword arguments whose keys are
    the dependencies of the name, each with a value, the value the
    dictionary holds for it (but for the name itself). *)
Theorem compute_metric_stores fuel self name w w' func ds :
  compute_metric fuel self name w = (inr (), w') →
  dict_get (_metrics self) name = Some (func, ds) →
  ∃ kw, metric self name w' = (inr (func kw), w')
    ∧ dom kw = list_to_set ds
    ∧ (∀ d, d ∈ ds → is_Some (kw !! d))
    ∧ (∀ d, d ∈ ds → d ≠ name → kw !! d = values_of self w' !! d).
Proof.
  intros Hrun Hget.
  destruct (compute_metric_returns _ _ _ _ _ Hrun)
    as (fuel0 & func0 & ds0 & w1 & kw & -> & Hget0 & Hloop & Hkw & ->).
  rewrite Hget in Hget0. injection Hget0 as <- <-.
  destruct (dict_comprehension_spec _ _ _ Hkw) as [Hdom Hval].
  exists kw. split; [|split; [exact Hdom|split]].
  - unfold metric, py_bind, py_get. rewrite values_of_store, lookup_insert_eq.
    reflexivity.
  - intros d Hd. apply elem_of_dom. rewrite Hdom. set_solver.
  - intros d Hd Hne. rewrite values_of_store, lookup_insert_ne by congruence. auto.
Qed.

(** X21: whatever [compute_metric] does (return or raise), every value
    that was cached under another name is still cached, and the functions
    it called are those of the name asked for and of names that were not
    cached. *)
Theorem compute_metric_memo fuel self name w :
  let w' := snd (compute_metric fuel self name w) in
  (∀ k v, values_of self w !! k = Some v → k ≠ name →
     values_of self w' !! k = Some v)
  ∧ ∃ new, calls w' = new ++ calls w
      ∧ ∀ n, n ∈ new → n = name ∨ n ∉ dom (values_of self w).
Proof.
  intros w'. subst w'.
  destruct (compute_metric fuel self name w) as [r w'] eqn:E.
  destruct (compute_metric_keeps fuel self name w r w' E) as [Hk (new & Hcalls & Hnew)].
  simpl. split.
  - intros k v Hkv Hne. apply Hk; [exact Hkv|congruence].
  - exists new. split; [exact Hcalls|]. intros n Hn.
    destruct (Hnew n Hn) as [[= ->]|Hn']; auto.
Qed.

Lemma in_order_fresh known (rs : list (string * recipe V)) n r :
  in_order known (map recipe_signature rs) = true → (n, r) ∈ rs → n ∉ known.
Proof.
  revert known. induction rs as [|[n0 [f0 ds0]] rs IH]; intros known; simpl.
  - intros _ H. inversion H.
  - intros H Hin. apply andb_true_iff in H as [H Hrest].
    apply andb_true_iff in H as [Hnew _].
    apply negb_true_iff, bool_decide_eq_false in Hnew.
    apply elem_of_cons in Hin as [[= -> ->]|Hin]; [exact Hnew|].
    intros Hk. apply (IH _ Hrest Hin). right. exact Hk.
Qed.

Lemma in_order_dict_get known (rs : list (string * recipe V)) n r :
  in_order known (map recipe_signature rs) = true → (n, r) ∈ rs → dict_get rs n = Some r.
Proof.
  revert known. induction rs as [|[n0 [f0 ds0]] rs IH]; intros known; simpl.
  - intros _ H. inversion H.
  - intros H Hin. apply andb_true_iff in H as [H Hrest].
    apply elem_of_cons in Hin as [[= -> ->]|Hin].
    + rewrite decide_True by reflexivity. reflexivity.
    + rewrite decide_False; [eapply IH; eauto|].
      intros ->. apply (in_order_fresh _ _ _ _ Hrest Hin). left.
Qed.

Lemma dict_get_elem_of {A} (d : list (string * A)) k v :
  dict_get d k = Some v → (k, v) ∈ d.
Proof.
  induction d as [|[k' v'] d IH]; simpl; [discriminate|].
  destruct (decide (k' = k)) as [->|_].
  - intros [= ->]. left.
  - intros H. right. auto.
Qed.

Lemma py_for_in_order fuel self (rs : list (string * recipe V)) :
  ∀ known w,
    (∀ n r, (n, r) ∈ rs → dict_get (_metrics self) n = Some r) →
    in_order known (map recipe_signature rs) = true →
    (∀ k, k ∈ known → k ∈ dom (values_of self w)) →
    ∃ w', py_for (map fst rs) (compute_metric (S fuel) self) w = (inr (), w')
      ∧ calls w' = rev (map fst rs) ++ calls w
      ∧ dom (values_of self w') = dom (values_of self w) ∪ list_to_set (map fst rs)
      ∧ (∀ l, l ≠ metric_values self → dicts w' !! l = dicts w !! l)
      ∧ (∀ k v, k ∈ known → values_of self w !! k = Some v →
           values_of self w' !! k = Some v)
      ∧ (∀ n func ds, (n, (func, ds)) ∈ rs →
           ∃ kw, values_of self w' !! n = Some (func kw)
             ∧ dom kw = list_to_set ds
             ∧ ∀ d, d ∈ ds → kw !! d = values_of self w' !! d).
Proof.
  induction rs as [|[n [func ds]] rs IH]; intros known w Hget Hord Hknown.
  - exists w. simpl. split; [reflexivity|]. split; [reflexivity|].
    split; [set_solver|]. split; [auto|]. split; [auto|].
    intros n func ds H. inversion H.
  - simpl in Hord. apply andb_true_iff in Hord as [Hord Hrest].
    apply andb_true_iff in Hord as [Hnew Hds].
    apply negb_true_iff, bool_decide_eq_false in Hnew.
    assert (Hds' : ∀ d, d ∈ ds → d ∈ known).
    { intros d Hd. rewrite forallb_forall in Hds.
      apply (bool_decide_eq_true_1 _), Hds, list_elem_of_In, Hd. }
    assert (Hcached : ∀ d, d ∈ ds → d ∈ dom (values_of self w)) by auto.
    destruct (dict_comprehension_total _ _ Hcached) as [kw Hkw].
    destruct (dict_comprehension_spec _ _ _ Hkw) as [Hdom Hval].
    set (w1 := {| dicts := <[metric_values self := <[n := func kw]> (values_of self w)]> (dicts w);
                  calls := n :: calls w |}).
    assert (Hstep : compute_metric (S fuel) self n w = (inr (), w1)).
    { rewrite compute_metric_S, (Hget n (func, ds)) by left.
      unfold py_bind at 1. rewrite (py_for_ensure_cached _ _ _ _ Hcached).
      unfold py_bind, py_get. rewrite Hkw. reflexivity. }
    assert (Hv1 : values_of self w1 = <[n := func kw]> (values_of self w))
      by apply values_of_store.
    destruct (IH (n :: known) w1) as (w' & Hrun & Hcalls & Hdom' & Hframe & Hkeep & Hfix).
    { intros n' r' Hin. apply Hget. right. exact Hin. }
    { exact Hrest. }
    { intros k Hk. rewrite Hv1, dom_insert_L.
      apply elem_of_cons in Hk as [->|Hk]; [set_solver|].
      apply elem_of_union_r. auto. }
    exists w'. split; [|split; [|split; [|split; [|split]]]].
    + cbn [map fst py_for]. unfold py_bind at 1. rewrite Hstep. exact Hrun.
    + rewrite Hcalls. simpl. rewrite <- app_assoc. reflexivity.
    + rewrite Hdom', Hv1, dom_insert_L. simpl. set_solver.
    + intros l Hl. rewrite Hframe by assumption. simpl.
      rewrite lookup_insert_ne by congruence. reflexivity.
    + intros k v Hk Hkv. apply Hkeep; [right; exact Hk|].
      rewrite Hv1, lookup_insert_ne; [exact Hkv|]. intros <-. contradiction.
    + intros n' func' ds' Hin. apply elem_of_cons in Hin as [[= -> -> ->]|Hin].
      * exists kw. split; [|split; [exact Hdom|]].
        -- apply Hkeep; [left|]. rewrite Hv1, lookup_insert_eq. reflexivity.
        -- intros d Hd. rewrite (Hval d Hd).
           destruct (proj1 (elem_of_dom _ _) (Hcached d Hd)) as [v Hv].
           rewrite Hv. symmetry. apply Hkeep; [right; auto|].
           rewrite Hv1, lookup_insert_ne; [exact Hv|]. intros <-. auto.
      * apply Hfix. exact Hin.
Qed.

(** X22: when the recipes are registered in dependency order (every
    name new, every dependency cached or registered earlier) and their
    functions return, [compute] returns at a recursion depth of one, calls
    the function of every recipe once, in the order of registration, caches
    every name, leaves the values it found, and the value of every name is
    its function on the values the dictionary holds for its dependencies. *)
Theorem compute_in_order fuel self w known :
  in_order known (map recipe_signature (_metrics self)) = true →
  (∀ k, k ∈ known → k ∈ dom (values_of self w)) →
  ∃ w', compute (S fuel) self None w = (inr (), w')
    ∧ calls w' = rev (map fst (_metrics self)) ++ calls w
    ∧ dom (values_of self w') = dom (values_of self w) ∪ list_to_set (map fst (_metrics self))
    ∧ (∀ k v, k ∈ known → values_of self w !! k = Some v →
         values_of self w' !! k = Some v)
    ∧ (∀ n func ds, dict_get (_metrics self) n = Some (func, ds) →
         ∃ kw, values_of self w' !! n = Some (func kw)
           ∧ dom kw = list_to_set ds
           ∧ ∀ d, d ∈ ds → kw !! d = values_of self w' !! d).
Proof.
  intros Hord Hknown.
  destruct (py_for_in_order fuel self (_metrics self) known w)
    as (w' & Hrun & Hcalls & Hdom & _ & Hkeep & Hfix); auto.
  { intros n r. apply in_order_dict_get with known. exact Hord. }
  exists w'. split; [exact Hrun|]. split; [exact Hcalls|]. split; [exact Hdom|].
  split; [exact Hkeep|].
  intros n func ds Hget. apply Hfix. apply dict_get_elem_of. exact Hget.
Qed.

(** Registering a recipe. *)
Lemma dict_get_set_eq {A} (d : list (string * A)) k v :
  dict_get (dict_set d k v) k = Some v.
Proof.
  induction d as [|[k' v'] d IH]; simpl.
  - rewrite decide_True by reflexivity. reflexivity.
  - destruct (decide (k' = k)) as [->|Hne]; simpl.
    + rewrite decide_True by reflexivity. reflexivity.
    + rewrite decide_False by assumption. exact IH.
Qed.

Lemma dict_get_set_ne {A} (d : list (string * A)) k v k0 :
  k0 ≠ k → dict_get (dict_set d k v) k0 = dict_get d k0.
Proof.
  intros Hne. induction d as [|[k' v'] d IH]; simpl.
  - rewrite decide_False by congruence. reflexivity.
  - destruct (decide (k' = k)) as [->|Hne']; simpl.
    + rewrite !decide_False by congruence. reflexivity.
    + destruct (decide (k' = k0)); [reflexivity|exact IH].
Qed.

Lemma dict_set_keys {A} (d : list (string * A)) k v :
  map fst (dict_set d k v)
  = if bool_decide (k ∈ map fst d) then map fst d else map fst d ++ [k].
Proof.
  induction d as [|[k' v'] d IH]; cbn [dict_set map fst app].
  - rewrite bool_decide_eq_false_2 by (intros H; inversion H). reflexivity.
  - destruct (decide (k' = k)) as [->|Hne]; cbn [dict_set map fst app].
    + rewrite bool_decide_eq_true_2 by left. reflexivity.
    + rewrite IH. destruct (bool_decide (k ∈ map fst d)) eqn:E.
      * apply bool_decide_eq_true in E.
        rewrite bool_decide_eq_true_2 by (right; exact E). reflexivity.
      * apply bool_decide_eq_false in E.
        rewrite bool_decide_eq_false_2; [reflexivity|].
        intros H. apply elem_of_cons in H as [->|H]; contradiction.
Qed.

Lemma dict_set_new {A} (d : list (string * A)) k v :
  k ∉ map fst d → dict_set d k v = d ++ [(k, v)].
Proof.
  induction d as [|[k' v'] d IH]; simpl; intros Hk; [reflexivity|].
  apply not_elem_of_cons in Hk as [Hne Hk].
  rewrite decide_False by congruence. rewrite IH by assumption. reflexivity.
Qed.

(** X23: [add_metric] leaves the dictionary of values alone, registers
    the recipe under the name, leaves the recipes of the other names, and
    keeps the order of registration: a name registered again keeps its
    place, a new one goes last. *)
Theorem add_metric_registers self name func dependencies :
  let self' := add_metric self name func dependencies in
  metric_values self' = metric_values self
  ∧ dict_get (_metrics self') name = Some (func, dependencies)
  ∧ (∀ n, n ≠ name → dict_get (_metrics self') n = dict_get (_metrics self) n)
  ∧ map fst (_metrics self')
    = if bool_decide (name ∈ map fst (_metrics self)) then map fst (_metrics self)
      else map fst (_metrics self) ++ [name].
Proof.
  simpl. split; [reflexivity|]. split; [apply dict_get_set_eq|].
  split; [intros n Hn; apply dict_get_set_ne; exact Hn|apply dict_set_keys].
Qed.

End evaluator_more.

Lemma compute_metric_stores_witness :
  let self : Evaluator Z :=
    add_metric (add_metric {| metric_values := 0%nat; _metrics := [] |}
      "y" (λ kw, default 0 (kw !! "x") * 2) ["x"])
      "z" (λ kw, default 0 (kw !! "x") + default 0 (kw !! "y")) ["x"; "y"] in
  let w := {| dicts := {[ 0%nat := {[ "x" := 1 ]} ]}; calls := [] |} in
  let w' := snd (compute_metric 5 self "z" w) in
  ∃ kw : gmap string Z,
    metric self "z" w' = (inr (default 0 (kw !! "x") + default 0 (kw !! "y")), w')
    ∧ dom kw = list_to_set ["x"; "y"].
Proof.
  intros self w w'.
  destruct (compute_metric_stores 5 self "z" w w'
              (λ kw, default 0 (kw !! "x") + default 0 (kw !! "y")) ["x"; "y"])
    as (kw & Hm & Hdom & _).
  - vm_compute. reflexivity.
  - reflexivity.
  - exists kw. split; assumption.
Defined.

Lemma compute_in_order_witness :
  let self : Evaluator Z :=
    add_metric (add_metric {| metric_values := 0%nat; _metrics := [] |}
      "y" (λ kw, default 0 (kw !! "x") * 2) ["x"])
      "z" (λ kw, default 0 (kw !! "x") + default 0 (kw !! "y")) ["x"; "y"] in
  let w := {| dicts := {[ 0%nat := {[ "x" := 1 ]} ]}; calls := [] |} in
  ∃ w', compute 1 self None w = (inr (), w') ∧ calls w' = ["z"; "y"].
Proof.
  intros self w.
  destruct (compute_in_order 0 self w ["x"]) as (w' & Hrun & Hcalls & _).
  - reflexivity.
  - intros k Hk. apply list_elem_of_singleton in Hk as ->.
    apply elem_of_dom. eexists. reflexivity.
  - exists w'. split; assumption.
Defined.

(** ** The evaluator with functions that raise: cycles, and the recipes of
    [compute_return_metrics] *)

Section raising_more.
Context {V : Type}.
Implicit Types (self : raising.Evaluator V) (w : World V).

Lemma raising_compute_metric_stuck self (P : string → Prop) fuel :
  (∀ d, P d → ∃ func ds d', dict_get (raising._metrics self) d = Some (func, ds)
                             ∧ d' ∈ ds ∧ P d') →
  ∀ name w r w',
    (∀ d, P d → d ∉ dom (raising.values_of self w)) →
    raising.compute_metric fuel self name w = (r, w') →
    (∀ d, P d → d ∉ dom (raising.values_of self w')) ∧ (r = inr () → ¬ P name).
Proof.
  intros HP. induction fuel as [|fuel IH]; intros name w r w' Hb.
  { intros [= <- <-]. split; [assumption|discriminate]. }
  rewrite raising_compute_metric_S.
  destruct (dict_get _ name) as [[func ds]|] eqn:Hget.
  2:{ intros [= <- <-]. split; [assumption|discriminate]. }
  unfold py_bind at 1.
  destruct (py_for ds _ w) as [r1 w1] eqn:Hloop.
  assert (Hb1 : ∀ d, P d → d ∉ dom (raising.values_of self w1)).
  { clear Hget. revert w Hb Hloop.
    induction ds as [|d ds IHds]; intros w Hb; simpl; [intros [= _ <-]; assumption|].
    unfold py_bind at 1.
    destruct (raising.ensure _ self d w) as [r2 w2] eqn:Hd.
    assert (Hb2 : ∀ d, P d → d ∉ dom (raising.values_of self w2)).
    { unfold raising.ensure, py_bind, py_get in Hd.
      destruct (bool_decide _); [injection Hd as _ <-; assumption|].
      eapply IH; eauto. }
    destruct r2 as [e|[]]; [intros [= _ <-]; assumption|]. apply IHds. exact Hb2. }
  destruct r1 as [e1|[]]; [intros [= <- <-]; split; [assumption|discriminate]|].
  rewrite raising_compute_metric_tail.
  destruct (dict_comprehension (raising.values_of self w1) ds) as [e2|kw] eqn:Hkw.
  - intros [= <- <-]. split; [assumption|discriminate].
  - assert (HnP : ¬ P name).
    { intros Hn. destruct (HP name Hn) as (func' & ds' & d' & Hget' & Hin & Hd').
      rewrite Hget in Hget'. injection Hget' as <- <-.
      apply (Hb1 d' Hd'). eapply dict_comprehension_ok; eauto. }
    destruct (func kw) as [e2|v].
    + intros [= <- <-]. split; [exact Hb1|discriminate].
    + intros [= <- <-]. split; [|intros _; exact HnP].
      intros d Hd. unfold raising.values_of. simpl. rewrite lookup_insert_eq. simpl.
      rewrite dom_insert_L. apply not_elem_of_union. split; [|apply Hb1; assumption].
      apply not_elem_of_singleton. intros ->. contradiction.
Qed.

(** X25: a name on a cycle of dependencies that are not cached is never
    computed: [compute_metric] on it does not return at any recursion
    depth and caches no name of the cycle; when every dependency of a
    registered name is registered, it raises RecursionError, unless the
    function of a recipe raised before, whose exception it then raises. *)
Theorem compute_metric_cycle self w (P : string → Prop) name fuel :
  raising.stuck self w P → P name →
  fst (raising.compute_metric fuel self name w) ≠ inr ()
  ∧ (∀ d, P d →
       d ∉ dom (raising.values_of self (snd (raising.compute_metric fuel self name w))))
  ∧ (raising.registry_closed self →
     ∃ e, fst (raising.compute_metric fuel self name w) = inl e
          ∧ (e = RecursionError ∨ raising.raised_by_recipe self e)).
Proof.
  intros Hstuck Hname.
  destruct (raising.compute_metric fuel self name w) as [r w'] eqn:E.
  destruct (raising_compute_metric_stuck self P fuel (λ d Hd, proj2 (Hstuck d Hd))
              name w r w' (λ d Hd, proj1 (Hstuck d Hd)) E) as [Hb Hr].
  simpl. split; [intros ->; exact (Hr eq_refl Hname)|]. split; [exact Hb|].
  intros Hclosed. destruct r as [e|[]]; [|exfalso; exact (Hr eq_refl Hname)].
  exists e. split; [reflexivity|].
  destruct (raising_compute_metric_raises _ _ _ _ _ _ E)
    as [->|[(k & -> & Hk & Hor)|Hraised]]; [auto| |auto].
  exfalso. destruct Hor as [->|[_ (n & func & ds & Hn & Hin)]].
  - destruct (Hstuck name Hname) as (_ & f & ds & d' & Hget & _). congruence.
  - destruct (Hclosed n func ds k Hn Hin) as [x Hx]. congruence.
Qed.

Lemma raising_in_order_fresh known (rs : list (string * raising.recipe V)) n r :
  in_order known (map raising.recipe_signature rs) = true → (n, r) ∈ rs → n ∉ known.
Proof.
  revert known. induction rs as [|[n0 [f0 ds0]] rs IH]; intros known; simpl.
  - intros _ H. inversion H.
  - intros H Hin. apply andb_true_iff in H as [H Hrest].
    apply andb_true_iff in H as [Hnew _].
    apply negb_true_iff, bool_decide_eq_false in Hnew.
    apply elem_of_cons in Hin as [[= -> ->]|Hin]; [exact Hnew|].
    intros Hk. apply (IH _ Hrest Hin). right. exact Hk.
Qed.

Lemma raising_in_order_dict_get known (rs : list (string * raising.recipe V)) n r :
  in_order known (map raising.recipe_signature rs) = true → (n, r) ∈ rs →
  dict_get rs n = Some r.
Proof.
  revert known. induction rs as [|[n0 [f0 ds0]] rs IH]; intros known; simpl.
  - intros _ H. inversion H.
  - intros H Hin. apply andb_true_iff in H as [H Hrest].
    apply elem_of_cons in Hin as [[= -> ->]|Hin].
    + rewrite decide_True by reflexivity. reflexivity.
    + rewrite decide_False; [eapply IH; eauto|].
      intros ->. apply (raising_in_order_fresh _ _ _ _ Hrest Hin). left.
Qed.

Lemma raising_values_of_store self w1 name v cs :
  raising.values_of self
    {| dicts := <[raising.metric_values self := <[name := v]> (raising.values_of self w1)]> (dicts w1);
       calls := cs |}
  = <[name := v]> (raising.values_of self w1).
Proof. unfold raising.values_of at 1. simpl. rewrite lookup_insert_eq. reflexivity. Qed.

(** Recipes in dependency order, computed in that order: every function is
    called on cached values, once, until one raises. *)
Lemma raising_py_for_in_order fuel self (rs : list (string * raising.recipe V)) :
  ∀ known w,
    (∀ n r, (n, r) ∈ rs → dict_get (raising._metrics self) n = Some r) →
    in_order known (map raising.recipe_signature rs) = true →
    (∀ k, k ∈ known → k ∈ dom (raising.values_of self w)) →
    ∃ r w', py_for (map fst rs) (raising.compute_metric (S fuel) self) w = (r, w')
      ∧ (∀ l, l ≠ raising.metric_values self → dicts w' !! l = dicts w !! l)
      ∧ (∀ k v, k ∈ known → raising.values_of self w !! k = Some v →
           raising.values_of self w' !! k = Some v)
      ∧ match r with
        | inr _ =>
            calls w' = rev (map fst rs) ++ calls w
            ∧ dom (raising.values_of self w')
              = dom (raising.values_of self w) ∪ list_to_set (map fst rs)
            ∧ (∀ n func ds, (n, (func, ds)) ∈ rs →
                 ∃ kw v, func kw = inr v
                   ∧ raising.values_of self w' !! n = Some v
                   ∧ dom kw = list_to_set ds
                   ∧ ∀ d, d ∈ ds → kw !! d = raising.values_of self w' !! d)
        | inl e =>
            ∃ i n func ds kw,
              rs !! i = Some (n, (func, ds))
              ∧ func kw = inl e
              ∧ dom kw = list_to_set ds
              ∧ (∀ d, d ∈ ds → kw !! d = raising.values_of self w' !! d)
              ∧ calls w' = rev (take (S i) (map fst rs)) ++ calls w
        end.
Proof.
  induction rs as [|[n [func ds]] rs IH]; intros known w Hget Hord Hknown.
  - exists (inr ()), w. simpl. split; [reflexivity|]. split; [auto|]. split; [auto|].
    split; [reflexivity|]. split; [set_solver|].
    intros n func ds H. inversion H.
  - simpl in Hord. apply andb_true_iff in Hord as [Hord Hrest].
    apply andb_true_iff in Hord as [Hnew Hds].
    apply negb_true_iff, bool_decide_eq_false in Hnew.
    assert (Hds' : ∀ d, d ∈ ds → d ∈ known).
    { intros d Hd. rewrite forallb_forall in Hds.
      apply (bool_decide_eq_true_1 _), Hds, list_elem_of_In, Hd. }
    assert (Hcached : ∀ d, d ∈ ds → d ∈ dom (raising.values_of self w)) by auto.
    destruct (dict_comprehension_total _ _ Hcached) as [kw Hkw].
    destruct (dict_comprehension_spec _ _ _ Hkw) as [Hdom Hval].
    assert (Hstep : raising.compute_metric (S fuel) self n w
              = match func kw with
                | inl e => (inl e, {| dicts := dicts w; calls := n :: calls w |})
                | inr v =>
                    (inr (),
                     {| dicts := <[raising.metric_values self := <[n := v]> (raising.values_of self w)]> (dicts w);
                        calls := n :: calls w |})
                end).
    { rewrite raising_compute_metric_S, (Hget n (func, ds)) by left.
      unfold py_bind at 1. rewrite (raising_py_for_ensure_cached _ _ _ _ Hcached).
      rewrite raising_compute_metric_tail, Hkw. reflexivity. }
    cbn [map fst py_for]. unfold py_bind at 1. rewrite Hstep.
    destruct (func kw) as [e|v] eqn:Hv.
    + eexists (inl e), _. split; [reflexivity|]. simpl.
      split; [auto|]. split; [auto|].
      exists 0%nat, n, func, ds, kw. split; [reflexivity|]. split; [exact Hv|].
      split; [exact Hdom|]. split; [exact Hval|]. reflexivity.
    + set (w1 := {| dicts := _; calls := n :: calls w |}).
      assert (Hv1 : raising.values_of self w1 = <[n := v]> (raising.values_of self w))
        by apply raising_values_of_store.
      destruct (IH (n :: known) w1) as (r & w' & Hrun & Hframe & Hkeep & Hres).
      { intros n' r' Hin. apply Hget. right. exact Hin. }
      { exact Hrest. }
      { intros k Hk. rewrite Hv1, dom_insert_L.
        apply elem_of_cons in Hk as [->|Hk]; [set_solver|].
        apply elem_of_union_r. auto. }
      exists r, w'. split; [exact Hrun|]. split; [|split].
      * intros l Hl. rewrite Hframe by assumption. simpl.
        rewrite lookup_insert_ne by congruence. reflexivity.
      * intros k v' Hk Hkv. apply Hkeep; [right; exact Hk|].
        rewrite Hv1, lookup_insert_ne; [exact Hkv|]. intros <-. contradiction.
      * destruct r as [e|[]].
        -- destruct Hres as (i & n' & func' & ds' & kw' & Hi & He & Hd' & Hval' & Hcalls).
           exists (S i), n', func', ds', kw'. split; [exact Hi|]. split; [exact He|].
           split; [exact Hd'|]. split; [exact Hval'|].
           rewrite Hcalls. cbn [map fst take rev]. simpl. rewrite <- app_assoc. reflexivity.
        -- destruct Hres as (Hcalls & Hdom' & Hfix). split; [|split].
           ++ rewrite Hcalls. simpl. rewrite <- app_assoc. reflexivity.
           ++ rewrite Hdom', Hv1, dom_insert_L. simpl. set_solver.
           ++ intros n' func' ds' Hin. apply elem_of_cons in Hin as [[= -> -> ->]|Hin].
              ** exists kw, v. split; [exact Hv|]. split; [|split; [exact Hdom|]].
                 --- apply Hkeep; [left|]. rewrite Hv1, lookup_insert_eq. reflexivity.
                 --- intros d Hd. rewrite (Hval d Hd).
                     destruct (proj1 (elem_of_dom _ _) (Hcached d Hd)) as [v0 Hv0].
                     rewrite Hv0. symmetry. apply Hkeep; [right; auto|].
                     rewrite Hv1, lookup_insert_ne; [exact Hv0|]. intros <-. auto.
              ** apply Hfix. exact Hin.
Qed.

Lemma raising_add_metrics_new (funcs : string → gmap string V → exn + V) recipes :
  ∀ self, NoDup (map fst (raising._metrics self) ++ map fst recipes) →
    raising.add_metrics funcs recipes self
    = {| raising.metric_values := raising.metric_values self;
         raising._metrics :=
           raising._metrics self ++ map (λ r, (r.1, (funcs r.1, r.2))) recipes |}.
Proof.
  induction recipes as [|[n ds] recipes IH]; intros self Hnd.
  - simpl. unfold raising.add_metrics. simpl. rewrite app_nil_r. destruct self; reflexivity.
  - change (raising.add_metrics funcs ((n, ds) :: recipes) self)
      with (raising.add_metrics funcs recipes (raising.add_metric self n (funcs n) ds)).
    simpl in Hnd.
    assert (Hn : n ∉ map fst (raising._metrics self)).
    { apply NoDup_app in Hnd as (_ & Hdisj & _). intros Hin.
      apply (Hdisj n Hin). left. }
    rewrite IH.
    + simpl. rewrite dict_set_new by assumption. rewrite <- app_assoc. reflexivity.
    + simpl. rewrite dict_set_new by assumption.
      rewrite map_app, <- app_assoc. exact Hnd.
Qed.

(** X24: on a dictionary that holds the three seeds, the evaluation of
    [compute_return_metrics] at a recursion depth of one meets no failure
    of the evaluator itself.  When every function called returns, it
    returns: it has called the function of each of the 26 recipes once, in
    the order of registration; the seeds are as they were; every key that
    [display_return_metrics] and [plot_return_metrics] read is there; and
    every metric is the value of its function on the values of its
    dependencies.  Otherwise it raises what the first function that raises
    has raised, on the values of its dependencies: the functions of the
    recipes before it have been called, in order, and none after it (the
    dictionary of the evaluator is the one at the location that [__init__]
    took).  The dictionary of the caller is as it was in either case. *)
Theorem return_metrics_resolved fuel (funcs : string → gmap string V → exn + V) seeds w d :
  dicts w !! seeds = Some d →
  (∀ k, k ∈ return_metrics_seeds → k ∈ dom d) →
  ∃ r w',
    raising.evaluate_return_metrics (S fuel) funcs seeds w = (r, w')
    ∧ dicts w' !! seeds = Some d
    ∧ match r with
      | inr ev =>
          calls w' = rev (map fst return_metrics_recipes) ++ calls w
          ∧ (∀ k, k ∈ return_metrics_seeds → raising.values_of ev w' !! k = d !! k)
          ∧ (∀ k, k ∈ display_keys ++ plot_keys → k ∈ dom (raising.values_of ev w'))
          ∧ (∀ n ds, (n, ds) ∈ return_metrics_recipes →
               ∃ kw v, funcs n kw = inr v
                 ∧ raising.values_of ev w' !! n = Some v
                 ∧ dom kw = list_to_set ds
                 ∧ ∀ k, k ∈ ds → kw !! k = raising.values_of ev w' !! k)
      | inl e =>
          ∃ i n ds kw,
            return_metrics_recipes !! i = Some (n, ds)
            ∧ funcs n kw = inl e
            ∧ dom kw = list_to_set ds
            ∧ (∀ k, k ∈ ds →
                 kw !! k = default ∅ (dicts w' !! fresh (dom (dicts w))) !! k)
            ∧ calls w' = rev (take (S i) (map fst return_metrics_recipes)) ++ calls w
      end.
Proof.
  intros Hd Hseeds.
  set (l := fresh (dom (dicts w))).
  set (w0 := {| dicts := <[l := d]> (dicts w); calls := calls w |}).
  assert (Hinit : raising.__init__ seeds w
                  = (inr {| raising.metric_values := l; raising._metrics := [] |}, w0)).
  { unfold raising.__init__, py_bind, py_get. rewrite Hd. reflexivity. }
  unfold raising.evaluate_return_metrics. unfold py_bind at 1. rewrite Hinit.
  assert (Hl : l ≠ seeds).
  { intros E. pose proof (fresh_unused (dicts w)) as H. fold l in H.
    rewrite E in H. congruence. }
  rewrite (raising_add_metrics_new funcs return_metrics_recipes
             {| raising.metric_values := l; raising._metrics := [] |})
    by (apply (bool_decide_unpack _); vm_compute; exact I).
  cbn [raising.metric_values raising._metrics app].
  set (ev := {| raising.metric_values := l; raising._metrics := _ |}).
  assert (Hv0 : raising.values_of ev w0 = d).
  { unfold raising.values_of. simpl. rewrite lookup_insert_eq. reflexivity. }
  assert (Hsig : map raising.recipe_signature (raising._metrics ev) = return_metrics_recipes)
    by reflexivity.
  assert (Hnames : map fst (raising._metrics ev) = map fst return_metrics_recipes)
    by reflexivity.
  destruct (raising_py_for_in_order fuel ev (raising._metrics ev) return_metrics_seeds w0)
    as (r & w' & Hrun & Hframe & Hkeep & Hres).
  { intros n r. apply raising_in_order_dict_get with return_metrics_seeds.
    rewrite Hsig. reflexivity. }
  { rewrite Hsig. reflexivity. }
  { intros k Hk. rewrite Hv0. auto. }
  assert (Hcaller : dicts w' !! seeds = Some d).
  { rewrite Hframe by (simpl; congruence). simpl.
    rewrite lookup_insert_ne by assumption. exact Hd. }
  unfold py_bind, raising.compute. cbn [default]. rewrite Hrun.
  destruct r as [e|[]].
  - exists (inl e), w'. split; [reflexivity|]. split; [exact Hcaller|].
    destruct Hres as (i & n & func & ds & kw & Hi & He & Hdom & Hval & Hcalls).
    rewrite Hnames in Hcalls.
    change (raising.values_of ev w') with (default ∅ (dicts w' !! l)) in Hval.
    exists i, n, ds, kw.
    assert (Hi' : return_metrics_recipes !! i = Some (n, ds) ∧ func = funcs n).
    { subst ev. cbn [raising._metrics] in Hi. rewrite list_lookup_fmap in Hi.
      destruct (return_metrics_recipes !! i) as [[n0 ds0]|]; [|discriminate].
      simpl in Hi. injection Hi as <- <- <-. auto. }
    destruct Hi' as [Hi' ->]. auto.
  - exists (inr ev), w'. split; [reflexivity|]. split; [exact Hcaller|].
    destruct Hres as (Hcalls & Hdom & Hfix).
    split; [rewrite Hcalls; reflexivity|]. split; [|split].
    + intros k Hk. destruct (proj1 (elem_of_dom _ _) (Hseeds k Hk)) as [v Hv].
      rewrite Hv. apply Hkeep; [exact Hk|]. rewrite Hv0. exact Hv.
    + intros k Hk. rewrite Hdom, Hv0, Hnames.
      assert (Hin : k ∈ return_metrics_seeds ++ map fst return_metrics_recipes).
      { revert k Hk.
        apply (proj1 (Forall_forall
                 (λ k, k ∈ return_metrics_seeds ++ map fst return_metrics_recipes)
                 (display_keys ++ plot_keys))).
        apply (bool_decide_unpack _). vm_compute. exact I. }
      apply elem_of_app in Hin as [Hin|Hin]; [apply elem_of_union_l; auto|].
      apply elem_of_union_r, elem_of_list_to_set. exact Hin.
    + intros n ds Hin. apply (Hfix n (funcs n) ds).
      apply list_elem_of_In.
      apply (in_map (λ r : string * list string, (r.1, (funcs r.1, r.2)))
               return_metrics_recipes (n, ds)).
      apply list_elem_of_In. exact Hin.
Qed.

End raising_more.

Lemma return_metrics_resolved_witness :
  let funcs : string → gmap string Z → exn + Z :=
    λ name kw, if decide (name = "gmean") then inl AssertionError
               else inr (map_fold (λ _ v acc, v + acc) 1 kw) in
  let w := {| dicts := {[ 0%nat := {[ "timestamps" := 1; "returns" := 2;
                                      "starting_equity" := 3 ]} ]};
              calls := [] |} in
  ∃ r w',
    raising.evaluate_return_metrics 1 funcs 0%nat w = (r, w')
    ∧ dicts w' !! 0%nat
      = Some {[ "timestamps" := 1; "returns" := 2; "starting_equity" := 3 ]}.
Proof.
  intros funcs w.
  destruct (return_metrics_resolved 0 funcs 0%nat w
              {[ "timestamps" := 1; "returns" := 2; "starting_equity" := 3 ]})
    as (r & w' & Hrun & Hcaller & _).
  - reflexivity.
  - apply Forall_forall. repeat constructor; apply elem_of_dom; eexists; reflexivity.
  - exists r, w'. split; assumption.
Defined.

Lemma compute_metric_cycle_witness :
  let self : raising.Evaluator Z :=
    raising.add_metric
      (raising.add_metric {| raising.metric_values := 0%nat; raising._metrics := [] |}
         "a" (λ _, inr 0) ["b"]) "b" (λ _, inr 0) ["a"] in
  let w := {| dicts := {[ 0%nat := ∅ ]}; calls := [] |} in
  ∃ e, fst (raising.compute_metric 7 self "a" w) = inl e
       ∧ (e = RecursionError ∨ raising.raised_by_recipe self e).
Proof.
  intros self w.
  refine (proj2 (proj2 (compute_metric_cycle self w (λ d, d = "a" ∨ d = "b") "a" 7 _ _)) _).
  - intros d [->| ->]; (split; [apply not_elem_of_dom; reflexivity|]).
    + exists (λ _, inr 0), ["b"], "b". split; [reflexivity|]. split; [left|right; reflexivity].
    + exists (λ _, inr 0), ["a"], "a". split; [reflexivity|]. split; [left|left; reflexivity].
  - left. reflexivity.
  - intros n func ds d Hget Hd. simpl in Hget.
    destruct (decide ("a" = n)) as [<-|_].
    + injection Hget as _ <-. apply list_elem_of_singleton in Hd as ->. eexists. reflexivity.
    + destruct (decide ("b" = n)) as [<-|_]; [|discriminate].
      injection Hget as _ <-. apply list_elem_of_singleton in Hd as ->. eexists. reflexivity.
Defined.
